(** * Crossword CSP solver (CS50AI/crossword/generate.py)

    A shallow embedding of [CrosswordCreator]: node consistency, arc
    revision, AC-3, the variable and value heuristics and the backtracking
    search, with the Python exceptions the code can raise made explicit.

    Conventions of the embedding.
    - A Python [set] of words is a list; its order stands for the
      iteration order of the set, [copy] and [remove] keep the relative
      order of the remaining elements.
    - [self.domains] and [assignment] are dictionaries keyed by variables:
      [gmap]s.  Both are built by iterating [self.crossword.variables], so
      their keys are visited in the order of [variables].
    - A Python list used as a stack ([arcs.append], [arcs.pop]) is kept
      reversed: the head of the Rocq list is the last element of the
      Python list.
    - A computation either returns, raises, or exhausts the fuel of the
      embedding ([result]). *)

From stdpp Require Import gmap strings list fin_maps sorting.
From Stdlib Require Import Ascii String Lia.

Local Open Scope string_scope.
Local Open Scope list_scope.

(** ** Exceptions and results *)

Inductive exn : Set :=
| KeyError
| IndexError
| TypeError
| UnboundLocalError.

Inductive result (A : Type) : Type :=
| Ok (a : A)
| Raise (e : exn)
| OutOfFuel.

Arguments Ok {A} a.
Arguments Raise {A} e.
Arguments OutOfFuel {A}.

#[global] Instance result_ret : MRet result := λ A a, Ok a.

#[global] Instance result_bind : MBind result := λ A B k m,
  match m with
  | Ok a => k a
  | Raise e => Raise e
  | OutOfFuel => OutOfFuel
  end.

(** ** The puzzle model (crossword.py, consumed through its interface) *)

Inductive Direction : Set := ACROSS | DOWN.

(** [Variable] of crossword.py ([Variable] is reserved in Rocq). *)
Record Var : Set := mkVar {
  var_i : nat;
  var_j : nat;
  direction : Direction;
  var_length : nat
}.

#[global] Instance Direction_eq_dec : EqDecision Direction.
Proof. solve_decision. Defined.

#[global] Instance Var_eq_dec : EqDecision Var.
Proof. solve_decision. Defined.

Definition Var_to_tuple (v : Var) : nat * nat * bool * nat :=
  (var_i v, var_j v, match direction v with ACROSS => true | DOWN => false end,
   var_length v).

Definition Var_of_tuple (t : nat * nat * bool * nat) : Var :=
  let '(i, j, d, n) := t in
  mkVar i j (if d then ACROSS else DOWN) n.

#[global] Instance Var_countable : Countable Var.
Proof.
  apply (inj_countable' Var_to_tuple Var_of_tuple).
  intros [i j [] n]; reflexivity.
Defined.

(** The crossword object: the set of variables (in iteration order), the
    vocabulary and the table [overlaps], a dictionary on ordered pairs of
    variables whose entries are [None] or a pair of offsets. *)
Record Crossword : Type := mkCrossword {
  variables : list Var;
  words : list string;
  overlaps : gmap (Var * Var) (option (nat * nat))
}.

Abbreviation Domains := (gmap Var (list string)).
Abbreviation Assignment := (gmap Var (option string)).
Abbreviation Arc := (Var * Var)%type.

(** Modelled from the spec: [Crossword.neighbors] is declared in
    crossword.py, which is not part of the sources; the spec gives
    "neighbors(variable) -> set of Var (all variables sharing a
    cell)", and the overlap table holds an entry exactly for the pairs
    that share a cell. *)
Definition neighbors (cw : Crossword) (var : Var) : list Var :=
  filter (λ v, v ≠ var ∧ is_Some (mjoin (overlaps cw !! (v, var))))
         (variables cw).

(** ** Dictionary and set primitives *)

(** [d[k]] *)
Definition getitem {V : Type} (d : gmap Var V) (k : Var) : result V :=
  match d !! k with
  | Some v => Ok v
  | None => Raise KeyError
  end.

(** [self.crossword.overlaps[x, y]] *)
Definition overlaps_getitem (cw : Crossword) (x y : Var)
  : result (option (nat * nat)) :=
  match overlaps cw !! (x, y) with
  | Some o => Ok o
  | None => Raise KeyError
  end.

(** [s.remove(w)] on a set *)
Definition set_remove (w : string) (s : list string) : result (list string) :=
  if decide (w ∈ s) then Ok (filter (λ w', w' ≠ w) s) else Raise KeyError.

(** [s.pop()] on a set *)
Definition set_pop (s : list string) : result (string * list string) :=
  match s with
  | [] => Raise KeyError
  | w :: s' => Ok (w, s')
  end.

(** [w[k]] on a string, for a non-negative index *)
Definition str_index (w : string) (k : nat) : result ascii :=
  match String.get k w with
  | Some c => Ok c
  | None => Raise IndexError
  end.

(** [overlap[0]], [overlap[1]] *)
Definition subscript0 (overlap : option (nat * nat)) : result nat :=
  match overlap with Some p => Ok (fst p) | None => Raise TypeError end.
Definition subscript1 (overlap : option (nat * nat)) : result nat :=
  match overlap with Some p => Ok (snd p) | None => Raise TypeError end.

(** ** Construction and node consistency *)

(** [__init__]: every variable starts with a copy of the vocabulary. *)
Definition init_domains (cw : Crossword) : Domains :=
  list_to_map ((λ var, (var, words cw)) <$> variables cw).

(** [enforce_node_consistency] *)
Definition enforce_node_consistency (d : Domains) : Domains :=
  map_imap (λ var ws,
    Some (filter (λ word, String.length word = var_length var) ws)) d.

(** ** Arc revision *)

(** The test of line 126:
    [x_word[overlap[0]] == y_word[overlap[1]] and x_word != y_word]. *)
Definition compatible (overlap : option (nat * nat)) (x_word y_word : string)
  : result bool :=
  i0 ← subscript0 overlap;
  a ← str_index x_word i0;
  i1 ← subscript1 overlap;
  b ← str_index y_word i1;
  Ok (bool_decide (a = b) && bool_decide (x_word ≠ y_word)).

(** The inner loop of [revise]: [options] after scanning [self.domains[y]]. *)
Fixpoint count_options (overlap : option (nat * nat)) (x_word : string)
    (ydom : list string) (options : nat) : result nat :=
  match ydom with
  | [] => Ok options
  | y_word :: ydom' =>
      c ← compatible overlap x_word y_word;
      count_options overlap x_word ydom' (if c : bool then S options else options)
  end.

(** The outer loop of [revise], threading [xDomCpy] and [revised];
    [self.domains[y]] is read at every turn. *)
Fixpoint revise_loop (overlap : option (nat * nat)) (d : Domains) (y : Var)
    (xdom : list string) (xDomCpy : list string) (revised : bool)
  : result (list string * bool) :=
  match xdom with
  | [] => Ok (xDomCpy, revised)
  | x_word :: xdom' =>
      ydom ← getitem d y;
      options ← count_options overlap x_word ydom 0;
      if decide (options = 0%nat) then
        xDomCpy' ← set_remove x_word xDomCpy;
        revise_loop overlap d y xdom' xDomCpy' true
      else revise_loop overlap d y xdom' xDomCpy revised
  end.

Definition revise (cw : Crossword) (x y : Var) (d : Domains)
  : result (bool * Domains) :=
  overlap ← overlaps_getitem cw x y;
  xdom ← getitem d x;
  '(xDomCpy, revised) ← revise_loop overlap d y xdom xdom false;
  Ok (revised, <[x := xDomCpy]> d).

(** ** AC-3 *)

(** The initial queue of [ac3] when [arcs] is [None], in Python order. *)
Definition all_arcs (cw : Crossword) : list Arc :=
  x ← variables cw; y ← neighbors cw x; [(x, y)].

(** [s.remove(y)] on a set of variables *)
Definition var_set_remove (y : Var) (s : list Var) : result (list Var) :=
  if decide (y ∈ s) then Ok (filter (λ z, z ≠ y) s) else Raise KeyError.

(** [arcs.append((z, x))] for every [z] of [zs], on the reversed list. *)
Definition push_arcs (x : Var) (zs : list Var) (arcs : list Arc) : list Arc :=
  foldl (λ arcs z, (z, x) :: arcs) arcs zs.

(** The [while] loop of [ac3]; [arcs] is the stack, top first. *)
Fixpoint ac3_loop (cw : Crossword) (fuel : nat) (arcs : list Arc) (d : Domains)
  : result (bool * Domains) :=
  match arcs with
  | [] => Ok (true, d)
  | (x, y) :: arcs' =>
      match fuel with
      | O => OutOfFuel
      | S fuel' =>
          '(revised, d') ← revise cw x y d;
          if revised : bool then
            xdom ← getitem d' x;
            if decide (List.length xdom = 0%nat) then Ok (false, d')
            else
              x_neighbours_no_y ← var_set_remove y (neighbors cw x);
              ac3_loop cw fuel' (push_arcs x x_neighbours_no_y arcs') d'
          else ac3_loop cw fuel' arcs' d'
      end
  end.

(** Total number of candidate words held by the domain store. *)
Definition dom_total (d : Domains) : nat :=
  map_fold (λ _ ws n, List.length ws + n)%nat 0%nat d.

(** A number of turns the [while] loop cannot exceed: every turn pops an
    arc, and only a turn that shrinks a domain pushes arcs, fewer than
    there are variables. *)
Definition ac3_fuel (cw : Crossword) (arcs : list Arc) (d : Domains) : nat :=
  (dom_total d * S (List.length (variables cw)) + List.length arcs)%nat.

(** [ac3(arcs)]; [arcs] is in Python order. *)
Definition ac3 (cw : Crossword) (arcs : option (list Arc)) (d : Domains)
  : result (bool * Domains) :=
  let arcs :=
    match arcs with
    | None => all_arcs cw
    | Some arcs => arcs
    end in
  ac3_loop cw (ac3_fuel cw arcs d) (reverse arcs) d.

(** ** Assignments *)

(** [assignment_complete] *)
Definition assignment_complete (cw : Crossword) (a : Assignment) : bool :=
  forallb (λ var,
    match a !! var with
    | Some None => false
    | _ => true
    end) (variables cw).

(** The inner loop of [consistent], over the neighbors of [x]. *)
Fixpoint consistent_neighbors (cw : Crossword) (a : Assignment) (x : Var)
    (x_word : string) (ys : list Var) : result bool :=
  match ys with
  | [] => Ok true
  | y :: ys' =>
      ay ← getitem a y;
      match ay with
      | None => consistent_neighbors cw a x x_word ys'
      | Some y_word =>
          overlap ← overlaps_getitem cw x y;
          c ← compatible overlap x_word y_word;
          if c : bool then consistent_neighbors cw a x x_word ys'
          else Ok false
      end
  end.

(** The outer loop of [consistent], over the keys of [assignment]. *)
Fixpoint consistent_loop (cw : Crossword) (a : Assignment) (xs : list Var)
  : result bool :=
  match xs with
  | [] => Ok true
  | x :: xs' =>
      match a !! x with
      | Some (Some x_word) =>
          ok ← consistent_neighbors cw a x x_word (neighbors cw x);
          if ok : bool then consistent_loop cw a xs' else Ok false
      | _ => consistent_loop cw a xs'
      end
  end.

Definition consistent (cw : Crossword) (a : Assignment) : result bool :=
  consistent_loop cw a (variables cw).

(** ** Heuristics *)

(** The innermost loop of [order_domain_values]: one more option removed
    for every word of the neighbor that mismatches or is the same word. *)
Fixpoint count_removed (overlap : option (nat * nat)) (word : string)
    (ndom : list string) (options_removed : nat) : result nat :=
  match ndom with
  | [] => Ok options_removed
  | word_neighbour :: ndom' =>
      c ← compatible overlap word word_neighbour;
      count_removed overlap word ndom'
        (if c : bool then options_removed else S options_removed)
  end.

(** The loop over the neighbors of [var] in [order_domain_values]. *)
Fixpoint options_removed_by (cw : Crossword) (d : Domains) (var : Var)
    (word : string) (ns : list Var) (options_removed : nat) : result nat :=
  match ns with
  | [] => Ok options_removed
  | var_neighbour :: ns' =>
      overlap ← overlaps_getitem cw var var_neighbour;
      ndom ← getitem d var_neighbour;
      n ← count_removed overlap word ndom options_removed;
      options_removed_by cw d var word ns' n
  end.

(** The loop over the words of the domain: the dictionary
    [sorted_domain_dict] before sorting, as its list of items. *)
Fixpoint removal_counts (cw : Crossword) (d : Domains) (var : Var)
    (ws : list string) : result (list (string * nat)) :=
  match ws with
  | [] => Ok []
  | word :: ws' =>
      n ← options_removed_by cw d var word (neighbors cw var) 0%nat;
      rest ← removal_counts cw d var ws';
      Ok ((word, n) :: rest)
  end.

(** [sorted(items, key=lambda item: item[1])]: a stable sort. *)
Fixpoint insert_by_count (item : string * nat) (l : list (string * nat))
  : list (string * nat) :=
  match l with
  | [] => [item]
  | item' :: l' =>
      if decide (snd item ≤ snd item')%nat then item :: l
      else item' :: insert_by_count item l'
  end.

Definition sorted_by_count (items : list (string * nat)) : list (string * nat) :=
  foldr insert_by_count [] items.

(** [order_domain_values] *)
Definition order_domain_values (cw : Crossword) (d : Domains) (var : Var)
    (a : Assignment) : result (list string) :=
  ws ← getitem d var;
  items ← removal_counts cw d var ws;
  Ok (fst <$> sorted_by_count items).

(** [n < min_dom_vals], where [None] stands for [float("inf")]. *)
Definition below (n : nat) (min_dom_vals : option nat) : bool :=
  match min_dom_vals with
  | None => true
  | Some m => bool_decide (n < m)%nat
  end.

(** The loop of [select_unassigned_variable]; [min_dom_vals] is [None]
    while it is [float("inf")], [selected_var] is [None] while unbound. *)
Fixpoint select_loop (cw : Crossword) (d : Domains) (a : Assignment)
    (vars : list Var) (min_dom_vals : option nat) (selected_var : option Var)
  : result (option Var) :=
  match vars with
  | [] => Ok selected_var
  | var :: vars' =>
      match a !! var with
      | Some None =>
          ws ← getitem d var;
          let n := List.length ws in
          if below n min_dom_vals then
            select_loop cw d a vars' (Some n) (Some var)
          else if bool_decide (min_dom_vals = Some n) then
            match selected_var with
            | None => Raise UnboundLocalError
            | Some sel =>
                if bool_decide (List.length (neighbors cw sel)
                                < List.length (neighbors cw var))%nat
                then select_loop cw d a vars' (Some n) (Some var)
                else select_loop cw d a vars' min_dom_vals selected_var
            end
          else select_loop cw d a vars' min_dom_vals selected_var
      | _ => select_loop cw d a vars' min_dom_vals selected_var
      end
  end.

(** [select_unassigned_variable] *)
Definition select_unassigned_variable (cw : Crossword) (d : Domains)
    (a : Assignment) : result Var :=
  sel ← select_loop cw d a (variables cw) None None;
  match sel with
  | Some var => Ok var
  | None => Raise UnboundLocalError
  end.

(** ** Backtracking search *)

(** The search state: the assignment dictionary and the domain store,
    both mutated in place and shared by all the recursive calls. *)
Abbreviation State := (Assignment * Domains)%type.

(** [{var: None for var in self.crossword.variables}] *)
Definition empty_assignment (cw : Crossword) : Assignment :=
  list_to_map ((λ var, (var, None)) <$> variables cw).

(** Lines 270-272: at the root, a variable whose domain holds one word
    takes it. *)
Fixpoint assign_singletons (vars : list Var) (st : State) : result State :=
  match vars with
  | [] => Ok st
  | var :: vars' =>
      let '(a, d) := st in
      ws ← getitem d var;
      if decide (List.length ws = 1%nat) then
        '(w, ws') ← set_pop ws;
        assign_singletons vars' (<[var := Some w]> a, <[var := ws']> d)
      else assign_singletons vars' st
  end.

(** Lines 294-296: after a propagation that succeeded, an unassigned
    variable whose domain holds one word takes it. *)
Fixpoint apply_inferences (vars : list Var) (st : State) : result State :=
  match vars with
  | [] => Ok st
  | var_chk :: vars' =>
      let '(a, d) := st in
      match a !! var_chk with
      | Some None =>
          ws ← getitem d var_chk;
          if decide (List.length ws = 1%nat) then
            '(w, ws') ← set_pop ws;
            apply_inferences vars' (<[var_chk := Some w]> a, <[var_chk := ws']> d)
          else apply_inferences vars' st
      | _ => apply_inferences vars' st
      end
  end.

(** [self.domains[var].remove(value)] (line 303) *)
Definition domain_remove (var : Var) (value : string) (d : Domains)
  : result Domains :=
  ws ← getitem d var;
  ws' ← set_remove value ws;
  Ok (<[var := ws']> d).

(** The [for value in ...] loop of [backtrack]; [rec] is the recursive
    call.  The result is the value returned ([None] when the loop runs to
    its end and the function falls off) with the state left behind. *)
Fixpoint backtrack_loop (cw : Crossword)
    (rec : State → result (option Assignment * State))
    (var : Var) (values : list string) (st : State)
  : result (option Assignment * State) :=
  match values with
  | [] => Ok (None, st)
  | value :: values' =>
      let '(a, d) := st in
      let temp_assignment := <[var := Some value]> a in
      ok ← consistent cw temp_assignment;
      if ok : bool then
        let a := <[var := Some value]> a in
        let arcs := (λ y, (y, var)) <$> neighbors cw var in
        '(inferences, d) ← ac3 cw (Some arcs) d;
        st ← (if inferences : bool
              then apply_inferences (variables cw) (a, d)
              else Ok (a, d));
        '(result, st) ← rec st;
        match result with
        | Some r => Ok (Some r, st)
        | None =>
            let '(a, d) := st in
            d ← domain_remove var value d;
            backtrack_loop cw rec var values' (a, d)
        end
      else
        d ← domain_remove var value d;
        backtrack_loop cw rec var values' (a, d)
  end.

(** Lines 274-303 of [backtrack]: the completeness test, the choice of a
    variable and the loop over its candidates. *)
Definition backtrack_search (cw : Crossword)
    (rec : State → result (option Assignment * State)) (st : State)
  : result (option Assignment * State) :=
  let '(a, d) := st in
  if assignment_complete cw a then Ok (Some a, st)
  else
    var ← select_unassigned_variable cw d a;
    values ← order_domain_values cw d var a;
    backtrack_loop cw rec var values st.

(** [backtrack(assignment)]; [fuel] bounds the depth of the recursion. *)
Fixpoint backtrack (cw : Crossword) (fuel : nat) (st : State)
  : result (option Assignment * State) :=
  match fuel with
  | O => OutOfFuel
  | S fuel' =>
      st ← (if decide (fst st = ∅)
            then assign_singletons (variables cw) (empty_assignment cw, snd st)
            else Ok st);
      backtrack_search cw (backtrack cw fuel') st
  end.

(** Every recursive call assigns one more variable, so the recursion is
    no deeper than the number of variables. *)
Definition backtrack_fuel (cw : Crossword) : nat :=
  S (List.length (variables cw)).

(** [solve], with the domain store it leaves behind. *)
Definition solve_state (cw : Crossword) : result (option Assignment * State) :=
  let d := enforce_node_consistency (init_domains cw) in
  '(_, d) ← ac3 cw None d;
  backtrack cw (backtrack_fuel cw) (∅, d).

(** [solve] *)
Definition solve (cw : Crossword) : result (option Assignment) :=
  '(r, _) ← solve_state cw;
  Ok r.

(** ** Puzzles given by their slots *)

(** Modelled from the spec: the overlap table is built by crossword.py,
    which is not part of the sources; the spec gives "for every unordered
    pair of variables that occupy at least one common grid cell, records
    the pair of character-index offsets (one into each variable's word)
    that must match", symmetric, with no entry content for pairs that
    share no cell.  [cells] lists the grid cells of a slot in word order. *)
Definition cells (v : Var) : list (nat * nat) :=
  (λ k, match direction v with
        | DOWN => (var_i v + k, var_j v)
        | ACROSS => (var_i v, var_j v + k)
        end)%nat <$> seq 0 (var_length v).

Definition index_of (c : nat * nat) (cs : list (nat * nat)) : option nat :=
  fst <$> list_find (λ c', c' = c) cs.

Definition overlap_of (v1 v2 : Var) : option (nat * nat) :=
  match list_find (λ c, c ∈ cells v2) (cells v1) with
  | Some (k1, c) => (λ k2, (k1, k2)) <$> index_of c (cells v2)
  | None => None
  end.

Definition grid_overlaps (vars : list Var)
  : gmap (Var * Var) (option (nat * nat)) :=
  list_to_map (v1 ← vars; v2 ← vars;
               if decide (v1 = v2) then [] else [((v1, v2), overlap_of v1 v2)]).

Definition grid_crossword (vars : list Var) (vocabulary : list string)
  : Crossword :=
  mkCrossword vars vocabulary (grid_overlaps vars).

(** ** Predicates of the specification *)

#[global] Instance exn_eq_dec : EqDecision exn.
Proof. solve_decision. Defined.

#[global] Instance result_eq_dec {A} `{EqDecision A} : EqDecision (result A).
Proof. solve_decision. Defined.

(** [w'] is an option for [w]: the test of line 126 succeeds. *)
Definition is_option (overlap : option (nat * nat)) (w w' : string) : Prop :=
  compatible overlap w w' = Ok true.

(** [w] has an option among the words [ydom]. *)
Definition supported (overlap : option (nat * nat)) (ydom : list string)
    (w : string) : Prop :=
  Exists (is_option overlap w) ydom.

#[global] Instance is_option_dec overlap w w' : Decision (is_option overlap w w').
Proof. unfold is_option. apply _. Defined.

#[global] Instance supported_dec overlap ydom w : Decision (supported overlap ydom w).
Proof. unfold supported. apply _. Defined.

(** The overlap table is symmetric: both orders of a pair name the same
    cell, with the offsets swapped. *)
Definition symmetric_overlaps (cw : Crossword) : Prop :=
  ∀ x y i j,
    overlaps cw !! (x, y) = Some (Some (i, j)) →
    overlaps cw !! (y, x) = Some (Some (j, i)).

(** Every word left for [x] has an option left for [y]. *)
Definition arc_consistent (cw : Crossword) (d : Domains) (x y : Var) : Prop :=
  ∀ w, w ∈ default [] (d !! x) →
       supported (mjoin (overlaps cw !! (x, y))) (default [] (d !! y)) w.

(** A check of [symmetric_overlaps] on the entries of the table. *)
Definition symmetric_overlapsb (cw : Crossword) : bool :=
  forallb (λ e : Var * Var * option (nat * nat),
    match e.2 with
    | Some (i, j) =>
        bool_decide (overlaps cw !! (e.1.2, e.1.1) = Some (Some (j, i)))
    | None => true
    end) (map_to_list (overlaps cw)).

(** ** Example puzzles *)

(** Four slots in a chain, of lengths 2 to 5:
<<
    _ _ # # #        u: across, row 0      z: down, column 1
    # _ # # #        t: across, row 2      y: down, column 4
    # _ _ _ _
    # # # # _
    # # # # _
    # # # # _
    # # # # _
>> *)
Definition slot_u : Var := mkVar 0 0 ACROSS 2.
Definition slot_z : Var := mkVar 0 1 DOWN 3.
Definition slot_t : Var := mkVar 2 1 ACROSS 4.
Definition slot_y : Var := mkVar 2 4 DOWN 5.

Definition chain_slots : list Var := [slot_u; slot_z; slot_t; slot_y].

Definition chain_words_1 : list string :=
  ["TA"; "TB"; "AAP"; "BAQ"; "AOP"; "PXXF"; "QXXE"; "QYYE"; "QZZE";
   "EAAAA"; "FAAAA"].

Definition chain_words_2 : list string :=
  ["TA"; "TB"; "AAP"; "BAQ"; "AOP"; "PXXF"; "PYYF"; "QXXE"; "QYYE"; "QZZE";
   "EAAAA"; "FAAAA"].

Definition chain_puzzle_1 : Crossword := grid_crossword chain_slots chain_words_1.
Definition chain_puzzle_2 : Crossword := grid_crossword chain_slots chain_words_2.

(** Two slots that cross in one cell:
<<
    _ _        u: across, row 0
    # _        z: down, column 1
    # _
>> *)
Definition cross_puzzle : Crossword :=
  grid_crossword [slot_u; slot_z] ["TA"; "AAP"; "AOP"].

(** The domain store of [cross_puzzle] when [backtrack] starts its loop:
    after node consistency, the first [ac3] and the assignments at the
    root. *)
Definition cross_domains : Domains :=
  match
    '(_, d) ← ac3 cross_puzzle None
                (enforce_node_consistency (init_domains cross_puzzle));
    assign_singletons (variables cross_puzzle)
                      (empty_assignment cross_puzzle, d)
  with
  | Ok (_, d) => d
  | _ => ∅
  end.

(** Two slots that share no cell:
<<
    _ _        across, row 0
    # #
    _ _        across, row 2
>> *)
Definition slot_top : Var := mkVar 0 0 ACROSS 2.
Definition slot_bottom : Var := mkVar 2 0 ACROSS 2.

Definition parallel_puzzle : Crossword :=
  grid_crossword [slot_top; slot_bottom] ["AB"].

(** [len(self.domains[v])] and [len(self.crossword.neighbors(v))] *)
Definition domain_size (d : Domains) (v : Var) : nat :=
  List.length (default [] (d !! v)).

Definition degree (cw : Crossword) (v : Var) : nat :=
  List.length (neighbors cw v).

(** [v] is a key of the assignment that holds [None]. *)
Definition unassigned (a : Assignment) (v : Var) : Prop := a !! v = Some None.

(** The state of the loop of [select_unassigned_variable] after the
    variables [seen]: nothing selected while no unassigned variable was
    met, else the best of those met. *)
Definition select_inv (cw : Crossword) (d : Domains) (a : Assignment)
    (seen : list Var) (min_dom_vals : option nat) (selected_var : option Var)
  : Prop :=
  match min_dom_vals, selected_var with
  | None, None => ∀ v, v ∈ seen → ¬ unassigned a v
  | Some n, Some s =>
      s ∈ seen ∧ unassigned a s ∧ n = domain_size d s ∧
      ∀ v, v ∈ seen → unassigned a v →
           (n ≤ domain_size d v)%nat ∧
           (domain_size d v = n → (degree cw v ≤ degree cw s)%nat)
  | _, _ => False
  end.

(** The puzzles the solver is meant for: the vocabulary is a set, the
    overlap table is symmetric and its offsets lie within the slots. *)
Definition overlaps_in_bounds (cw : Crossword) : Prop :=
  ∀ x y i j,
    overlaps cw !! (x, y) = Some (Some (i, j)) →
    (i < var_length x)%nat ∧ (j < var_length y)%nat.

Definition well_formed (cw : Crossword) : Prop :=
  NoDup (words cw) ∧ symmetric_overlaps cw ∧ overlaps_in_bounds cw.

(** A check of [overlaps_in_bounds] on the entries of the table. *)
Definition overlaps_in_boundsb (cw : Crossword) : bool :=
  forallb (λ e : Var * Var * option (nat * nat),
    match e.2 with
    | Some (i, j) =>
        bool_decide (i < var_length e.1.1)%nat
        && bool_decide (j < var_length e.1.2)%nat
    | None => true
    end) (map_to_list (overlaps cw)).

Definition well_formedb (cw : Crossword) : bool :=
  bool_decide (NoDup (words cw)) && symmetric_overlapsb cw
  && overlaps_in_boundsb cw.

(** The domain store as the solver keeps it: every variable has a
    domain, and a domain is a set of words of the length of its slot. *)
Definition store_ok (cw : Crossword) (d : Domains) : Prop :=
  (∀ v, v ∈ variables cw → is_Some (d !! v))
  ∧ ∀ v ws, d !! v = Some ws →
      NoDup ws ∧ Forall (λ w, String.length w = var_length v) ws.

(** Domains only lose words. *)
Definition shrinks (d d' : Domains) : Prop :=
  ∀ v ws, d !! v = Some ws → ∃ ws', d' !! v = Some ws' ∧ ws' ⊆ ws.

(** The arcs [ac3] is given join a variable to one of its neighbors. *)
Definition valid_arcs (cw : Crossword) (arcs : list Arc) : Prop :=
  Forall (λ arc, arc.1 ∈ variables cw ∧ arc.2 ∈ neighbors cw arc.1) arcs.

(** The slots of [cross_puzzle] with a vocabulary that has no word of
    three letters. *)
Definition short_puzzle : Crossword :=
  grid_crossword [slot_u; slot_z] ["TA"; "TB"].

(** What [solve] returns on [chain_puzzle_1], and a solution of that
    puzzle. *)
Definition chain_answer_1 : Assignment :=
  list_to_map [(slot_u, Some "TA"); (slot_z, Some "AAP");
               (slot_t, Some "PXXF"); (slot_y, Some "EAAAA")].

Definition chain_solution : Assignment :=
  list_to_map [(slot_u, Some "TA"); (slot_z, Some "AAP");
               (slot_t, Some "PXXF"); (slot_y, Some "FAAAA")].

(** What [solve] returns on [parallel_puzzle]. *)
Definition parallel_answer : Assignment :=
  list_to_map [(slot_top, Some "AB"); (slot_bottom, Some "AB")].

(** The state of the search on [chain_puzzle_1] when the loop over the
    candidates of [slot_z] starts: [slot_y] and [slot_u] hold their first
    candidates and no domain has changed yet. *)
Definition chain_assignment_z : Assignment :=
  <[slot_u := Some "TA"]> (<[slot_y := Some "EAAAA"]>
    (empty_assignment chain_puzzle_1)).

Definition chain_domains_z : Domains :=
  enforce_node_consistency (init_domains chain_puzzle_1).

(** A store on the slots of [cross_puzzle] in which a word of [slot_u]
    has no option. *)
Definition cross_store : Domains :=
  <[slot_u := ["TA"; "TB"]]> (<[slot_z := ["AAP"]]> ∅).

(** The number of variables a (non-empty) assignment leaves unassigned:
    the measure of the recursion of [backtrack]. *)
Definition count_unassigned (cw : Crossword) (a : Assignment) : nat :=
  List.length (filter (λ v, a !! v = Some None) (variables cw)).

(** [solve] returns an assignment that [consistent] rejects. *)
Definition returns_inconsistent (cw : Crossword) : bool :=
  match solve cw with
  | Ok (Some a) => bool_decide (consistent cw a = Ok false)
  | _ => false
  end.

(** ** Further puzzles and predicates *)

(** A puzzle without any slot. *)
Definition empty_puzzle : Crossword := mkCrossword [] ["AB"] ∅.

(** The keys of an assignment are variables of the puzzle. *)
Definition keyed_by_variables (cw : Crossword) (a : Assignment) : Prop :=
  ∀ v, is_Some (a !! v) → v ∈ variables cw.

(** The store [d'] has the keys of [d], and each of its domains is what
    is left of the domain in [d] after some words were removed. *)
Definition pruned (d d' : Domains) : Prop :=
  ∀ v, match d !! v, d' !! v with
       | Some ws, Some ws' => ws' `sublist_of` ws
       | None, None => True
       | _, _ => False
       end.

(** The number [options_removed] that [order_domain_values] computes for
    a word of the domain of [var]. *)
Definition ruled_out (cw : Crossword) (d : Domains) (var : Var) (word : string)
  : result nat :=
  options_removed_by cw d var word (neighbors cw var) 0%nat.

(** The number of words in the domains of the neighbors of [var] that
    are no option for [word]: they carry another letter at the overlap,
    or are the same word. *)
Definition ruled_out_count (cw : Crossword) (d : Domains) (var : Var)
    (word : string) : nat :=
  sum_list ((λ nb,
    List.length (filter (λ w', ¬ is_option (mjoin (overlaps cw !! (var, nb)))
                                            word w')
                   (default [] (d !! nb)))) <$> neighbors cw var).

(** How the search moves from one state to a later one: the assignment
    keeps its keys and the words it holds, a word it gains was in the
    domain of its variable, and the store only loses words. *)
Definition search_step (st st' : State) : Prop :=
  (∀ v, st'.1 !! v = None ↔ st.1 !! v = None)
  ∧ (∀ v w, st.1 !! v = Some (Some w) → st'.1 !! v = Some (Some w))
  ∧ (∀ v w, st'.1 !! v = Some (Some w) →
       st.1 !! v = Some (Some w)
       ∨ (st.1 !! v = Some None ∧ ∃ ws, st.2 !! v = Some ws ∧ w ∈ ws))
  ∧ pruned st.2 st'.2.

(** A state in which some variable is unassigned and has no candidate
    left. *)
Definition dead_end (cw : Crossword) (st : State) : Prop :=
  ∃ v, v ∈ variables cw ∧ st.1 !! v = Some None ∧ st.2 !! v = Some [].

(** ** Rendering an assignment *)

(** The two-dimensional array of [letter_grid]: rows of cells that hold
    [None] or a letter. *)
Abbreviation Grid := (list (list (option ascii))).

(** [[[None for _ in range(width)] for _ in range(height)]] *)
Definition blank_grid (height width : nat) : Grid :=
  replicate height (replicate width None).

(** [letters[i][j]], when both indices are in range *)
Definition grid_get (letters : Grid) (i j : nat) : option (option ascii) :=
  row ← letters !! i; row !! j.

(** [letters[i][j] = c] *)
Definition grid_set (i j : nat) (c : ascii) (letters : Grid) : result Grid :=
  match letters !! i with
  | None => Raise IndexError
  | Some row =>
      if decide (j < List.length row)%nat
      then Ok (<[i := <[j := Some c]> row]> letters)
      else Raise IndexError
  end.

(** The cell [(i, j)] of the [k]-th letter of a slot (lines 29-30). *)
Definition cell_of (variable : Var) (k : nat) : nat * nat :=
  match direction variable with
  | DOWN => (var_i variable + k, var_j variable)
  | ACROSS => (var_i variable, var_j variable + k)
  end%nat.

(** The loop [for k in range(len(word))], from the [k]-th letter on;
    [word] is what is left of the word. *)
Fixpoint write_letters (variable : Var) (k : nat) (word : string)
    (letters : Grid) : result Grid :=
  match word with
  | EmptyString => Ok letters
  | String c word' =>
      letters' ← grid_set (cell_of variable k).1 (cell_of variable k).2 c letters;
      write_letters variable (S k) word' letters'
  end.

(** The loop [for variable, word in assignment.items()]; [len(word)]
    raises [TypeError] on [None]. *)
Fixpoint letter_grid_loop (a : Assignment) (vars : list Var) (letters : Grid)
  : result Grid :=
  match vars with
  | [] => Ok letters
  | variable :: vars' =>
      match a !! variable with
      | Some (Some word) =>
          letters' ← write_letters variable 0 word letters;
          letter_grid_loop a vars' letters'
      | Some None => Raise TypeError
      | None => letter_grid_loop a vars' letters
      end
  end.

(** [letter_grid(assignment)].  [self.crossword.height] and
    [self.crossword.width] are fields of the crossword object that
    crossword.py sets; they are taken as parameters. *)
Definition letter_grid (height width : nat) (cw : Crossword) (a : Assignment)
  : result Grid :=
  letter_grid_loop a (variables cw) (blank_grid height width).

(** Words that are written to the same cell carry the same letter
    there. *)
Definition letters_agree (cw : Crossword) (a : Assignment) : Prop :=
  ∀ v1 v2 w1 w2 k1 k2 c1 c2,
    v1 ∈ variables cw → v2 ∈ variables cw →
    a !! v1 = Some (Some w1) → a !! v2 = Some (Some w2) →
    String.get k1 w1 = Some c1 → String.get k2 w2 = Some c2 →
    cell_of v1 k1 = cell_of v2 k2 → c1 = c2.

(** A check of [letters_agree] over the slots and the letters of their
    words. *)
Definition letters_agreeb (cw : Crossword) (a : Assignment) : bool :=
  forallb (λ v1, forallb (λ v2,
    match a !! v1, a !! v2 with
    | Some (Some w1), Some (Some w2) =>
        forallb (λ k1, forallb (λ k2,
          if decide (cell_of v1 k1 = cell_of v2 k2)
          then bool_decide (String.get k1 w1 = String.get k2 w2)
          else true) (seq 0 (String.length w2))) (seq 0 (String.length w1))
    | _, _ => true
    end) (variables cw)) (variables cw).

(** The grid has [height] rows of [width] cells. *)
Definition grid_shape (height width : nat) (letters : Grid) : Prop :=
  List.length letters = height
  ∧ Forall (λ row, List.length row = width) letters.

(** The assignment of [cross_puzzle] that gives "TA" and "AAP". *)
Definition cross_answer : Assignment :=
  list_to_map [(slot_u, Some "TA"); (slot_z, Some "AAP")].

(** * Properties *)

(** ** Results *)

Lemma bind_Ok {A B} (m : result A) (k : A → result B) (b : B) :
  m ≫= k = Ok b ↔ ∃ a, m = Ok a ∧ k a = Ok b.
Proof.
  destruct m as [a| |]; simpl; split; try (intros [? [? ?]]); try discriminate.
  - eauto.
  - congruence.
Qed.

Lemma bind_OutOfFuel {A B} (m : result A) (k : A → result B) :
  m ≫= k = OutOfFuel ↔ m = OutOfFuel ∨ ∃ a, m = Ok a ∧ k a = OutOfFuel.
Proof.
  destruct m as [a| |]; simpl; split; intros H;
    try (destruct H as [H | [? [H ?]]]); try discriminate; eauto.
  congruence.
Qed.

(** Splits a hypothesis [m ≫= k = Ok b] into its two runs. *)
Ltac inv_bind H :=
  let a := fresh "r" in
  let H1 := fresh H in
  apply bind_Ok in H; destruct H as [a [H1 H]].

Ltac inv_bind_as H a H1 :=
  apply bind_Ok in H; destruct H as [a [H1 H]].

Lemma getitem_Ok {V} (d : gmap Var V) k v : getitem d k = Ok v ↔ d !! k = Some v.
Proof. unfold getitem. destruct (d !! k); split; congruence. Qed.

Lemma set_remove_Ok w s s' :
  set_remove w s = Ok s' ↔ w ∈ s ∧ s' = filter (λ w', w' ≠ w) s.
Proof.
  unfold set_remove. case_decide; split; try intros [? ?]; try congruence; try done.
  split; [done | congruence].
Qed.

(** ** Arc revision *)

Lemma count_options_Ok overlap w ydom n k :
  count_options overlap w ydom n = Ok k →
  (n ≤ k)%nat ∧ (k = n ↔ ¬ supported overlap ydom w).
Proof.
  revert n. induction ydom as [|w' ydom IH]; intros n H; simpl in H.
  - injection H as <-. split; [lia|]. split; [|done].
    intros _ Hs. by apply Exists_nil in Hs.
  - inv_bind H. destruct r.
    + apply IH in H as [Hle Hk]. split; [lia|]. split; [lia|].
      intros Hn. exfalso. apply Hn. by apply Exists_cons_hd.
    + apply IH in H as [Hle Hk]. split; [done|].
      rewrite Hk. unfold supported. rewrite Exists_cons.
      unfold is_option at 2. rewrite H0.
      split; [intros Hn [?|?]; [discriminate | auto] | auto].
Qed.

Lemma filter_all {A} (P : A → Prop) `{∀ x, Decision (P x)} (l : list A) :
  (∀ x, x ∈ l → P x) → filter P l = l.
Proof.
  induction l as [|x l IH]; intros HP; [done|].
  rewrite filter_cons_True by (apply HP; left).
  f_equal. apply IH. intros z Hz. apply HP. by right.
Qed.

Lemma filter_ext_elem {A} (P Q : A → Prop)
    `{∀ x, Decision (P x)} `{∀ x, Decision (Q x)} (l : list A) :
  (∀ x, x ∈ l → P x ↔ Q x) → filter P l = filter Q l.
Proof.
  induction l as [|x l IH]; intros HPQ; [done|].
  rewrite !filter_cons, IH by (intros z Hz; apply HPQ; by right).
  destruct (decide (P x)) as [HP|HP], (decide (Q x)) as [HQ|HQ]; try done;
    apply HPQ in HP || apply HPQ in HQ; try done; left.
Qed.

(** What a run of the outer loop that returns has done: [xDomCpy] has
    lost exactly the scanned words that have no option. *)
Lemma revise_loop_Ok overlap (d : Domains) y xdom cpy revised cpy' revised' :
  revise_loop overlap d y xdom cpy revised = Ok (cpy', revised') →
  let ydom := default [] (d !! y) in
  cpy' = filter (λ w, ¬ (w ∈ xdom ∧ ¬ supported overlap ydom w)) cpy
  ∧ (revised' = false → revised = false ∧ cpy' = cpy)
  ∧ (revised' = true → revised = true ∨ (List.length cpy' < List.length cpy)%nat).
Proof.
  intros H ydom. revert cpy revised H.
  induction xdom as [|w xdom IH]; intros cpy revised H; simpl in H.
  - injection H as <- <-. split; [|by auto].
    symmetry. apply filter_all. intros x _ [Hx _]. by apply elem_of_nil in Hx.
  - inv_bind H. apply getitem_Ok in H0.
    assert (ydom = r) as Hy by (unfold ydom; by rewrite H0).
    inv_bind H. apply count_options_Ok in H1 as [_ Hk]. rewrite <- Hy in Hk.
    case_decide as Hopt.
    + assert (¬ supported overlap ydom w) as Hns by (by apply Hk).
      inv_bind H. apply set_remove_Ok in H1 as [Hin ->].
      apply IH in H as (-> & Hf & Ht).
      assert (filter (λ w0, ¬ (w0 ∈ xdom ∧ ¬ supported overlap ydom w0))
                (filter (λ w', w' ≠ w) cpy)
              = filter (λ w0, ¬ (w0 ∈ w :: xdom ∧ ¬ supported overlap ydom w0)) cpy)
        as Heq.
      { rewrite list_filter_filter. apply list_filter_iff. intros x.
        rewrite elem_of_cons. split.
        - intros [Hq Hne] [[?|?] ?]; [done | by apply Hq].
        - intros Hq. split.
          + intros [? ?]. apply Hq. auto.
          + intros ->. apply Hq. auto. }
      rewrite Heq. split; [done|]. split.
      * intros Hr. by destruct (Hf Hr).
      * intros _. right. apply (length_filter_lt _ _ w); [done|].
        intros Hq. apply Hq. split; [left | done].
    + assert (supported overlap ydom w) as Hs.
      { destruct (decide (supported overlap ydom w)) as [|Hn]; [done|].
        by apply Hk in Hn. }
      apply IH in H as (-> & Hf & Ht). split; [|by auto].
      apply list_filter_iff. intros x. rewrite elem_of_cons. split.
      * intros Hq [[->|?] ?]; [done | by apply Hq].
      * intros Hq [? ?]. apply Hq. auto.
Qed.

(** What a call of [revise] that returns has done. *)
Lemma revise_Ok cw x y (d : Domains) revised d' :
  revise cw x y d = Ok (revised, d') →
  ∃ overlap xdom,
    overlaps cw !! (x, y) = Some overlap ∧ d !! x = Some xdom ∧
    let ydom := default [] (d !! y) in
    let xdom' := filter (supported overlap ydom) xdom in
    d' = <[x := xdom']> d
    ∧ (revised = false → xdom' = xdom)
    ∧ (revised = true → (List.length xdom' < List.length xdom)%nat).
Proof.
  unfold revise, overlaps_getitem. intros H.
  inv_bind H. destruct (overlaps cw !! (x, y)) as [overlap|] eqn:Hov; [|done].
  injection H0 as <-. inv_bind H. apply getitem_Ok in H0.
  inv_bind H. destruct r0 as [cpy' revised']. injection H as <- <-.
  apply revise_loop_Ok in H1 as (Hc & Hf & Ht).
  exists overlap, r. split; [done|]. split; [done|]. simpl.
  assert (cpy' = filter (supported overlap (default [] (d !! y))) r) as Heq.
  { rewrite Hc. apply filter_ext_elem. intros w Hw. split.
    - intros Hq. destruct (decide (supported overlap (default [] (d !! y)) w));
        [done|]. exfalso. by apply Hq.
    - intros Hs [_ Hn]. by apply Hn. }
  rewrite <- Heq. split; [done|]. split.
  - intros Hr. by destruct (Hf Hr).
  - intros Hr. by destruct (Ht Hr).
Qed.

Lemma get_in_bounds (w : string) (k : nat) :
  (k < String.length w)%nat → ∃ c, String.get k w = Some c.
Proof.
  revert k. induction w as [|c w IH]; intros k Hk; simpl in *; [lia|].
  destruct k as [|k]; [eauto|]. apply IH. lia.
Qed.

(** Within the bounds of both words the test of line 126 does not raise,
    and says that the letters agree and the words differ. *)
Lemma compatible_in_bounds ix iy (w w' : string) :
  (ix < String.length w)%nat → (iy < String.length w')%nat →
  compatible (Some (ix, iy)) w w'
  = Ok (bool_decide (String.get ix w = String.get iy w' ∧ w ≠ w')).
Proof.
  intros [a Ha]%get_in_bounds [b Hb]%get_in_bounds.
  unfold compatible, str_index. simpl. rewrite Ha. simpl. rewrite Hb. simpl.
  f_equal. rewrite <- bool_decide_and. apply bool_decide_ext.
  split; intros [? ?]; split; congruence.
Qed.

Lemma is_option_in_bounds ix iy (w w' : string) :
  (ix < String.length w)%nat → (iy < String.length w')%nat →
  is_option (Some (ix, iy)) w w' ↔ String.get ix w = String.get iy w' ∧ w ≠ w'.
Proof.
  intros Hw Hw'. unfold is_option. rewrite compatible_in_bounds by done.
  split.
  - intros [= H]. by apply bool_decide_eq_true in H.
  - intros H. f_equal. by apply bool_decide_eq_true.
Qed.

Lemma count_options_total overlap w ydom n :
  Forall (λ w', ∃ b, compatible overlap w w' = Ok b) ydom →
  ∃ k, count_options overlap w ydom n = Ok k.
Proof.
  intros H. revert n. induction H as [|w' ydom [b Hb] _ IH]; intros n; simpl.
  - eauto.
  - rewrite Hb. simpl. apply IH.
Qed.

Lemma revise_loop_total overlap (d : Domains) y ydom xdom cpy revised :
  d !! y = Some ydom →
  Forall (λ w, Forall (λ w', ∃ b, compatible overlap w w' = Ok b) ydom) xdom →
  NoDup xdom → xdom ⊆ cpy →
  ∃ r, revise_loop overlap d y xdom cpy revised = Ok r.
Proof.
  intros Hy Hc. revert cpy revised.
  induction Hc as [|w xdom Hw _ IH]; intros cpy revised Hnd Hsub; simpl.
  - eauto.
  - unfold getitem. rewrite Hy. simpl.
    destruct (count_options_total overlap w ydom 0 Hw) as [k ->]. simpl.
    apply NoDup_cons in Hnd as [Hnw Hnd].
    case_decide.
    + unfold set_remove. rewrite decide_True by (apply Hsub; left). simpl.
      apply IH; [done|]. intros z Hz. apply list_elem_of_filter. split.
      * intros ->. done.
      * apply Hsub. by right.
    + apply IH; [done|]. intros z Hz. apply Hsub. by right.
Qed.

(** Under the conditions that hold when [ac3] calls it, [revise] returns. *)
Lemma revise_total cw x y (d : Domains) overlap xdom ydom :
  overlaps cw !! (x, y) = Some overlap →
  d !! x = Some xdom → d !! y = Some ydom → NoDup xdom →
  Forall (λ w, Forall (λ w', ∃ b, compatible overlap w w' = Ok b) ydom) xdom →
  ∃ revised,
    revise cw x y d = Ok (revised, <[x := filter (supported overlap ydom) xdom]> d).
Proof.
  intros Hov Hx Hy Hnd Hc.
  destruct (revise_loop_total overlap d y ydom xdom xdom false) as [[c r] Hr];
    [done..|].
  assert (revise cw x y d = Ok (r, <[x := c]> d)) as Hrev.
  { unfold revise, overlaps_getitem, getitem. rewrite Hov, Hx. simpl.
    by rewrite Hr. }
  exists r. rewrite Hrev.
  apply revise_Ok in Hrev as (ov' & xdom' & Hov' & Hx' & Hd & _).
  rewrite Hy in Hd. simpl in Hd.
  assert (ov' = overlap) as -> by congruence.
  assert (xdom' = xdom) as -> by congruence.
  by rewrite Hd.
Qed.

(** C6.  For neighboring variables [x] and [y] with overlap offsets
    [(ix, iy)], on a domain store whose words reach these offsets,
    [revise(x, y)] keeps in [x]'s domain exactly the words [w] for which
    some word [w'] of [y]'s domain has [w[ix] = w'[iy]] and [w ≠ w'],
    leaves the domain of [y] (and of every other variable) unchanged, and
    returns true exactly when [x]'s domain shrank; on an empty domain of
    [x] nothing is removed and it returns false. *)
Theorem revise_spec cw x y (d : Domains) ix iy xdom ydom :
  x ≠ y →
  overlaps cw !! (x, y) = Some (Some (ix, iy)) →
  d !! x = Some xdom → d !! y = Some ydom → NoDup xdom →
  Forall (λ w, ix < String.length w)%nat xdom →
  Forall (λ w', iy < String.length w')%nat ydom →
  ∃ revised xdom',
    revise cw x y d = Ok (revised, <[x := xdom']> d)
    ∧ (∀ w, w ∈ xdom' ↔
         w ∈ xdom ∧ ∃ w', w' ∈ ydom ∧ String.get ix w = String.get iy w' ∧ w ≠ w')
    ∧ xdom' `sublist_of` xdom
    ∧ (∀ v, v ≠ x → <[x := xdom']> d !! v = d !! v)
    ∧ <[x := xdom']> d !! y = Some ydom
    ∧ (revised = true ↔ (List.length xdom' < List.length xdom)%nat)
    ∧ (xdom = [] → revised = false ∧ xdom' = []).
Proof.
  intros Hxy Hov Hx Hy Hnd Hbx Hby.
  destruct (revise_total cw x y d (Some (ix, iy)) xdom ydom) as [revised Hrev];
    [done..| |].
  { eapply Forall_impl; [exact Hbx|]. intros w Hw. simpl.
    eapply Forall_impl; [exact Hby|]. intros w' Hw'. simpl.
    rewrite compatible_in_bounds by done. eauto. }
  exists revised, (filter (supported (Some (ix, iy)) ydom) xdom).
  split; [done|].
  apply revise_Ok in Hrev as (ov' & xdom0 & Hov' & Hx' & Hd & Hf & Ht).
  rewrite Hy in Hf, Ht. simpl in Hf, Ht.
  assert (ov' = Some (ix, iy)) as -> by congruence.
  assert (xdom0 = xdom) as -> by congruence.
  split; [|split; [|split; [|split; [|split]]]].
  - intros w. rewrite list_elem_of_filter. unfold supported.
    rewrite Exists_exists. split.
    + intros [[w' [Hw' Ho]] Hw]. split; [done|]. exists w'. split; [done|].
      apply is_option_in_bounds; [| |done].
      * by eapply Forall_forall in Hbx.
      * by eapply Forall_forall in Hby.
    + intros [Hw [w' [Hw' Ho]]]. split; [|done]. exists w'. split; [done|].
      apply is_option_in_bounds; [| |done].
      * by eapply Forall_forall in Hbx.
      * by eapply Forall_forall in Hby.
  - apply sublist_filter.
  - intros v Hv. by rewrite lookup_insert_ne.
  - by rewrite lookup_insert_ne.
  - split; [done|]. intros Hlt. destruct revised; [done|].
    rewrite Hf in Hlt by done. lia.
  - intros ->. split; [|done]. destruct revised; [|done].
    specialize (Ht eq_refl). simpl in Ht. lia.
Qed.

Lemma revise_spec_witness :
  slot_u ≠ slot_z
  ∧ overlaps cross_puzzle !! (slot_u, slot_z) = Some (Some (1, 0)%nat)
  ∧ cross_store !! slot_u = Some ["TA"; "TB"]
  ∧ cross_store !! slot_z = Some ["AAP"]
  ∧ ∃ revised xdom',
      revise cross_puzzle slot_u slot_z cross_store
      = Ok (revised, <[slot_u := xdom']> cross_store)
      ∧ (∀ w, w ∈ xdom' ↔
           w ∈ ["TA"; "TB"]
           ∧ ∃ w', w' ∈ ["AAP"]
                   ∧ String.get 1 w = String.get 0 w' ∧ w ≠ w')
      ∧ xdom' `sublist_of` ["TA"; "TB"]
      ∧ (∀ v, v ≠ slot_u → <[slot_u := xdom']> cross_store !! v = cross_store !! v)
      ∧ <[slot_u := xdom']> cross_store !! slot_z = Some ["AAP"]
      ∧ (revised = true ↔ (List.length xdom' < List.length ["TA"; "TB"])%nat)
      ∧ (["TA"; "TB"] = [] → revised = false ∧ xdom' = []).
Proof.
  assert (slot_u ≠ slot_z) as Hne by done.
  assert (overlaps cross_puzzle !! (slot_u, slot_z) = Some (Some (1, 0)%nat))
    as Hov by (vm_compute; reflexivity).
  assert (cross_store !! slot_u = Some ["TA"; "TB"]) as Hu
    by (vm_compute; reflexivity).
  assert (cross_store !! slot_z = Some ["AAP"]) as Hz
    by (vm_compute; reflexivity).
  split; [exact Hne|]. split; [exact Hov|]. split; [exact Hu|].
  split; [exact Hz|].
  apply (revise_spec cross_puzzle slot_u slot_z cross_store 1 0
           ["TA"; "TB"] ["AAP"] Hne Hov Hu Hz).
  - apply (bool_decide_unpack _); vm_compute; exact I.
  - repeat constructor.
  - repeat constructor.
Defined.

(** ** Runs that do not depend on fuel *)

Lemma bind_fueled {A B} (m : result A) (k : A → result B) :
  m ≠ OutOfFuel → (∀ a, m = Ok a → k a ≠ OutOfFuel) → m ≫= k ≠ OutOfFuel.
Proof. intros Hm Hk. destruct m; simpl; [by apply Hk | done | done]. Qed.

Lemma getitem_fueled {V} (d : gmap Var V) k : getitem d k ≠ OutOfFuel.
Proof. unfold getitem. by destruct (d !! k). Qed.

Lemma overlaps_getitem_fueled cw x y : overlaps_getitem cw x y ≠ OutOfFuel.
Proof. unfold overlaps_getitem. by destruct (overlaps cw !! (x, y)). Qed.

Lemma set_remove_fueled w s : set_remove w s ≠ OutOfFuel.
Proof. unfold set_remove. by case_decide. Qed.

Lemma set_pop_fueled s : set_pop s ≠ OutOfFuel.
Proof. by destruct s. Qed.

Lemma compatible_fueled overlap w w' : compatible overlap w w' ≠ OutOfFuel.
Proof.
  unfold compatible, subscript0, subscript1, str_index.
  destruct overlap as [[ix iy]|]; simpl; [|done].
  destruct (String.get ix w); simpl; [|done].
  by destruct (String.get iy w').
Qed.

Create HintDb fueled.

#[local] Hint Resolve getitem_fueled overlaps_getitem_fueled set_remove_fueled
  set_pop_fueled compatible_fueled : fueled.

Lemma count_options_fueled overlap w ydom n :
  count_options overlap w ydom n ≠ OutOfFuel.
Proof.
  revert n. induction ydom as [|w' ydom IH]; intros n; simpl; [done|].
  apply bind_fueled; auto with fueled.
Qed.

Lemma revise_loop_fueled overlap (d : Domains) y xdom cpy revised :
  revise_loop overlap d y xdom cpy revised ≠ OutOfFuel.
Proof.
  revert cpy revised. induction xdom as [|w xdom IH]; intros cpy revised;
    simpl; [done|].
  apply bind_fueled; [auto with fueled|]. intros ydom _.
  apply bind_fueled; [apply count_options_fueled|]. intros k _.
  case_decide; [|done].
  apply bind_fueled; auto with fueled.
Qed.

Lemma revise_fueled cw x y (d : Domains) : revise cw x y d ≠ OutOfFuel.
Proof.
  unfold revise.
  apply bind_fueled; [auto with fueled|]. intros ov _.
  apply bind_fueled; [auto with fueled|]. intros xdom _.
  apply bind_fueled; [apply revise_loop_fueled|]. by intros [? ?] _.
Qed.

(** ** AC-3 terminates *)

Lemma dom_total_insert (d : Domains) x xdom l :
  d !! x = Some xdom →
  (dom_total (<[x := l]> d) + List.length xdom
   = dom_total d + List.length l)%nat.
Proof.
  intros Hx. unfold dom_total.
  rewrite (map_fold_delete_L _ _ x xdom d); [|intros; lia|done].
  rewrite <- (insert_delete_eq d x l).
  rewrite map_fold_insert_L; [lia|intros; lia|apply lookup_delete_eq].
Qed.

Lemma length_push_arcs x zs arcs :
  List.length (push_arcs x zs arcs) = (List.length zs + List.length arcs)%nat.
Proof.
  unfold push_arcs. revert arcs.
  induction zs as [|z zs IH]; intros arcs; simpl; [done|].
  rewrite IH. simpl. lia.
Qed.

Lemma length_neighbors cw x :
  (List.length (neighbors cw x) ≤ List.length (variables cw))%nat.
Proof. unfold neighbors. apply length_filter. Qed.

Lemma var_set_remove_Ok y s s' :
  var_set_remove y s = Ok s' ↔ y ∈ s ∧ s' = filter (λ z, z ≠ y) s.
Proof.
  unfold var_set_remove. case_decide; split; try intros [? ?]; try congruence;
    try done.
  split; [done | congruence].
Qed.

(** The loop of [ac3] ends within [ac3_fuel] turns, whatever it returns. *)
Lemma ac3_loop_fueled cw fuel arcs (d : Domains) :
  (ac3_fuel cw arcs d ≤ fuel)%nat → ac3_loop cw fuel arcs d ≠ OutOfFuel.
Proof.
  unfold ac3_fuel. revert arcs d.
  induction fuel as [|fuel IH]; intros arcs d Hfuel.
  - destruct arcs as [|[x y] arcs]; [done|]. simpl in Hfuel. lia.
  - destruct arcs as [|[x y] arcs]; [done|]. simpl.
    apply bind_fueled; [apply revise_fueled|]. intros [revised d'] Hrev.
    apply revise_Ok in Hrev as (ov & xdom & _ & Hx & Hd & Hf & Ht).
    simpl in Hd, Hf, Hf.
    pose proof (dom_total_insert d x xdom
      (filter (supported ov (default [] (d !! y))) xdom) Hx) as Htot.
    rewrite <- Hd in Htot. simpl in Hfuel.
    destruct revised.
    + apply bind_fueled; [auto with fueled|]. intros xd _.
      case_decide; [done|].
      apply bind_fueled; [unfold var_set_remove; by case_decide|].
      intros zs [_ ->]%var_set_remove_Ok.
      apply IH. rewrite length_push_arcs.
      specialize (Ht eq_refl).
      pose proof (length_filter (λ z, z ≠ y) (neighbors cw x)).
      pose proof (length_neighbors cw x).
      nia.
    + apply IH. rewrite Hf in Htot by done. nia.
Qed.

Lemma ac3_fueled cw arcs (d : Domains) : ac3 cw arcs d ≠ OutOfFuel.
Proof.
  unfold ac3. apply ac3_loop_fueled. unfold ac3_fuel.
  by rewrite length_reverse.
Qed.

(** ** The queue of AC-3 *)

Lemma elem_of_neighbors cw x v :
  v ∈ neighbors cw x ↔
  v ∈ variables cw ∧ v ≠ x ∧ ∃ p, overlaps cw !! (v, x) = Some (Some p).
Proof.
  unfold neighbors. rewrite list_elem_of_filter.
  split.
  - intros [[Hne [p Hp]] Hv]. split; [done|]. split; [done|]. exists p.
    destruct (overlaps cw !! (v, x)) as [[q|]|]; simpl in Hp; congruence.
  - intros (Hv & Hne & p & Hp). split; [|done]. split; [done|].
    rewrite Hp. simpl. eauto.
Qed.

Lemma elem_of_all_arcs cw x y :
  (x, y) ∈ all_arcs cw ↔ x ∈ variables cw ∧ y ∈ neighbors cw x.
Proof.
  unfold all_arcs. rewrite list_elem_of_bind. split.
  - intros (x' & Hin & Hx'). apply list_elem_of_bind in Hin as (y' & Hin & Hy').
    apply list_elem_of_singleton in Hin. by injection Hin as -> ->.
  - intros [Hx Hy]. exists x. split; [|done].
    apply list_elem_of_bind. exists y. split; [|done]. by left.
Qed.

Lemma push_arcs_spec x zs arcs :
  push_arcs x zs arcs = (reverse ((λ z, (z, x)) <$> zs) ++ arcs)%list.
Proof.
  unfold push_arcs. revert arcs.
  induction zs as [|z zs IH]; intros arcs; simpl; [done|].
  rewrite IH, reverse_cons. by rewrite <- app_assoc.
Qed.

Lemma elem_of_push_arcs x zs arcs a :
  a ∈ push_arcs x zs arcs ↔ (∃ z, z ∈ zs ∧ a = (z, x)) ∨ a ∈ arcs.
Proof.
  rewrite push_arcs_spec, elem_of_app, elem_of_reverse, list_elem_of_fmap.
  split; (intros [(z & ? & ?)|?]; [left; exists z | right]); done.
Qed.

(** C7.  One turn of the queue of [ac3]: the arc [(x, y)] on top is
    popped and [revise(x, y)] is run; if it revised and [x]'s domain is
    now empty the result is false at once; if it revised and the domain is
    not empty, exactly the arcs [(z, x)] for the neighbors [z] of [x]
    other than [y] are added to the rest of the queue; if it did not
    revise the rest of the queue is processed as it is.  With an empty
    queue the result is true, the queue built when no arcs are given
    holds exactly the ordered pairs of neighboring variables, and the loop
    always comes to an end. *)
Theorem ac3_queue_step cw fuel x y arcs (d : Domains) revised d' :
  revise cw x y d = Ok (revised, d') →
  y ∈ neighbors cw x →
  let zs := filter (λ z, z ≠ y) (neighbors cw x) in
  ac3_loop cw (S fuel) ((x, y) :: arcs) d
  = (if revised then
       if decide (d' !! x = Some []) then Ok (false, d')
       else ac3_loop cw fuel (push_arcs x zs arcs) d'
     else ac3_loop cw fuel arcs d')
  ∧ push_arcs x zs arcs ≡ₚ (((λ z, (z, x)) <$> zs) ++ arcs)%list
  ∧ (∀ z, z ∈ zs ↔ z ∈ neighbors cw x ∧ z ≠ y)
  ∧ (∀ d0 : Domains, ac3_loop cw fuel [] d0 = Ok (true, d0))
  ∧ (∀ d0 : Domains,
       ac3 cw None d0
       = ac3_loop cw (ac3_fuel cw (all_arcs cw) d0) (reverse (all_arcs cw)) d0)
  ∧ (∀ a b, (a, b) ∈ all_arcs cw ↔ a ∈ variables cw ∧ b ∈ neighbors cw a)
  ∧ (∀ arcs0 (d0 : Domains), ac3 cw arcs0 d0 ≠ OutOfFuel).
Proof.
  intros Hrev Hy zs. split; [|split; [|split; [|split; [|split; [|split]]]]].
  - simpl. rewrite Hrev. simpl.
    destruct revised; [|done].
    apply revise_Ok in Hrev as (ov & xdom & _ & Hx & Hd & _). simpl in Hd.
    assert (d' !! x = Some (filter (supported ov (default [] (d !! y))) xdom))
      as Hx' by (rewrite Hd; apply lookup_insert_eq).
    unfold getitem. rewrite Hx'. simpl.
    destruct (filter (supported ov (default [] (d !! y))) xdom) as [|w l].
    + by rewrite decide_True, decide_True.
    + rewrite decide_False, decide_False by done.
      unfold var_set_remove. by rewrite decide_True.
  - rewrite push_arcs_spec. apply Permutation_app_tail.
    apply reverse_Permutation.
  - intros z. unfold zs. rewrite list_elem_of_filter. tauto.
  - by destruct fuel.
  - done.
  - apply elem_of_all_arcs.
  - apply ac3_fueled.
Qed.

(** ** Arc consistency *)

Lemma is_option_inv overlap w w' :
  is_option overlap w w' →
  ∃ ix iy c, overlap = Some (ix, iy) ∧ String.get ix w = Some c
             ∧ String.get iy w' = Some c ∧ w ≠ w'.
Proof.
  unfold is_option, compatible, subscript0, subscript1, str_index.
  destruct overlap as [[ix iy]|]; simpl; [|done].
  destruct (String.get ix w) as [a|] eqn:Ha; simpl; [|done].
  destruct (String.get iy w') as [b|] eqn:Hb; simpl; [|done].
  intros [= H]. apply andb_true_iff in H as [H1 H2].
  apply bool_decide_eq_true in H1 as ->. apply bool_decide_eq_true in H2.
  by exists ix, iy, b.
Qed.

Lemma is_option_sym i j w w' :
  is_option (Some (i, j)) w w' → is_option (Some (j, i)) w' w.
Proof.
  intros (ix & iy & c & [= <- <-] & Hw & Hw' & Hne)%is_option_inv.
  unfold is_option, compatible, str_index. simpl. rewrite Hw'. simpl.
  rewrite Hw. simpl. f_equal. apply andb_true_iff.
  split; by apply bool_decide_eq_true.
Qed.

Lemma filter_fixed {A} (P : A → Prop) `{∀ x, Decision (P x)} (l : list A) x :
  filter P l = l → x ∈ l → P x.
Proof. intros Heq Hx. rewrite <- Heq in Hx. by apply list_elem_of_filter in Hx as [? _]. Qed.

(** The invariant of AC-3: an arc of the problem that is not waiting in
    the queue is consistent. *)
Lemma ac3_loop_sound cw fuel arcs (d d' : Domains) :
  symmetric_overlaps cw →
  ac3_loop cw fuel arcs d = Ok (true, d') →
  (∀ x y, (x, y) ∈ all_arcs cw → (x, y) ∈ arcs ∨ arc_consistent cw d x y) →
  ∀ x y, (x, y) ∈ all_arcs cw → arc_consistent cw d' x y.
Proof.
  intros Hsym. revert arcs d.
  induction fuel as [|fuel IH]; intros arcs d Hrun Hinv.
  { destruct arcs as [|[x y] arcs]; [|done]. injection Hrun as <-.
    intros x y Hxy. destruct (Hinv x y Hxy) as [Hin|]; [|done].
    by apply elem_of_nil in Hin. }
  destruct arcs as [|[x y] arcs].
  { injection Hrun as <-.
    intros x y Hxy. destruct (Hinv x y Hxy) as [Hin|]; [|done].
    by apply elem_of_nil in Hin. }
  simpl in Hrun. inv_bind Hrun. destruct r as [revised d1].
  apply revise_Ok in Hrun0 as (ov & xdom & Hov & Hx & Hd & Hf & Ht).
  simpl in Hd, Hf, Ht.
  set (ydom := default [] (d !! y)) in *.
  set (xdom' := filter (supported ov ydom) xdom) in *.
  (* the popped arc is consistent after the revision *)
  assert (x ≠ y → arc_consistent cw d1 x y) as Hpop.
  { intros Hne w. rewrite Hd, lookup_insert_eq, lookup_insert_ne, Hov by done.
    simpl. intros Hw. by apply list_elem_of_filter in Hw as [? _]. }
  (* arcs that do not end in [x] stay consistent *)
  assert (∀ a b, b ≠ x → arc_consistent cw d a b → arc_consistent cw d1 a b)
    as Hkeep.
  { intros a b Hb Hab w. rewrite Hd, (lookup_insert_ne _ x b) by done.
    destruct (decide (a = x)) as [->|Ha].
    - rewrite lookup_insert_eq. simpl. intros Hw. apply Hab.
      rewrite Hx. simpl. by apply list_elem_of_filter in Hw as [_ ?].
    - rewrite lookup_insert_ne by done. apply Hab. }
  (* the reverse of the popped arc stays consistent *)
  assert ((y, x) ∈ all_arcs cw → arc_consistent cw d y x →
          arc_consistent cw d1 y x) as Hback.
  { intros Hyx Hc w'.
    apply elem_of_all_arcs in Hyx as [_ Hn].
    apply elem_of_neighbors in Hn as (_ & Hne & [i j] & Hxy).
    rewrite Hov in Hxy. injection Hxy as ->.
    pose proof (Hsym _ _ _ _ Hov) as Hyx.
    rewrite Hd, lookup_insert_ne, lookup_insert_eq, Hyx by done. simpl.
    intros Hw'. specialize (Hc w' Hw'). rewrite Hyx, Hx in Hc. simpl in Hc.
    unfold supported in *. apply Exists_exists in Hc as (w & Hw & Ho).
    apply Exists_exists. exists w. split; [|done].
    apply list_elem_of_filter. split; [|done].
    apply Exists_exists. exists w'. split; [done|]. by apply is_option_sym. }
  destruct revised.
  - inv_bind Hrun. case_decide; [done|].
    inv_bind Hrun. apply var_set_remove_Ok in Hrun1 as [Hy ->].
    apply (IH _ _ Hrun). intros a b Hab.
    destruct (Hinv a b Hab) as [Hin|Hc].
    + apply elem_of_cons in Hin as [[= -> ->]|Hin].
      * right. apply Hpop. apply elem_of_neighbors in Hy as (_ & ? & _). done.
      * left. apply elem_of_push_arcs. by right.
    + destruct (decide (b = x)) as [->|Hb]; [|right; by apply Hkeep].
      destruct (decide (a = y)) as [->|Ha]; [right; by apply Hback|].
      left. apply elem_of_push_arcs. left. exists a. split; [|done].
      apply list_elem_of_filter. split; [done|].
      apply elem_of_all_arcs in Hab as [Hav Hn].
      apply elem_of_neighbors in Hn as (_ & Hne & [i j] & Hxa).
      apply elem_of_neighbors. split; [done|]. split; [done|].
      exists (j, i). by apply Hsym.
  - assert (d1 = d) as ->.
    { rewrite Hd, Hf by done. by apply insert_id. }
    apply (IH _ _ Hrun). intros a b Hab.
    destruct (Hinv a b Hab) as [Hin|Hc]; [|by right].
    apply elem_of_cons in Hin as [[= -> ->]|Hin]; [|by left].
    right. apply Hpop.
    apply elem_of_all_arcs in Hab as [_ Hn].
    apply elem_of_neighbors in Hn as (_ & ? & _). done.
Qed.

Lemma symmetric_overlapsb_sound cw :
  symmetric_overlapsb cw = true → symmetric_overlaps cw.
Proof.
  unfold symmetric_overlapsb. rewrite forallb_forall.
  intros Hall x y i j Hxy.
  apply elem_of_map_to_list, list_elem_of_In, Hall in Hxy. simpl in Hxy.
  by apply bool_decide_eq_true in Hxy.
Qed.

(** C8, as the code has it.  When [ac3] is started on the queue of all
    the arcs ([arcs] is [None]) of a puzzle whose overlap table is
    symmetric and returns true, then for every variable [x], every
    neighbor [y] of [x] and every word left in [x]'s domain, some word
    left in [y]'s domain carries the same letter at the overlap offsets
    and is a different word. *)
Theorem ac3_all_arcs_sound cw (d d' : Domains) :
  symmetric_overlaps cw →
  ac3 cw None d = Ok (true, d') →
  ∀ x y xdom w,
    x ∈ variables cw → y ∈ neighbors cw x →
    d' !! x = Some xdom → w ∈ xdom →
    ∃ ydom w' ix iy c,
      d' !! y = Some ydom ∧ w' ∈ ydom
      ∧ overlaps cw !! (x, y) = Some (Some (ix, iy))
      ∧ String.get ix w = Some c ∧ String.get iy w' = Some c ∧ w ≠ w'.
Proof.
  intros Hsym Hrun x y xdom w Hx Hy Hdx Hw.
  assert (arc_consistent cw d' x y) as Hc.
  { eapply (ac3_loop_sound cw _ _ d d' Hsym Hrun).
    - intros a b Hab. left. by apply elem_of_reverse.
    - by apply elem_of_all_arcs. }
  specialize (Hc w). rewrite Hdx in Hc. specialize (Hc Hw).
  apply Exists_exists in Hc as (w' & Hw' & Ho).
  apply is_option_inv in Ho as (ix & iy & c & Hov & Hgw & Hgw' & Hne).
  destruct (d' !! y) as [ydom|] eqn:Hdy; [|by apply elem_of_nil in Hw'].
  exists ydom, w', ix, iy, c. repeat split; try done.
  destruct (overlaps cw !! (x, y)) as [[p|]|]; simpl in Hov; congruence.
Qed.

Lemma ac3_all_arcs_sound_witness :
  symmetric_overlaps cross_puzzle
  ∧ (∃ d', ac3 cross_puzzle None
             (enforce_node_consistency (init_domains cross_puzzle))
           = Ok (true, d')
     ∧ ∀ x y xdom w,
         x ∈ variables cross_puzzle → y ∈ neighbors cross_puzzle x →
         d' !! x = Some xdom → w ∈ xdom →
         ∃ ydom w' ix iy c,
           d' !! y = Some ydom ∧ w' ∈ ydom
           ∧ overlaps cross_puzzle !! (x, y) = Some (Some (ix, iy))
           ∧ String.get ix w = Some c ∧ String.get iy w' = Some c ∧ w ≠ w').
Proof.
  assert (symmetric_overlaps cross_puzzle) as Hsym
    by (apply symmetric_overlapsb_sound; vm_compute; reflexivity).
  split; [exact Hsym|].
  eexists. split; [vm_compute; reflexivity|].
  apply (ac3_all_arcs_sound cross_puzzle
           (enforce_node_consistency (init_domains cross_puzzle)) _ Hsym).
  vm_compute; reflexivity.
Defined.

(** C8, as stated: a call of [ac3] seeded with arcs, as [backtrack]
    makes it, returns true although a word of a domain has no option in
    the domain of a neighbor.  In [cross_puzzle] the slot [u] was
    assigned at the root and its domain emptied; the call for the first
    candidate of [z] returns true and leaves both words of [z] without
    any option in the domain of [u]. *)
Lemma ac3_seeded_not_sound :
  ac3 cross_puzzle (Some [(slot_u, slot_z)]) cross_domains
  = Ok (true, cross_domains)
  ∧ slot_u ∈ neighbors cross_puzzle slot_z
  ∧ cross_domains !! slot_z = Some ["AAP"; "AOP"]
  ∧ cross_domains !! slot_u = Some []
  ∧ ¬ arc_consistent cross_puzzle cross_domains slot_z slot_u.
Proof.
  split; [vm_compute; reflexivity|].
  split; [apply (bool_decide_unpack _); vm_compute; exact I|].
  split; [vm_compute; reflexivity|].
  split; [vm_compute; reflexivity|].
  intros Hc.
  assert (cross_domains !! slot_z = Some ["AAP"; "AOP"]) as Hz
    by (vm_compute; reflexivity).
  assert (cross_domains !! slot_u = Some []) as Hu
    by (vm_compute; reflexivity).
  assert ("AAP" ∈ default [] (cross_domains !! slot_z)) as Hin
    by (rewrite Hz; left).
  specialize (Hc "AAP" Hin). rewrite Hu in Hc. simpl in Hc.
  by apply Exists_nil in Hc.
Qed.

(** ** Variable selection *)

Lemma select_loop_spec cw (d : Domains) (a : Assignment) vars :
  (∀ v, v ∈ vars → unassigned a v → is_Some (d !! v)) →
  ∀ seen min_dom_vals selected_var,
    select_inv cw d a seen min_dom_vals selected_var →
    ∃ min' sel',
      select_loop cw d a vars min_dom_vals selected_var = Ok sel'
      ∧ select_inv cw d a (seen ++ vars) min' sel'.
Proof.
  induction vars as [|var vars IH]; intros Hdom seen m s Hinv.
  { exists m, s. by rewrite app_nil_r. }
  assert (∀ v, v ∈ vars → unassigned a v → is_Some (d !! v)) as Hdom'
    by (intros v Hv; apply Hdom; by right).
  specialize (IH Hdom' (seen ++ [var])).
  rewrite <- app_assoc in IH. simpl in IH. simpl.
  destruct (a !! var) as [[w|]|] eqn:Hvar.
  - (* assigned *)
    apply IH. unfold select_inv, unassigned in *.
    destruct m as [n|], s as [s|]; try done.
    + destruct Hinv as (Hs & Hu & Hn & Hall).
      split; [apply elem_of_app; by left|]. split; [done|]. split; [done|].
      intros v [Hv|Hv%list_elem_of_singleton]%elem_of_app Huv; [by apply Hall|].
      congruence.
    + intros v [Hv|Hv%list_elem_of_singleton]%elem_of_app; [by apply Hinv|].
      congruence.
  - (* unassigned *)
    destruct (Hdom var) as [ws Hws]; [by left|done|].
    unfold getitem. rewrite Hws. simpl.
    assert (domain_size d var = List.length ws) as Hsz
      by (unfold domain_size; by rewrite Hws).
    destruct (below (List.length ws) m) eqn:Hbelow.
    + apply IH. unfold select_inv.
      split; [apply elem_of_app; right; by left|].
      split; [done|]. split; [done|].
      intros v [Hv|Hv%list_elem_of_singleton]%elem_of_app Huv.
      * unfold select_inv in Hinv. destruct m as [n|], s as [s|]; try done.
        -- destruct Hinv as (_ & _ & _ & Hall).
           destruct (Hall v Hv Huv) as [Hle _].
           simpl in Hbelow. apply bool_decide_eq_true in Hbelow. lia.
        -- by destruct (Hinv v Hv).
      * subst v. rewrite Hsz. lia.
    + unfold select_inv in Hinv.
      destruct m as [n|]; [|done]. destruct s as [s|]; [|done].
      destruct Hinv as (Hs & Hu & Hn & Hall).
      simpl in Hbelow. apply bool_decide_eq_false in Hbelow.
      case_bool_decide as Heq.
      * injection Heq as Heq.
        case_bool_decide as Hdeg.
        -- apply IH. unfold select_inv.
           split; [apply elem_of_app; right; by left|].
           split; [done|]. split; [done|].
           intros v [Hv|Hv%list_elem_of_singleton]%elem_of_app Huv.
           ++ destruct (Hall v Hv Huv) as [Hle Htie].
              split; [lia|]. intros Hv'. unfold degree in *.
              specialize (Htie ltac:(lia)). lia.
           ++ subst v. rewrite Hsz. lia.
        -- apply IH. unfold select_inv.
           split; [apply elem_of_app; by left|].
           split; [done|]. split; [done|].
           intros v [Hv|Hv%list_elem_of_singleton]%elem_of_app Huv;
             [by apply Hall|].
           subst v. rewrite Hsz. split; [lia|]. intros _.
           unfold degree. lia.
      * apply IH. unfold select_inv.
        split; [apply elem_of_app; by left|].
        split; [done|]. split; [done|].
        intros v [Hv|Hv%list_elem_of_singleton]%elem_of_app Huv;
          [by apply Hall|].
        subst v. rewrite Hsz. split; [lia|]. intros Hn'.
        exfalso. apply Heq. f_equal. lia.
  - (* not a key *)
    apply IH. unfold select_inv, unassigned in *.
    destruct m as [n|], s as [s|]; try done.
    + destruct Hinv as (Hs & Hu & Hn & Hall).
      split; [apply elem_of_app; by left|]. split; [done|]. split; [done|].
      intros v [Hv|Hv%list_elem_of_singleton]%elem_of_app Huv; [by apply Hall|].
      congruence.
    + intros v [Hv|Hv%list_elem_of_singleton]%elem_of_app; [by apply Hinv|].
      congruence.
Qed.

(** The variable selected has the fewest remaining values and, among
    those, the most neighbors. *)
Lemma select_unassigned_variable_best cw (d : Domains) (a : Assignment) :
  (∃ v, v ∈ variables cw ∧ unassigned a v) →
  (∀ v, v ∈ variables cw → unassigned a v → is_Some (d !! v)) →
  ∃ var,
    select_unassigned_variable cw d a = Ok var
    ∧ var ∈ variables cw ∧ unassigned a var
    ∧ ∀ v, v ∈ variables cw → unassigned a v →
        (domain_size d var ≤ domain_size d v)%nat ∧
        (domain_size d v = domain_size d var →
         (degree cw v ≤ degree cw var)%nat).
Proof.
  intros (v0 & Hv0 & Hu0) Hdom.
  destruct (select_loop_spec cw d a (variables cw) Hdom [] None None)
    as (m & s & Hrun & Hinv).
  { intros v Hv. by apply elem_of_nil in Hv. }
  simpl in Hinv. unfold select_unassigned_variable. rewrite Hrun. simpl.
  unfold select_inv in Hinv. destruct m as [n|], s as [s|]; try done.
  - destruct Hinv as (Hs & Hu & -> & Hall). exists s. eauto.
  - by destruct (Hinv v0 Hv0).
Qed.

(** C9.  On an assignment that leaves a variable unassigned,
    [select_unassigned_variable] returns an unassigned variable whose
    domain is no larger than the domain of any unassigned variable and,
    among the unassigned variables with a domain of that size, has the
    most neighbors. *)
Theorem select_unassigned_variable_spec cw (d : Domains) (a : Assignment) :
  (∃ v, v ∈ variables cw ∧ unassigned a v) →
  (∀ v, v ∈ variables cw → unassigned a v → is_Some (d !! v)) →
  ∃ var,
    select_unassigned_variable cw d a = Ok var
    ∧ var ∈ variables cw ∧ unassigned a var
    ∧ ∀ v, v ∈ variables cw → unassigned a v →
        (domain_size d var ≤ domain_size d v)%nat ∧
        (domain_size d v = domain_size d var →
         (degree cw v ≤ degree cw var)%nat).
Proof. apply select_unassigned_variable_best. Qed.

Lemma select_unassigned_variable_spec_witness :
  (∃ v, v ∈ variables chain_puzzle_1
        ∧ unassigned (empty_assignment chain_puzzle_1) v)
  ∧ ∃ var,
      select_unassigned_variable chain_puzzle_1
        (enforce_node_consistency (init_domains chain_puzzle_1))
        (empty_assignment chain_puzzle_1) = Ok var
      ∧ var ∈ variables chain_puzzle_1
      ∧ unassigned (empty_assignment chain_puzzle_1) var
      ∧ ∀ v, v ∈ variables chain_puzzle_1 →
             unassigned (empty_assignment chain_puzzle_1) v →
          (domain_size (enforce_node_consistency (init_domains chain_puzzle_1)) var
           ≤ domain_size (enforce_node_consistency (init_domains chain_puzzle_1)) v)%nat
          ∧ (domain_size (enforce_node_consistency (init_domains chain_puzzle_1)) v
             = domain_size (enforce_node_consistency (init_domains chain_puzzle_1)) var →
             (degree chain_puzzle_1 v ≤ degree chain_puzzle_1 var)%nat).
Proof.
  assert (∃ v, v ∈ variables chain_puzzle_1
               ∧ unassigned (empty_assignment chain_puzzle_1) v) as Hex.
  { exists slot_u. split; [left | vm_compute; reflexivity]. }
  split; [exact Hex|].
  apply (select_unassigned_variable_spec chain_puzzle_1 _ _ Hex).
  intros v Hv _. simpl in Hv.
  repeat (apply elem_of_cons in Hv as [->|Hv]; [vm_compute; eauto|]).
  by apply elem_of_nil in Hv.
Defined.

(** ** Forced assignments *)

Lemma assign_singletons_spec vars (a : Assignment) (d : Domains) a' d' :
  assign_singletons vars (a, d) = Ok (a', d') →
  ∀ var,
    (a' !! var = a !! var ∧ d' !! var = d !! var)
    ∨ (∃ w, d !! var = Some [w] ∧ a' !! var = Some (Some w)
            ∧ d' !! var = Some []).
Proof.
  revert a d. induction vars as [|h vars IH]; intros a d Hrun var;
    simpl in Hrun.
  { injection Hrun as <- <-. by left. }
  inv_bind Hrun. apply getitem_Ok in Hrun0. rename r into ws.
  case_decide as Hlen; [|by apply IH].
  destruct ws as [|w [|? ?]]; try done. simpl in Hrun.
  destruct (IH _ _ Hrun var) as [[Ha Hd]|(w' & Hd & Ha & Hd')].
  - destruct (decide (var = h)) as [->|Hne].
    + right. exists w. rewrite lookup_insert_eq in Ha. rewrite lookup_insert_eq in Hd.
      done.
    + left. rewrite lookup_insert_ne in Ha by done.
      by rewrite lookup_insert_ne in Hd.
  - destruct (decide (var = h)) as [->|Hne].
    + by rewrite lookup_insert_eq in Hd.
    + right. exists w'. by rewrite lookup_insert_ne in Hd.
Qed.

Lemma apply_inferences_spec vars (a : Assignment) (d : Domains) a' d' :
  apply_inferences vars (a, d) = Ok (a', d') →
  ∀ var,
    (a' !! var = a !! var ∧ d' !! var = d !! var)
    ∨ (∃ w, unassigned a var ∧ d !! var = Some [w]
            ∧ a' !! var = Some (Some w) ∧ d' !! var = Some []).
Proof.
  revert a d. induction vars as [|h vars IH]; intros a d Hrun var;
    simpl in Hrun.
  { injection Hrun as <- <-. by left. }
  destruct (a !! h) as [[wh|]|] eqn:Hh; try by apply IH.
  inv_bind Hrun. apply getitem_Ok in Hrun0. rename r into ws.
  case_decide as Hlen; [|by apply IH].
  destruct ws as [|w [|? ?]]; try done. simpl in Hrun.
  destruct (IH _ _ Hrun var) as [[Ha Hd]|(w' & Hu & Hd & Ha & Hd')].
  - destruct (decide (var = h)) as [->|Hne].
    + right. exists w. rewrite lookup_insert_eq in Ha. rewrite lookup_insert_eq in Hd.
      done.
    + left. rewrite lookup_insert_ne in Ha by done.
      by rewrite lookup_insert_ne in Hd.
  - destruct (decide (var = h)) as [->|Hne].
    + by rewrite lookup_insert_eq in Hd.
    + right. exists w'. unfold unassigned in *.
      rewrite lookup_insert_ne in Hd by done.
      by rewrite lookup_insert_ne in Hu.
Qed.

(** C10.  A variable that [backtrack] assigns by forced inference, at
    the root (lines 270-272) or after a propagation (lines 294-296), held
    exactly one word in its domain, is assigned that word, and the [pop]
    that reads the word leaves its domain empty: the domain no longer
    holds the assigned word. *)
Theorem forced_assignment_empties_domain vars (a : Assignment) (d : Domains)
    a' d' var :
  assign_singletons vars (a, d) = Ok (a', d')
  ∨ apply_inferences vars (a, d) = Ok (a', d') →
  a' !! var ≠ a !! var →
  ∃ w, d !! var = Some [w] ∧ a' !! var = Some (Some w)
       ∧ d' !! var = Some [] ∧ w ∉ default [] (d' !! var).
Proof.
  intros [Hrun|Hrun] Hne.
  - destruct (assign_singletons_spec _ _ _ _ _ Hrun var)
      as [[Ha _]|(w & Hd & Ha & Hd')]; [done|].
    exists w. rewrite Hd'. repeat split; try done. apply not_elem_of_nil.
  - destruct (apply_inferences_spec _ _ _ _ _ Hrun var)
      as [[Ha _]|(w & _ & Hd & Ha & Hd')]; [done|].
    exists w. rewrite Hd'. repeat split; try done. apply not_elem_of_nil.
Qed.

Lemma forced_assignment_empties_domain_witness :
  let d := enforce_node_consistency (init_domains cross_puzzle) in
  let a := empty_assignment cross_puzzle in
  ∃ a' d',
    assign_singletons (variables cross_puzzle) (a, d) = Ok (a', d')
    ∧ a' !! slot_u ≠ a !! slot_u
    ∧ ∃ w, d !! slot_u = Some [w] ∧ a' !! slot_u = Some (Some w)
           ∧ d' !! slot_u = Some [] ∧ w ∉ default [] (d' !! slot_u).
Proof.
  intros d a.
  destruct (assign_singletons (variables cross_puzzle) (a, d))
    as [[a' d']| |] eqn:Hrun; [|vm_compute in Hrun; discriminate..].
  assert (a' !! slot_u ≠ a !! slot_u) as Hne.
  { vm_compute in Hrun. injection Hrun as <- <-. vm_compute. discriminate. }
  exists a', d'. split; [done|]. split; [done|].
  apply (forced_assignment_empties_domain (variables cross_puzzle) a d a' d');
    [by left | done].
Defined.

(** ** Well-formed puzzles and stores *)

Lemma overlaps_in_boundsb_sound cw :
  overlaps_in_boundsb cw = true → overlaps_in_bounds cw.
Proof.
  unfold overlaps_in_boundsb. rewrite forallb_forall.
  intros Hall x y i j Hxy.
  apply elem_of_map_to_list, list_elem_of_In, Hall in Hxy. simpl in Hxy.
  apply andb_true_iff in Hxy as [H1 H2].
  apply bool_decide_eq_true in H1. apply bool_decide_eq_true in H2. done.
Qed.

Lemma well_formedb_sound cw : well_formedb cw = true → well_formed cw.
Proof.
  unfold well_formedb. intros [[H1 H2]%andb_true_iff H3]%andb_true_iff.
  split; [by apply bool_decide_eq_true in H1|].
  split; [by apply symmetric_overlapsb_sound | by apply overlaps_in_boundsb_sound].
Qed.

Lemma lookup_init_domains cw v :
  init_domains cw !! v
  = if decide (v ∈ variables cw) then Some (words cw) else None.
Proof.
  unfold init_domains. induction (variables cw) as [|x l IH].
  - rewrite fmap_nil, list_to_map_nil, lookup_empty.
    case_decide as Hin; [by apply elem_of_nil in Hin | done].
  - rewrite fmap_cons, list_to_map_cons.
    destruct (decide (v = x)) as [->|Hne].
    + rewrite lookup_insert_eq. by rewrite decide_True by left.
    + rewrite lookup_insert_ne, IH by done.
      destruct (decide (v ∈ l)) as [Hin|Hin].
      * by rewrite decide_True by (by right).
      * rewrite decide_False; [done|]. by intros [?|?]%elem_of_cons.
Qed.

Lemma lookup_enforce_node_consistency (d : Domains) v :
  enforce_node_consistency d !! v
  = filter (λ word, String.length word = var_length v) <$> d !! v.
Proof.
  unfold enforce_node_consistency. rewrite map_lookup_imap.
  by destruct (d !! v).
Qed.

Lemma store_ok_initial cw :
  NoDup (words cw) → store_ok cw (enforce_node_consistency (init_domains cw)).
Proof.
  intros Hnd. split.
  - intros v Hv. rewrite lookup_enforce_node_consistency, lookup_init_domains.
    rewrite decide_True by done. simpl. eauto.
  - intros v ws. rewrite lookup_enforce_node_consistency, lookup_init_domains.
    case_decide; [|done]. simpl. intros [= <-]. split.
    + by apply NoDup_filter.
    + apply Forall_forall. intros w Hw.
      by apply list_elem_of_filter in Hw as [? _].
Qed.

Lemma shrinks_refl d : shrinks d d.
Proof. intros v ws Hv. by exists ws. Qed.

Lemma shrinks_trans d1 d2 d3 : shrinks d1 d2 → shrinks d2 d3 → shrinks d1 d3.
Proof.
  intros H12 H23 v ws Hv.
  destruct (H12 v ws Hv) as (ws2 & Hv2 & Hs2).
  destruct (H23 v ws2 Hv2) as (ws3 & Hv3 & Hs3).
  exists ws3. split; [done|]. by etrans.
Qed.

Lemma shrinks_empty d d' v : shrinks d d' → d !! v = Some [] → d' !! v = Some [].
Proof.
  intros Hs Hv. destruct (Hs v [] Hv) as (ws' & Hv' & Hsub).
  destruct ws' as [|w ws']; [done|].
  exfalso. eapply not_elem_of_nil, Hsub. left.
Qed.

(** On a well-formed puzzle and a store of words of the right lengths
    [revise] returns, and the store keeps its shape. *)
Lemma revise_store_ok cw x y (d : Domains) :
  well_formed cw → store_ok cw d →
  x ∈ variables cw → y ∈ neighbors cw x →
  ∃ revised d',
    revise cw x y d = Ok (revised, d') ∧ store_ok cw d' ∧ shrinks d d'.
Proof.
  intros (Hnd & Hsym & Hb) [Hkeys Hwords] Hx Hy.
  apply elem_of_neighbors in Hy as (Hyv & Hne & [j i] & Hyx).
  pose proof (Hsym _ _ _ _ Hyx) as Hxy.
  destruct (Hb _ _ _ _ Hxy) as [Hi Hj].
  destruct (Hkeys x Hx) as [xdom Hdx]. destruct (Hkeys y Hyv) as [ydom Hdy].
  destruct (Hwords x xdom Hdx) as [Hndx Hlx].
  destruct (Hwords y ydom Hdy) as [Hndy Hly].
  destruct (revise_total cw x y d (Some (i, j)) xdom ydom) as [revised Hrev];
    [done..| |].
  { eapply Forall_impl; [exact Hlx|]. intros w Hw. simpl in *.
    eapply Forall_impl; [exact Hly|]. intros w' Hw'. simpl in *.
    rewrite compatible_in_bounds; [eauto|lia|lia]. }
  exists revised, (<[x := filter (supported (Some (i, j)) ydom) xdom]> d).
  split; [done|]. split; [split|].
  - intros v Hv. destruct (decide (v = x)) as [->|Hvx].
    + rewrite lookup_insert_eq. eauto.
    + rewrite lookup_insert_ne by done. by apply Hkeys.
  - intros v ws. destruct (decide (v = x)) as [->|Hvx].
    + rewrite lookup_insert_eq. intros [= <-]. split.
      * by apply NoDup_filter.
      * apply Forall_forall. intros w [_ Hw]%list_elem_of_filter.
        by eapply Forall_forall in Hlx.
    + rewrite lookup_insert_ne by done. apply Hwords.
  - intros v ws Hv. destruct (decide (v = x)) as [->|Hvx].
    + rewrite lookup_insert_eq. eexists. split; [done|].
      assert (ws = xdom) as -> by congruence.
      intros w [_ Hw]%list_elem_of_filter. done.
    + rewrite lookup_insert_ne by done. by exists ws.
Qed.

(** On such a store, and with arcs that join neighbors, the loop of
    [ac3] does not raise. *)
Lemma ac3_loop_store_ok cw fuel arcs (d : Domains) :
  well_formed cw → store_ok cw d → valid_arcs cw arcs →
  match ac3_loop cw fuel arcs d with
  | Ok (_, d') => store_ok cw d' ∧ shrinks d d'
  | Raise _ => False
  | OutOfFuel => True
  end.
Proof.
  intros Hwf. revert arcs d.
  induction fuel as [|fuel IH]; intros arcs d Hok Hval.
  { destruct arcs as [|[x y] arcs]; simpl; [|done].
    split; [done | apply shrinks_refl]. }
  destruct arcs as [|[x y] arcs]; simpl.
  { split; [done | apply shrinks_refl]. }
  apply Forall_cons in Hval as [[Hx Hy] Hval]. simpl in Hx, Hy.
  destruct (revise_store_ok cw x y d Hwf Hok Hx Hy)
    as (revised & d1 & -> & Hok1 & Hs1).
  simpl. destruct revised.
  - destruct Hok1 as [Hkeys1 Hwords1].
    destruct (Hkeys1 x Hx) as [xdom1 Hdx1].
    unfold getitem. rewrite Hdx1. simpl.
    case_decide; [done|].
    unfold var_set_remove. rewrite decide_True by done. simpl.
    assert (valid_arcs cw
              (push_arcs x (filter (λ z, z ≠ y) (neighbors cw x)) arcs))
      as Hval1.
    { apply Forall_forall. intros [a b'] Hin.
      apply elem_of_push_arcs in Hin as [(z & Hz & [= -> ->])|Hin].
      - apply list_elem_of_filter in Hz as [_ Hz]. simpl.
        apply elem_of_neighbors in Hz as (Hzv & Hzx & [i j] & Hov).
        split; [done|]. apply elem_of_neighbors.
        split; [done|]. split; [done|]. exists (j, i).
        destruct Hwf as (_ & Hsym & _). by apply Hsym.
      - by eapply Forall_forall in Hval. }
    specialize (IH _ d1 (conj Hkeys1 Hwords1) Hval1).
    destruct (ac3_loop cw fuel _ d1) as [[b d']| |]; [|done..].
    destruct IH as [Hok' Hs']. split; [done|]. by eapply shrinks_trans.
  - specialize (IH arcs d1 Hok1 Hval).
    destruct (ac3_loop cw fuel arcs d1) as [[b d']| |]; [|done..].
    destruct IH as [Hok' Hs']. split; [done|]. by eapply shrinks_trans.
Qed.

Lemma valid_all_arcs cw : valid_arcs cw (all_arcs cw).
Proof.
  apply Forall_forall. intros [x y] Hxy. by apply elem_of_all_arcs in Hxy.
Qed.

Lemma ac3_run_store_ok cw arcs (d : Domains) :
  well_formed cw → store_ok cw d → valid_arcs cw arcs →
  ∃ b d', ac3_loop cw (ac3_fuel cw arcs d) (reverse arcs) d = Ok (b, d')
          ∧ store_ok cw d' ∧ shrinks d d'.
Proof.
  intros Hwf Hok Hval.
  assert (valid_arcs cw (reverse arcs)) as Hval'.
  { unfold valid_arcs in *. rewrite Forall_forall in Hval.
    apply Forall_forall. intros arc Harc. rewrite elem_of_reverse in Harc.
    by apply Hval. }
  pose proof (ac3_loop_store_ok cw (ac3_fuel cw arcs d) (reverse arcs) d
                Hwf Hok Hval') as Hrun.
  assert (ac3_loop cw (ac3_fuel cw arcs d) (reverse arcs) d ≠ OutOfFuel)
    as Hfuel.
  { apply ac3_loop_fueled. unfold ac3_fuel. by rewrite length_reverse. }
  destruct (ac3_loop cw (ac3_fuel cw arcs d) (reverse arcs) d)
    as [[b d']| |]; [|done|by destruct Hfuel].
  by exists b, d'.
Qed.

(** [ac3] returns on them. *)
Lemma ac3_store_ok cw arcs0 (d : Domains) :
  well_formed cw → store_ok cw d →
  valid_arcs cw (from_option id (all_arcs cw) arcs0) →
  ∃ b d', ac3 cw arcs0 d = Ok (b, d') ∧ store_ok cw d' ∧ shrinks d d'.
Proof.
  intros Hwf Hok Hval. unfold ac3.
  destruct arcs0 as [arcs|]; simpl in Hval; by apply ac3_run_store_ok.
Qed.

(** ** A variable without candidates *)

Lemma assign_singletons_total vars (a : Assignment) (d : Domains) :
  (∀ v, v ∈ vars → is_Some (d !! v)) →
  ∃ a' d', assign_singletons vars (a, d) = Ok (a', d').
Proof.
  revert a d. induction vars as [|h vars IH]; intros a d Hkeys; simpl.
  { eauto. }
  destruct (Hkeys h) as [ws Hws]; [left|].
  unfold getitem. rewrite Hws. simpl.
  case_decide as Hlen.
  - destruct ws as [|w ws]; [done|]. simpl. apply IH.
    intros v Hv. destruct (decide (v = h)) as [->|Hne].
    + rewrite lookup_insert_eq. eauto.
    + rewrite lookup_insert_ne by done. apply Hkeys. by right.
  - apply IH. intros v Hv. apply Hkeys. by right.
Qed.

Lemma lookup_empty_assignment cw v :
  v ∈ variables cw → empty_assignment cw !! v = Some None.
Proof.
  unfold empty_assignment. induction (variables cw) as [|x l IH].
  - by intros ?%elem_of_nil.
  - rewrite fmap_cons, list_to_map_cons.
    destruct (decide (v = x)) as [->|Hne].
    + by rewrite lookup_insert_eq.
    + rewrite lookup_insert_ne by done.
      intros [?|?]%elem_of_cons; [done | by apply IH].
Qed.

Lemma assignment_incomplete cw (a : Assignment) v :
  v ∈ variables cw → unassigned a v → assignment_complete cw a = false.
Proof.
  intros Hv Hu. unfold assignment_complete.
  destruct (forallb _ (variables cw)) eqn:Hall; [|done].
  rewrite forallb_forall in Hall.
  apply list_elem_of_In, Hall in Hv. by rewrite Hu in Hv.
Qed.

(** C5.  On a well-formed puzzle, if node consistency leaves some
    variable with an empty domain, [solve] returns the no-solution value
    [None], whether or not the variable has neighbors: [solve] does not
    look at the result of [ac3], but the search selects a variable with
    no candidate and falls through its loop. *)
Theorem solve_empty_domain cw v :
  well_formed cw →
  v ∈ variables cw →
  enforce_node_consistency (init_domains cw) !! v = Some [] →
  solve cw = Ok None.
Proof.
  intros Hwf Hv Hempty.
  pose proof Hwf as (Hnd & _ & _).
  destruct (ac3_store_ok cw None (enforce_node_consistency (init_domains cw))
              Hwf (store_ok_initial cw Hnd) (valid_all_arcs cw))
    as (b & d1 & Hac3 & [Hkeys1 Hwords1] & Hs1).
  pose proof (shrinks_empty _ _ _ Hs1 Hempty) as Hv1.
  destruct (assign_singletons_total (variables cw) (empty_assignment cw) d1
              Hkeys1) as (a & d2 & Hroot).
  pose proof (assign_singletons_spec _ _ _ _ _ Hroot) as Hspec.
  assert (unassigned a v ∧ d2 !! v = Some []) as [Hav Hv2].
  { destruct (Hspec v) as [[Ha Hd]|(w & Hd & _)]; [|congruence].
    unfold unassigned. rewrite Ha, Hd. split; [|done].
    by apply lookup_empty_assignment. }
  assert (∀ u, u ∈ variables cw → is_Some (d2 !! u)) as Hkeys2.
  { intros u Hu. destruct (Hspec u) as [[_ Hd]|(w & _ & _ & Hd)].
    - rewrite Hd. by apply Hkeys1.
    - rewrite Hd. eauto. }
  destruct (select_unassigned_variable_best cw d2 a)
    as (var & Hsel & Hvar & Huvar & Hmin).
  { by exists v. }
  { intros u Hu _. by apply Hkeys2. }
  assert (d2 !! var = Some []) as Hvar2.
  { destruct (Hmin v Hv Hav) as [Hle _].
    unfold domain_size in Hle. rewrite Hv2 in Hle.
    destruct (Hkeys2 var Hvar) as [ws Hws]. rewrite Hws in *. simpl in Hle.
    destruct ws; [done | simpl in Hle; lia]. }
  unfold solve, solve_state. rewrite Hac3. simpl.
  rewrite decide_True by done. rewrite Hroot. simpl.
  rewrite (assignment_incomplete cw a v Hv Hav).
  rewrite Hsel. simpl.
  unfold order_domain_values, getitem. rewrite Hvar2. simpl. done.
Qed.

Lemma solve_empty_domain_witness :
  well_formed short_puzzle
  ∧ slot_z ∈ variables short_puzzle
  ∧ enforce_node_consistency (init_domains short_puzzle) !! slot_z = Some []
  ∧ solve short_puzzle = Ok None.
Proof.
  assert (well_formed short_puzzle) as Hwf
    by (apply well_formedb_sound; vm_compute; reflexivity).
  assert (slot_z ∈ variables short_puzzle) as Hz by (right; left).
  assert (enforce_node_consistency (init_domains short_puzzle) !! slot_z
          = Some []) as He by (vm_compute; reflexivity).
  split; [exact Hwf|]. split; [exact Hz|]. split; [exact He|].
  exact (solve_empty_domain short_puzzle slot_z Hwf Hz He).
Defined.

Lemma ac3_queue_step_witness :
  revise cross_puzzle slot_u slot_z cross_store
  = Ok (true, <[slot_u := ["TA"]]> cross_store)
  ∧ slot_z ∈ neighbors cross_puzzle slot_u
  ∧ ac3_loop cross_puzzle 1 [(slot_u, slot_z)] cross_store
    = Ok (true, <[slot_u := ["TA"]]> cross_store).
Proof.
  assert (revise cross_puzzle slot_u slot_z cross_store
          = Ok (true, <[slot_u := ["TA"]]> cross_store)) as Hrev
    by (vm_compute; reflexivity).
  assert (slot_z ∈ neighbors cross_puzzle slot_u) as Hn
    by (vm_compute; left).
  split; [exact Hrev|]. split; [exact Hn|].
  rewrite (proj1 (ac3_queue_step cross_puzzle 0 slot_u slot_z []
                    cross_store true _ Hrev Hn)).
  vm_compute; reflexivity.
Defined.

(** ** The search *)

(** C1.  [solve] can return an assignment that is complete but not
    consistent.  On [chain_puzzle_1], a well-formed puzzle that has a
    solution, the word "PXXF" is given to [slot_t] by the inference of
    lines 294-296, which does not check it against the word "EAAAA"
    already held by the neighbor [slot_y]: the letters at the overlap are
    [F] and [E]. *)
Theorem solve_returns_inconsistent :
  well_formed chain_puzzle_1
  ∧ solve chain_puzzle_1 = Ok (Some chain_answer_1)
  ∧ assignment_complete chain_puzzle_1 chain_answer_1 = true
  ∧ consistent chain_puzzle_1 chain_answer_1 = Ok false
  ∧ slot_y ∈ neighbors chain_puzzle_1 slot_t
  ∧ overlaps chain_puzzle_1 !! (slot_t, slot_y) = Some (Some (3, 0)%nat)
  ∧ chain_answer_1 !! slot_t = Some (Some "PXXF")
  ∧ chain_answer_1 !! slot_y = Some (Some "EAAAA")
  ∧ consistent chain_puzzle_1 chain_solution = Ok true
  ∧ assignment_complete chain_puzzle_1 chain_solution = true.
Proof.
  split; [apply well_formedb_sound; vm_compute; reflexivity|].
  split; [vm_compute; reflexivity|].
  split; [vm_compute; reflexivity|].
  split; [vm_compute; reflexivity|].
  split; [apply (bool_decide_unpack _); vm_compute; exact I|].
  repeat split; vm_compute; reflexivity.
Qed.

(** C4.  [solve] can raise.  On [chain_puzzle_2], a well-formed puzzle
    that has a solution, the search fails below [slot_z] after a
    propagation has pruned the domain of a slot that is still in a
    candidate loop; line 303 then removes from that domain a word it no
    longer holds, and [set.remove] raises [KeyError]. *)
Theorem solve_raises_KeyError :
  well_formed chain_puzzle_2
  ∧ solve chain_puzzle_2 = Raise KeyError
  ∧ consistent chain_puzzle_2 chain_solution = Ok true
  ∧ assignment_complete chain_puzzle_2 chain_solution = true.
Proof.
  split; [apply well_formedb_sound; vm_compute; reflexivity|].
  repeat split; vm_compute; reflexivity.
Qed.

Lemma consistent_neighbors_true cw (a : Assignment) x x_word ys :
  consistent_neighbors cw a x x_word ys = Ok true →
  ∀ y y_word, y ∈ ys → a !! y = Some (Some y_word) →
    ∃ overlap, overlaps cw !! (x, y) = Some overlap
               ∧ is_option overlap x_word y_word.
Proof.
  induction ys as [|y0 ys IH]; intros Hrun y y_word Hy Hay.
  { by apply elem_of_nil in Hy. }
  simpl in Hrun. inv_bind_as Hrun ay Hget. apply getitem_Ok in Hget.
  apply elem_of_cons in Hy as [->|Hy].
  - rewrite Hay in Hget. injection Hget as <-.
    inv_bind_as Hrun ov Hov. unfold overlaps_getitem in Hov.
    destruct (overlaps cw !! (x, y0)) as [ov'|] eqn:Hov'; [|done].
    injection Hov as <-. inv_bind_as Hrun c Hc.
    destruct c; [|done]. by exists ov'.
  - destruct ay as [w0|]; [|by apply IH].
    inv_bind_as Hrun ov Hov. inv_bind_as Hrun c Hc.
    destruct c; [by apply IH | done].
Qed.

Lemma consistent_loop_true cw (a : Assignment) xs :
  consistent_loop cw a xs = Ok true →
  ∀ x x_word y y_word,
    x ∈ xs → a !! x = Some (Some x_word) →
    y ∈ neighbors cw x → a !! y = Some (Some y_word) →
    ∃ overlap, overlaps cw !! (x, y) = Some overlap
               ∧ is_option overlap x_word y_word.
Proof.
  induction xs as [|x0 xs IH]; intros Hrun x x_word y y_word Hx Hax Hy Hay.
  { by apply elem_of_nil in Hx. }
  simpl in Hrun.
  apply elem_of_cons in Hx as [->|Hx].
  - rewrite Hax in Hrun. inv_bind_as Hrun ok Hok. destruct ok; [|done].
    by eapply consistent_neighbors_true.
  - destruct (a !! x0) as [[w0|]|]; try by eapply IH.
    inv_bind_as Hrun ok Hok. destruct ok; [by eapply IH | done].
Qed.

(** C2, as the code has it.  In an assignment that [consistent]
    accepts, the test every candidate passes before [backtrack] commits
    it, two assigned variables that are neighbors hold different words
    (and the same letter at their overlap).  Variables that share no cell
    are not compared. *)
Theorem consistent_neighbors_distinct cw (a : Assignment) x y x_word y_word :
  consistent cw a = Ok true →
  x ∈ variables cw → y ∈ neighbors cw x →
  a !! x = Some (Some x_word) → a !! y = Some (Some y_word) →
  x_word ≠ y_word
  ∧ ∃ ix iy c, overlaps cw !! (x, y) = Some (Some (ix, iy))
               ∧ String.get ix x_word = Some c
               ∧ String.get iy y_word = Some c.
Proof.
  intros Hc Hx Hy Hax Hay.
  destruct (consistent_loop_true cw a (variables cw) Hc x x_word y y_word)
    as (ov & Hov & Ho); [done..|].
  apply is_option_inv in Ho as (ix & iy & c & -> & Hgx & Hgy & Hne).
  split; [done|]. by exists ix, iy, c.
Qed.

Lemma consistent_neighbors_distinct_witness :
  consistent chain_puzzle_1 chain_solution = Ok true
  ∧ slot_t ∈ variables chain_puzzle_1
  ∧ slot_y ∈ neighbors chain_puzzle_1 slot_t
  ∧ chain_solution !! slot_t = Some (Some "PXXF")
  ∧ chain_solution !! slot_y = Some (Some "FAAAA")
  ∧ "PXXF" ≠ "FAAAA"
  ∧ ∃ ix iy c, overlaps chain_puzzle_1 !! (slot_t, slot_y) = Some (Some (ix, iy))
               ∧ String.get ix "PXXF" = Some c
               ∧ String.get iy "FAAAA" = Some c.
Proof.
  assert (consistent chain_puzzle_1 chain_solution = Ok true) as Hc
    by (vm_compute; reflexivity).
  assert (slot_t ∈ variables chain_puzzle_1) as Ht
    by (apply (bool_decide_unpack _); vm_compute; exact I).
  assert (slot_y ∈ neighbors chain_puzzle_1 slot_t) as Hy
    by (apply (bool_decide_unpack _); vm_compute; exact I).
  assert (chain_solution !! slot_t = Some (Some "PXXF")) as Hat
    by (vm_compute; reflexivity).
  assert (chain_solution !! slot_y = Some (Some "FAAAA")) as Hay
    by (vm_compute; reflexivity).
  split; [exact Hc|]. split; [exact Ht|]. split; [exact Hy|].
  split; [exact Hat|]. split; [exact Hay|].
  exact (consistent_neighbors_distinct chain_puzzle_1 chain_solution
           slot_t slot_y "PXXF" "FAAAA" Hc Ht Hy Hat Hay).
Defined.

(** C2, as stated: [solve] returns an assignment in which two
    variables hold the same word.  The two slots of [parallel_puzzle]
    share no cell, the only word of the vocabulary fits both, and both
    receive it. *)
Lemma solve_returns_duplicate_words :
  solve parallel_puzzle = Ok (Some parallel_answer)
  ∧ slot_top ≠ slot_bottom
  ∧ (slot_bottom ∉ neighbors parallel_puzzle slot_top)
  ∧ parallel_answer !! slot_top = Some (Some "AB")
  ∧ parallel_answer !! slot_bottom = Some (Some "AB").
Proof.
  split; [vm_compute; reflexivity|].
  split; [done|].
  split; [apply (bool_decide_unpack _); vm_compute; exact I|].
  split; vm_compute; reflexivity.
Qed.

Lemma domain_remove_Ok var value (d : Domains) ws :
  d !! var = Some ws → value ∈ ws →
  domain_remove var value d = Ok (<[var := filter (λ w, w ≠ value) ws]> d).
Proof.
  intros Hd Hin. unfold domain_remove, getitem, set_remove.
  rewrite Hd. simpl. by rewrite decide_True.
Qed.

(** C3, as the code has it.  A candidate that makes the tentative
    assignment inconsistent is discarded without a recursive call and
    with the assignment untouched, and line 303 removes it from the
    domain of the variable before the next candidate is tried; a
    candidate that was committed and whose recursive call returned [None]
    is removed by the same line.  The removal is the only effect of the
    turn in the first case, whatever the recursive call would do. *)
Theorem backtrack_loop_removes_candidate cw rec var value values
    (a : Assignment) (d : Domains) ws :
  d !! var = Some ws → value ∈ ws →
  consistent cw (<[var := Some value]> a) = Ok false →
  let d' := <[var := filter (λ w, w ≠ value) ws]> d in
  backtrack_loop cw rec var (value :: values) (a, d)
  = backtrack_loop cw rec var values (a, d')
  ∧ (∀ rec', backtrack_loop cw rec' var [value] (a, d) = Ok (None, (a, d')))
  ∧ d' !! var = Some (filter (λ w, w ≠ value) ws)
  ∧ (value ∉ default [] (d' !! var))
  ∧ ∀ (a0 : Assignment) (d0 : Domains) inferences d1 st1 a2 d2 ws2,
      consistent cw (<[var := Some value]> a0) = Ok true →
      ac3 cw (Some ((λ y, (y, var)) <$> neighbors cw var)) d0
      = Ok (inferences, d1) →
      (if inferences : bool
       then apply_inferences (variables cw) (<[var := Some value]> a0, d1)
       else Ok (<[var := Some value]> a0, d1)) = Ok st1 →
      rec st1 = Ok (None, (a2, d2)) →
      d2 !! var = Some ws2 → value ∈ ws2 →
      backtrack_loop cw rec var (value :: values) (a0, d0)
      = backtrack_loop cw rec var values
          (a2, <[var := filter (λ w, w ≠ value) ws2]> d2).
Proof.
  intros Hd Hin Hc d'.
  split; [|split; [|split; [|split]]].
  - simpl. rewrite Hc. simpl. by rewrite (domain_remove_Ok _ _ _ ws).
  - intros rec'. simpl. rewrite Hc. simpl.
    by rewrite (domain_remove_Ok _ _ _ ws).
  - unfold d'. apply lookup_insert_eq.
  - unfold d'. rewrite lookup_insert_eq. simpl.
    intros [Hne _]%list_elem_of_filter. done.
  - intros a0 d0 inferences d1 st1 a2 d2 ws2 Hc0 Hac3 Hinf Hrec Hd2 Hin2.
    simpl. rewrite Hc0. simpl. rewrite Hac3. simpl.
    rewrite Hinf. simpl. rewrite Hrec. simpl.
    by rewrite (domain_remove_Ok _ _ _ ws2).
Qed.

Lemma backtrack_loop_removes_candidate_witness :
  let rec := backtrack chain_puzzle_1 2 in
  let d' := <[slot_z := filter (λ w, w ≠ "BAQ") ["AAP"; "BAQ"; "AOP"]]>
              chain_domains_z in
  chain_domains_z !! slot_z = Some ["AAP"; "BAQ"; "AOP"]
  ∧ "BAQ" ∈ ["AAP"; "BAQ"; "AOP"]
  ∧ consistent chain_puzzle_1 (<[slot_z := Some "BAQ"]> chain_assignment_z)
    = Ok false
  ∧ backtrack_loop chain_puzzle_1 rec slot_z ["BAQ"; "AAP"; "AOP"]
      (chain_assignment_z, chain_domains_z)
    = backtrack_loop chain_puzzle_1 rec slot_z ["AAP"; "AOP"]
        (chain_assignment_z, d').
Proof.
  intros rec d'.
  assert (chain_domains_z !! slot_z = Some ["AAP"; "BAQ"; "AOP"]) as Hd
    by (vm_compute; reflexivity).
  assert ("BAQ" ∈ ["AAP"; "BAQ"; "AOP"]) as Hin by (right; left).
  assert (consistent chain_puzzle_1
            (<[slot_z := Some "BAQ"]> chain_assignment_z) = Ok false) as Hc
    by (vm_compute; reflexivity).
  split; [exact Hd|]. split; [exact Hin|]. split; [exact Hc|].
  exact (proj1 (backtrack_loop_removes_candidate chain_puzzle_1 rec slot_z
                  "BAQ" ["AAP"; "AOP"] chain_assignment_z chain_domains_z
                  ["AAP"; "BAQ"; "AOP"] Hd Hin Hc)).
Defined.

(** C3, as stated: a candidate that makes the tentative assignment
    inconsistent is removed from the domain at that point.  In the search
    on [chain_puzzle_1], "BAQ" is the first candidate of [slot_z]; it
    clashes with the word of [slot_u], no recursive call is made for it
    (the turn ends the same way with a recursive call that would raise),
    and the domain of [slot_z] no longer holds it when the turn ends. *)
Lemma inconsistent_candidate_is_removed :
  order_domain_values chain_puzzle_1 chain_domains_z slot_z chain_assignment_z
  = Ok ["BAQ"; "AAP"; "AOP"]
  ∧ consistent chain_puzzle_1 (<[slot_z := Some "BAQ"]> chain_assignment_z)
    = Ok false
  ∧ chain_domains_z !! slot_z = Some ["AAP"; "BAQ"; "AOP"]
  ∧ ∃ d', backtrack_loop chain_puzzle_1 (λ _, Raise TypeError) slot_z ["BAQ"]
            (chain_assignment_z, chain_domains_z)
          = Ok (None, (chain_assignment_z, d'))
          ∧ d' !! slot_z = Some ["AAP"; "AOP"].
Proof.
  split; [vm_compute; reflexivity|].
  split; [vm_compute; reflexivity|].
  split; [vm_compute; reflexivity|].
  eexists. split; vm_compute; reflexivity.
Qed.

(** ** The search terminates *)

Lemma consistent_neighbors_fueled cw (a : Assignment) x x_word ys :
  consistent_neighbors cw a x x_word ys ≠ OutOfFuel.
Proof.
  induction ys as [|y ys IH]; simpl; [done|].
  apply bind_fueled; [auto with fueled|]. intros [w|] _; [|done].
  apply bind_fueled; [auto with fueled|]. intros ov _.
  apply bind_fueled; [auto with fueled|]. by intros [] _.
Qed.

Lemma consistent_fueled cw (a : Assignment) : consistent cw a ≠ OutOfFuel.
Proof.
  unfold consistent. induction (variables cw) as [|x xs IH]; simpl; [done|].
  destruct (a !! x) as [[w|]|]; try done.
  apply bind_fueled; [apply consistent_neighbors_fueled|]. by intros [] _.
Qed.

Lemma count_removed_fueled overlap word ndom n :
  count_removed overlap word ndom n ≠ OutOfFuel.
Proof.
  revert n. induction ndom as [|w ndom IH]; intros n; simpl; [done|].
  apply bind_fueled; auto with fueled.
Qed.

Lemma options_removed_by_fueled cw (d : Domains) var word ns n :
  options_removed_by cw d var word ns n ≠ OutOfFuel.
Proof.
  revert n. induction ns as [|v ns IH]; intros n; simpl; [done|].
  apply bind_fueled; [auto with fueled|]. intros ov _.
  apply bind_fueled; [auto with fueled|]. intros ndom _.
  apply bind_fueled; [apply count_removed_fueled|]. auto.
Qed.

Lemma order_domain_values_fueled cw (d : Domains) var (a : Assignment) :
  order_domain_values cw d var a ≠ OutOfFuel.
Proof.
  unfold order_domain_values.
  apply bind_fueled; [auto with fueled|]. intros ws _.
  apply bind_fueled; [|done].
  induction ws as [|w ws IH]; simpl; [done|].
  apply bind_fueled; [apply options_removed_by_fueled|]. intros n _.
  by apply bind_fueled.
Qed.

Lemma select_loop_fueled cw (d : Domains) (a : Assignment) vars m s :
  select_loop cw d a vars m s ≠ OutOfFuel.
Proof.
  revert m s. induction vars as [|v vars IH]; intros m s; simpl; [done|].
  destruct (a !! v) as [[w|]|]; try done.
  apply bind_fueled; [auto with fueled|]. intros ws _.
  destruct (below _ m); [done|].
  case_bool_decide; [|done]. destruct s; [|done]. by case_bool_decide.
Qed.

(** A variable that the selection returns is an unassigned variable of
    the puzzle. *)
Lemma select_loop_Ok cw (d : Domains) (a : Assignment) vars m s s' :
  select_loop cw d a vars m s = Ok s' →
  s' = s ∨ ∃ v, s' = Some v ∧ v ∈ vars ∧ unassigned a v.
Proof.
  revert m s. induction vars as [|v vars IH]; intros m s Hrun; simpl in Hrun.
  { injection Hrun as <-. by left. }
  assert (∀ m0 s0, select_loop cw d a vars m0 s0 = Ok s' →
            s0 = s ∨ (s0 = Some v ∧ unassigned a v) →
            s' = s ∨ ∃ v0, s' = Some v0 ∧ v0 ∈ v :: vars ∧ unassigned a v0)
    as Hstep.
  { intros m0 s0 Hrun0 Hs0.
    destruct (IH _ _ Hrun0) as [->|(v0 & -> & Hv0 & Hu0)].
    - destruct Hs0 as [->|[-> Hu]]; [by left|].
      right. exists v. split; [done|]. split; [left | done].
    - right. exists v0. split; [done|]. split; [by right | done]. }
  destruct (a !! v) as [[w|]|] eqn:Hv; try (apply (Hstep _ _ Hrun); by left).
  inv_bind_as Hrun ws Hws.
  destruct (below _ m); [apply (Hstep _ _ Hrun); by right|].
  case_bool_decide; [|apply (Hstep _ _ Hrun); by left].
  destruct s as [sel|]; [|done].
  case_bool_decide; [apply (Hstep _ _ Hrun); by right|].
  apply (Hstep _ _ Hrun); by left.
Qed.

Lemma select_unassigned_variable_Ok cw (d : Domains) (a : Assignment) var :
  select_unassigned_variable cw d a = Ok var →
  var ∈ variables cw ∧ unassigned a var.
Proof.
  unfold select_unassigned_variable. intros Hrun.
  inv_bind_as Hrun sel Hsel. destruct sel as [v|]; [|done].
  injection Hrun as ->.
  apply select_loop_Ok in Hsel as [|(v0 & [= <-] & Hv & Hu)]; done.
Qed.

Lemma assign_singletons_fueled vars st : assign_singletons vars st ≠ OutOfFuel.
Proof.
  revert st. induction vars as [|v vars IH]; intros [a d]; simpl; [done|].
  apply bind_fueled; [auto with fueled|]. intros ws _.
  case_decide; [|done].
  apply bind_fueled; [auto with fueled|]. by intros [] _.
Qed.

Lemma apply_inferences_fueled vars st : apply_inferences vars st ≠ OutOfFuel.
Proof.
  revert st. induction vars as [|v vars IH]; intros [a d]; simpl; [done|].
  destruct (a !! v) as [[w|]|]; try done.
  apply bind_fueled; [auto with fueled|]. intros ws _.
  case_decide; [|done].
  apply bind_fueled; [auto with fueled|]. by intros [] _.
Qed.

Lemma domain_remove_fueled var value (d : Domains) :
  domain_remove var value d ≠ OutOfFuel.
Proof.
  unfold domain_remove.
  apply bind_fueled; [auto with fueled|]. intros ws _.
  apply bind_fueled; [auto with fueled|]. done.
Qed.

Lemma count_unassigned_insert cw (a : Assignment) var w :
  (count_unassigned cw (<[var := Some w]> a) ≤ count_unassigned cw a)%nat
  ∧ (var ∈ variables cw → unassigned a var →
     (count_unassigned cw (<[var := Some w]> a) < count_unassigned cw a)%nat).
Proof.
  unfold count_unassigned, unassigned.
  induction (variables cw) as [|v vs [IHle IHlt]]; [split; [done|]|].
  { by intros ?%elem_of_nil. }
  rewrite !filter_cons.
  destruct (decide (v = var)) as [->|Hne].
  - rewrite lookup_insert_eq. rewrite decide_False by done.
    split.
    + destruct (decide (a !! var = Some None)); simpl; lia.
    + intros _ Hu. rewrite decide_True by done. simpl. lia.
  - rewrite lookup_insert_ne by done.
    split.
    + destruct (decide (a !! v = Some None)); simpl; lia.
    + intros [?|Hin]%elem_of_cons Hu; [done|]. specialize (IHlt Hin Hu).
      destruct (decide (a !! v = Some None)); simpl; lia.
Qed.

Lemma apply_inferences_count cw vars (a : Assignment) (d : Domains) a' d' :
  apply_inferences vars (a, d) = Ok (a', d') →
  (count_unassigned cw a' ≤ count_unassigned cw a)%nat ∧ (a ≠ ∅ → a' ≠ ∅).
Proof.
  revert a d. induction vars as [|v vars IH]; intros a d Hrun; simpl in Hrun.
  { by injection Hrun as <- <-. }
  destruct (a !! v) as [[w|]|] eqn:Hv; try by apply IH in Hrun.
  inv_bind_as Hrun ws Hws. case_decide; [|by apply IH in Hrun].
  inv_bind_as Hrun p Hp. destruct p as [w ws'].
  apply IH in Hrun as [Hle Hne]. split.
  - pose proof (count_unassigned_insert cw a v w) as [? _]. lia.
  - intros _. apply Hne. apply insert_non_empty.
Qed.

(** The recursion of [backtrack] is no deeper than the number of
    unassigned variables: with more fuel than that it does not run out,
    and it leaves no more variables unassigned than it found. *)
Lemma backtrack_fueled cw fuel (a : Assignment) (d : Domains) :
  a ≠ ∅ → (count_unassigned cw a < fuel)%nat →
  backtrack cw fuel (a, d) ≠ OutOfFuel
  ∧ ∀ r a' d', backtrack cw fuel (a, d) = Ok (r, (a', d')) →
      a' ≠ ∅ ∧ (count_unassigned cw a' ≤ count_unassigned cw a)%nat.
Proof.
  revert a d. induction fuel as [|fuel IH]; intros a d Hne Hcount; [lia|].
  simpl. rewrite decide_False by done. simpl.
  unfold backtrack_search.
  destruct (assignment_complete cw a).
  { split; [done|]. by intros r a' d' [= <- <- <-]. }
  destruct (select_unassigned_variable cw d a) as [var| |] eqn:Hsel; simpl;
    [|by split|by destruct (select_loop_fueled cw d a (variables cw) None None);
       unfold select_unassigned_variable in Hsel;
       destruct (select_loop cw d a (variables cw) None None) as [[?|]| |]].
  apply select_unassigned_variable_Ok in Hsel as [Hvar Hu].
  destruct (order_domain_values cw d var a) as [values| |] eqn:Hord; simpl;
    [|by split|by destruct (order_domain_values_fueled cw d var a)].
  clear Hord.
  assert (∀ a0, a0 ≠ ∅ →
            (count_unassigned cw a0 ≤ count_unassigned cw a)%nat →
            (count_unassigned cw a0 < fuel)%nat
            ∨ (var ∈ variables cw ∧ unassigned a0 var
               ∧ count_unassigned cw a0 ≤ fuel)%nat →
            ∀ d0,
              backtrack_loop cw (backtrack cw fuel) var values (a0, d0)
              ≠ OutOfFuel
              ∧ ∀ r a' d',
                  backtrack_loop cw (backtrack cw fuel) var values (a0, d0)
                  = Ok (r, (a', d')) →
                  a' ≠ ∅
                  ∧ (count_unassigned cw a' ≤ count_unassigned cw a)%nat)
    as Hloop.
  { clear Hne Hcount Hu. induction values as [|value values IHv];
      intros a0 Hne0 Hle0 Hfuel0 d0; simpl.
    { split; [done|]. by intros r a' d' [= <- <- <-]. }
    assert (∀ d1, domain_remove var value d1 ≫=
                  (λ d2, backtrack_loop cw (backtrack cw fuel) var values (a0, d2))
                  ≠ OutOfFuel
                  ∧ ∀ r a' d',
                      domain_remove var value d1 ≫=
                      (λ d2, backtrack_loop cw (backtrack cw fuel) var values
                               (a0, d2)) = Ok (r, (a', d')) →
                      a' ≠ ∅
                      ∧ (count_unassigned cw a' ≤ count_unassigned cw a)%nat)
      as Hskip.
    { intros d1. destruct (domain_remove var value d1) as [d2| |] eqn:Hrm;
        simpl; [by apply IHv | by split |
                by destruct (domain_remove_fueled var value d1)]. }
    destruct (consistent cw (<[var := Some value]> a0)) as [ok| |] eqn:Hc;
      simpl; [|by split|by destruct (consistent_fueled cw (<[var := Some value]> a0))].
    destruct ok; [|by apply Hskip].
    set (a1 := <[var := Some value]> a0).
    assert (a1 ≠ ∅) as Hne1 by apply insert_non_empty.
    assert (count_unassigned cw a1 < fuel
            ∧ count_unassigned cw a1 ≤ count_unassigned cw a)%nat
      as [Hlt1 Hle1].
    { pose proof (count_unassigned_insert cw a0 var value) as [Hle Hlt].
      destruct Hfuel0 as [?|(Hv & Hu0 & ?)]; [fold a1 in Hle; lia|].
      specialize (Hlt Hv Hu0). fold a1 in Hlt. lia. }
    destruct (ac3 cw _ d0) as [[inferences d1]| |] eqn:Hac3; simpl;
      [|by split|by destruct (ac3_fueled cw _ d0 Hac3)].
    assert (∃ st1, (if inferences
                    then apply_inferences (variables cw) (a1, d1)
                    else Ok (a1, d1)) = st1) as [st1 Hst1] by eauto.
    rewrite Hst1.
    destruct st1 as [[a2 d2]| |]; simpl; [|by split|].
    2:{ destruct inferences; [|done].
        by destruct (apply_inferences_fueled (variables cw) (a1, d1)). }
    assert (a2 ≠ ∅ ∧ count_unassigned cw a2 ≤ count_unassigned cw a1)%nat
      as [Hne2 Hle2].
    { destruct inferences.
      - apply (apply_inferences_count cw) in Hst1 as [? ?]. auto.
      - injection Hst1 as <- <-. auto. }
    destruct (IH a2 d2 Hne2 ltac:(lia)) as [Hrec Hpost].
    destruct (backtrack cw fuel (a2, d2)) as [[r [a3 d3]]| |]; simpl;
      [|by split|done].
    destruct (Hpost r a3 d3 eq_refl) as [Hne3 Hle3].
    destruct r as [res|].
    { split; [done|]. intros r a' d' [= <- <- <-]. split; [done|lia]. }
    destruct (domain_remove var value d3) as [d4| |] eqn:Hrm; simpl;
      [|by split|by destruct (domain_remove_fueled var value d3)].
    apply IHv; [done|lia|left; lia]. }
  apply Hloop; [done|lia|]. right. split; [done|]. split; [done|lia].
Qed.

Lemma backtrack_unfold_nonempty cw fuel (a : Assignment) (d : Domains) :
  a ≠ ∅ →
  backtrack cw (S fuel) (a, d) = backtrack_search cw (backtrack cw fuel) (a, d).
Proof. intros Hne. simpl. by rewrite decide_False. Qed.

(** [solve] comes to an end on every puzzle: the fuel of the embedding
    is never exhausted. *)
Lemma solve_fueled cw : solve cw ≠ OutOfFuel.
Proof.
  unfold solve. apply bind_fueled; [|by intros [? ?] _].
  unfold solve_state.
  apply bind_fueled; [apply ac3_fueled|]. intros [b d] _.
  unfold backtrack_fuel. simpl. rewrite decide_True by done.
  apply bind_fueled; [apply assign_singletons_fueled|].
  intros [a1 d1] Hroot.
  destruct (variables cw) as [|v vs] eqn:Hvars.
  { unfold backtrack_search, assignment_complete. by rewrite Hvars. }
  rewrite <- Hvars in *.
  assert (a1 ≠ ∅) as Hne.
  { intros ->.
    destruct (assign_singletons_spec _ _ _ _ _ Hroot v)
      as [[Ha _]|(w & _ & Ha & _)].
    - rewrite lookup_empty_assignment in Ha by (rewrite Hvars; left).
      by rewrite lookup_empty in Ha.
    - by rewrite lookup_empty in Ha. }
  rewrite <- backtrack_unfold_nonempty by done.
  apply backtrack_fueled; [done|].
  unfold count_unassigned.
  pose proof (length_filter (λ v, a1 !! v = Some None) (variables cw)). lia.
Qed.

(** ** What [solve] returns is complete *)

Lemma backtrack_loop_complete cw rec var values st r st' :
  (∀ st0 r0 st0', rec st0 = Ok (Some r0, st0') →
                  assignment_complete cw r0 = true) →
  backtrack_loop cw rec var values st = Ok (Some r, st') →
  assignment_complete cw r = true.
Proof.
  intros Hrec. revert st.
  induction values as [|value values IH]; intros [a d] Hrun; simpl in Hrun;
    [done|].
  inv_bind_as Hrun ok Hok. destruct ok.
  - inv_bind_as Hrun p Hac3. destruct p as [inferences d1].
    inv_bind_as Hrun st1 Hinf. inv_bind_as Hrun p Hcall.
    destruct p as [[res|] [a2 d2]].
    + injection Hrun as <- <-. by eapply Hrec.
    + inv_bind_as Hrun d3 Hrm. by eapply IH.
  - inv_bind_as Hrun d1 Hrm. by eapply IH.
Qed.

Lemma backtrack_complete cw fuel st r st' :
  backtrack cw fuel st = Ok (Some r, st') → assignment_complete cw r = true.
Proof.
  revert st r st'. induction fuel as [|fuel IH]; intros st r st' Hrun; [done|].
  simpl in Hrun. inv_bind_as Hrun st1 Hinit. destruct st1 as [a d].
  unfold backtrack_search in Hrun.
  destruct (assignment_complete cw a) eqn:Hcomplete.
  { by injection Hrun as <- <-. }
  inv_bind_as Hrun var Hsel. inv_bind_as Hrun values Hord.
  eapply backtrack_loop_complete; [|exact Hrun]. apply IH.
Qed.

(** The half of C1 that holds: an assignment that [solve] returns gives
    a word to every variable. *)
Lemma solve_complete cw a :
  solve cw = Ok (Some a) → assignment_complete cw a = true.
Proof.
  unfold solve, solve_state. intros Hrun.
  inv_bind_as Hrun p Hstate. destruct p as [r st]. injection Hrun as ->.
  inv_bind_as Hstate p Hac3. destruct p as [b d].
  by eapply backtrack_complete.
Qed.

(** ** The examples do not depend on the iteration order *)

(** The sets of the program are iterated in an order the code does not
    fix.  The outcomes of C1 and C4 are the same for every order of the
    set of variables, with the vocabulary in either order. *)
Lemma chain_1_inconsistent_any_order :
  Forall (λ vars,
    Forall (λ vocabulary,
      returns_inconsistent (grid_crossword vars vocabulary) = true)
      [chain_words_1; reverse chain_words_1])
    (permutations chain_slots).
Proof. apply (bool_decide_unpack _). vm_compute. exact I. Qed.

Lemma chain_2_KeyError_any_order :
  Forall (λ vars,
    Forall (λ vocabulary,
      solve (grid_crossword vars vocabulary) = Raise KeyError)
      [chain_words_2; reverse chain_words_2])
    (permutations chain_slots).
Proof. apply (bool_decide_unpack _). vm_compute. exact I. Qed.

(** * Further properties of the code *)

(** ** Node consistency and the initial store *)

(** X1.  [enforce_node_consistency] keeps the keys of the store, keeps
    in every domain exactly the words whose length is the length of the
    slot, in their order, and running it a second time changes nothing. *)
Theorem enforce_node_consistency_spec (d : Domains) :
  (∀ v, enforce_node_consistency d !! v = None ↔ d !! v = None)
  ∧ (∀ v ws, d !! v = Some ws →
       ∃ ws', enforce_node_consistency d !! v = Some ws'
              ∧ ws' `sublist_of` ws
              ∧ ∀ w, w ∈ ws' ↔ w ∈ ws ∧ String.length w = var_length v)
  ∧ enforce_node_consistency (enforce_node_consistency d)
    = enforce_node_consistency d.
Proof.
  split; [|split].
  - intros v. rewrite lookup_enforce_node_consistency.
    by destruct (d !! v).
  - intros v ws Hv. rewrite lookup_enforce_node_consistency, Hv. simpl.
    eexists. split; [done|]. split; [apply sublist_filter|].
    intros w. rewrite list_elem_of_filter. tauto.
  - apply map_eq. intros v. rewrite !lookup_enforce_node_consistency.
    destruct (d !! v) as [ws|]; simpl; [|done]. f_equal.
    rewrite list_filter_filter. apply list_filter_iff. tauto.
Qed.

(** X2.  After [__init__] and [enforce_node_consistency] the keys of
    the store are the variables of the puzzle, and the domain of a
    variable holds the words of the vocabulary that have the length of
    its slot, each once when the vocabulary is a set. *)
Theorem initial_store_spec cw :
  NoDup (words cw) →
  let d := enforce_node_consistency (init_domains cw) in
  (∀ v, is_Some (d !! v) ↔ v ∈ variables cw)
  ∧ (∀ v, v ∈ variables cw →
       d !! v = Some (filter (λ w, String.length w = var_length v) (words cw)))
  ∧ store_ok cw d.
Proof.
  intros Hnd d. split; [|split].
  - intros v. unfold d.
    rewrite lookup_enforce_node_consistency, lookup_init_domains.
    case_decide; simpl; [split; [done | eauto]|].
    split; [by intros [? ?] | done].
  - intros v Hv. unfold d.
    rewrite lookup_enforce_node_consistency, lookup_init_domains.
    by rewrite decide_True.
  - by apply store_ok_initial.
Qed.

Lemma initial_store_spec_witness :
  NoDup (words cross_puzzle)
  ∧ enforce_node_consistency (init_domains cross_puzzle) !! slot_z
    = Some (filter (λ w, String.length w = var_length slot_z)
              (words cross_puzzle)).
Proof.
  assert (NoDup (words cross_puzzle)) as Hnd
    by (apply (bool_decide_unpack _); vm_compute; exact I).
  split; [exact Hnd|].
  apply (initial_store_spec cross_puzzle Hnd).
  apply (bool_decide_unpack _); vm_compute; exact I.
Defined.

(** ** Complete assignments *)

(** X3.  On an assignment keyed by variables of the puzzle,
    [assignment_complete] answers true exactly when no key holds [None].
    A variable that is not a key is not noticed: the empty dictionary
    counts as complete. *)
Theorem assignment_complete_spec cw (a : Assignment) :
  keyed_by_variables cw a →
  (assignment_complete cw a = true ↔ ∀ v, a !! v ≠ Some None)
  ∧ assignment_complete cw ∅ = true.
Proof.
  intros Hkeys. split.
  - unfold assignment_complete. rewrite forallb_forall. split.
    + intros Hall v Hv.
      assert (v ∈ variables cw) as Hin by (apply Hkeys; rewrite Hv; eauto).
      apply list_elem_of_In, Hall in Hin. by rewrite Hv in Hin.
    + intros Hall v _. specialize (Hall v).
      by destruct (a !! v) as [[w|]|].
  - unfold assignment_complete. apply forallb_forall. intros v _.
    by rewrite lookup_empty.
Qed.

Lemma assignment_complete_spec_witness :
  keyed_by_variables chain_puzzle_1 chain_assignment_z
  ∧ ¬ (assignment_complete chain_puzzle_1 chain_assignment_z = true).
Proof.
  assert (keyed_by_variables chain_puzzle_1 chain_assignment_z) as Hk.
  { intros v [w Hv]. unfold chain_assignment_z in Hv.
    destruct (decide (v = slot_u)) as [->|Hu]; [left|].
    rewrite lookup_insert_ne in Hv by done.
    destruct (decide (v = slot_y)) as [->|Hy];
      [apply (bool_decide_unpack _); vm_compute; exact I|].
    rewrite lookup_insert_ne in Hv by done.
    destruct (decide (v ∈ variables chain_puzzle_1)) as [|Hn]; [done|].
    exfalso. unfold empty_assignment in Hv.
    apply elem_of_list_to_map_2, list_elem_of_fmap in Hv
      as (v' & [= -> _] & Hin). done. }
  split; [exact Hk|].
  intros Hc.
  apply (proj1 (proj1 (assignment_complete_spec chain_puzzle_1
                         chain_assignment_z Hk))) with (v := slot_z) in Hc.
  apply Hc. vm_compute. reflexivity.
Defined.

(** ** Edge behaviour of the selection and of the revision *)

(** X4.  When no variable is unassigned, [select_unassigned_variable]
    reaches its [return] with [selected_var] unbound and raises
    [UnboundLocalError]; [backtrack] only calls it after
    [assignment_complete] has answered false. *)
Theorem select_on_complete_raises cw (d : Domains) (a : Assignment) :
  (∀ v, v ∈ variables cw → ¬ unassigned a v) →
  select_unassigned_variable cw d a = Raise UnboundLocalError.
Proof.
  intros Hall. unfold select_unassigned_variable.
  assert (select_loop cw d a (variables cw) None None = Ok None) as ->; [|done].
  induction (variables cw) as [|v vs IH]; simpl; [done|].
  assert (¬ unassigned a v) as Hv by (apply Hall; left).
  unfold unassigned in Hv.
  destruct (a !! v) as [[w|]|]; [|done|]; apply IH; intros v' Hv';
    apply Hall; by right.
Qed.

Lemma select_on_complete_raises_witness :
  (∀ v, v ∈ variables chain_puzzle_1 → ¬ unassigned chain_solution v)
  ∧ select_unassigned_variable chain_puzzle_1 chain_domains_z chain_solution
    = Raise UnboundLocalError.
Proof.
  assert (∀ v, v ∈ variables chain_puzzle_1 → ¬ unassigned chain_solution v)
    as Hall.
  { intros v Hv. simpl in Hv. unfold unassigned.
    repeat (apply elem_of_cons in Hv as [->|Hv]; [vm_compute; discriminate|]).
    by apply elem_of_nil in Hv. }
  split; [exact Hall|].
  exact (select_on_complete_raises chain_puzzle_1 chain_domains_z
           chain_solution Hall).
Defined.

(** X5.  [revise(x, y)] for two variables that share no cell (their
    entry in the overlap table is [None]): with an empty domain of [x]
    it returns false and changes nothing, and as soon as both domains
    hold a word it raises [TypeError] on [overlap[0]].  For a pair that
    has no entry in the table it raises [KeyError] at once. *)
Theorem revise_without_overlap cw x y (d : Domains) xdom :
  d !! x = Some xdom →
  (overlaps cw !! (x, y) = None → revise cw x y d = Raise KeyError)
  ∧ (overlaps cw !! (x, y) = Some None → xdom = [] →
     revise cw x y d = Ok (false, d))
  ∧ (overlaps cw !! (x, y) = Some None →
     ∀ ydom, xdom ≠ [] → d !! y = Some ydom → ydom ≠ [] →
     revise cw x y d = Raise TypeError).
Proof.
  intros Hx. unfold revise, overlaps_getitem, getitem.
  split; [|split].
  - by intros ->.
  - intros -> ->. rewrite Hx. simpl. by rewrite insert_id.
  - intros -> ydom Hxd Hy Hyd. rewrite Hx. simpl.
    destruct xdom as [|w ws]; [done|]. destruct ydom as [|w' ws']; [done|].
    simpl. unfold getitem. rewrite Hy. done.
Qed.

Lemma revise_without_overlap_witness :
  chain_domains_z !! slot_u = Some ["TA"; "TB"]
  ∧ overlaps chain_puzzle_1 !! (slot_u, slot_t) = Some None
  ∧ revise chain_puzzle_1 slot_u slot_t chain_domains_z = Raise TypeError.
Proof.
  assert (chain_domains_z !! slot_u = Some ["TA"; "TB"]) as Hu
    by (vm_compute; reflexivity).
  assert (overlaps chain_puzzle_1 !! (slot_u, slot_t) = Some None) as Hov
    by (vm_compute; reflexivity).
  split; [exact Hu|]. split; [exact Hov|].
  apply (proj2 (proj2 (revise_without_overlap chain_puzzle_1 slot_u slot_t
                         chain_domains_z ["TA"; "TB"] Hu)) Hov
           ["PXXF"; "QXXE"; "QYYE"; "QZZE"]); [done| |done].
  vm_compute. reflexivity.
Defined.

(** ** What AC-3 does to the store *)

Lemma pruned_refl d : pruned d d.
Proof. intros v. by destruct (d !! v). Qed.

Lemma pruned_trans d1 d2 d3 : pruned d1 d2 → pruned d2 d3 → pruned d1 d3.
Proof.
  intros H12 H23 v. specialize (H12 v). specialize (H23 v).
  destruct (d1 !! v), (d2 !! v), (d3 !! v); try done. by etrans.
Qed.

Lemma pruned_insert (d : Domains) x xdom l :
  d !! x = Some xdom → l `sublist_of` xdom → pruned d (<[x := l]> d).
Proof.
  intros Hx Hl v. destruct (decide (v = x)) as [->|Hne].
  - by rewrite lookup_insert_eq, Hx.
  - rewrite lookup_insert_ne by done. by destruct (d !! v).
Qed.

Lemma pruned_lookup d d' v ws' :
  pruned d d' → d' !! v = Some ws' →
  ∃ ws, d !! v = Some ws ∧ ws' `sublist_of` ws.
Proof.
  intros Hp Hv. specialize (Hp v). rewrite Hv in Hp.
  destruct (d !! v) as [ws|]; [|done]. eauto.
Qed.

Lemma pruned_lookup_l d d' v ws :
  pruned d d' → d !! v = Some ws →
  ∃ ws', d' !! v = Some ws' ∧ ws' `sublist_of` ws.
Proof.
  intros Hp Hv. specialize (Hp v). rewrite Hv in Hp.
  destruct (d' !! v) as [ws'|]; [|done]. eauto.
Qed.

Lemma pruned_empty d d' v : pruned d d' → d !! v = Some [] → d' !! v = Some [].
Proof.
  intros Hp Hv. destruct (pruned_lookup_l _ _ _ _ Hp Hv) as (ws' & -> & Hs).
  by apply sublist_nil_r in Hs as ->.
Qed.

Lemma revise_pruned cw x y (d : Domains) revised d' :
  revise cw x y d = Ok (revised, d') → pruned d d'.
Proof.
  intros (ov & xdom & _ & Hx & -> & _)%revise_Ok.
  apply (pruned_insert _ _ xdom); [done | apply sublist_filter].
Qed.

Lemma ac3_loop_pruned cw fuel arcs (d : Domains) b d' :
  ac3_loop cw fuel arcs d = Ok (b, d') → pruned d d'.
Proof.
  revert arcs d. induction fuel as [|fuel IH]; intros arcs d Hrun.
  { destruct arcs as [|[x y] arcs]; [|done]. injection Hrun as <- <-.
    apply pruned_refl. }
  destruct arcs as [|[x y] arcs].
  { injection Hrun as <- <-. apply pruned_refl. }
  simpl in Hrun. inv_bind_as Hrun p Hrev. destruct p as [revised d1].
  apply revise_pruned in Hrev.
  destruct revised.
  - inv_bind_as Hrun xd Hxd. case_decide.
    + by injection Hrun as <- <-.
    + inv_bind_as Hrun zs Hzs. apply IH in Hrun. by eapply pruned_trans.
  - apply IH in Hrun. by eapply pruned_trans.
Qed.

Lemma ac3_pruned cw arcs (d : Domains) b d' :
  ac3 cw arcs d = Ok (b, d') → pruned d d'.
Proof. unfold ac3. apply ac3_loop_pruned. Qed.

(** X6.  Whatever arcs it is given, a call of [ac3] that returns has
    only removed words: the store has the same keys, and every domain is
    what is left of the domain it was, in the same order. *)
Theorem ac3_only_removes cw arcs (d : Domains) b d' :
  ac3 cw arcs d = Ok (b, d') →
  (∀ v, d' !! v = None ↔ d !! v = None)
  ∧ ∀ v ws', d' !! v = Some ws' →
      ∃ ws, d !! v = Some ws ∧ ws' `sublist_of` ws ∧ ws' ⊆ ws.
Proof.
  intros Hp%ac3_pruned. split.
  - intros v. specialize (Hp v).
    destruct (d !! v), (d' !! v); try done.
  - intros v ws' Hv.
    destruct (pruned_lookup _ _ _ _ Hp Hv) as (ws & Hd & Hs).
    exists ws. split; [done|]. split; [done|].
    by apply sublist_subseteq.
Qed.

Lemma ac3_only_removes_witness :
  ac3 cross_puzzle None cross_store
  = Ok (true, <[slot_u := ["TA"]]> cross_store)
  ∧ ∀ v ws', <[slot_u := ["TA"]]> cross_store !! v = Some ws' →
      ∃ ws, cross_store !! v = Some ws ∧ ws' `sublist_of` ws ∧ ws' ⊆ ws.
Proof.
  assert (ac3 cross_puzzle None cross_store
          = Ok (true, <[slot_u := ["TA"]]> cross_store)) as Hrun
    by (vm_compute; reflexivity).
  split; [exact Hrun|].
  exact (proj2 (ac3_only_removes cross_puzzle None cross_store true _ Hrun)).
Defined.

Lemma ac3_loop_result cw fuel arcs (d : Domains) b d' :
  ac3_loop cw fuel arcs d = Ok (b, d') →
  (b = false → ∃ x ws, d !! x = Some ws ∧ ws ≠ [] ∧ d' !! x = Some [])
  ∧ (b = true → ∀ v ws, d !! v = Some ws → ws ≠ [] →
                 ∃ ws', d' !! v = Some ws' ∧ ws' ≠ []).
Proof.
  revert arcs d. induction fuel as [|fuel IH]; intros arcs d Hrun.
  { destruct arcs as [|[x y] arcs]; [|done]. injection Hrun as <- <-.
    split; [done|]. intros _ v ws Hv Hne. eauto. }
  destruct arcs as [|[x y] arcs].
  { injection Hrun as <- <-. split; [done|]. intros _ v ws Hv Hne. eauto. }
  simpl in Hrun. inv_bind_as Hrun p Hrev. destruct p as [revised d1].
  apply revise_Ok in Hrev as (ov & xdom & _ & Hx & Hd1 & Hf & Ht).
  simpl in Hd1, Hf, Ht.
  set (xdom' := filter (supported ov (default [] (d !! y))) xdom) in *.
  assert (d1 !! x = Some xdom') as Hx1 by (rewrite Hd1; apply lookup_insert_eq).
  assert (xdom' ≠ [] → xdom ≠ []) as Hne'.
  { intros Hn ->. by apply Hn. }
  destruct revised.
  - inv_bind_as Hrun xd Hxd. apply getitem_Ok in Hxd.
    assert (xd = xdom') as -> by congruence.
    case_decide as Hlen.
    + injection Hrun as <- <-. split; [|done]. intros _.
      exists x, xdom. split; [done|]. split.
      * intros ->. specialize (Ht eq_refl). simpl in Ht. lia.
      * rewrite Hx1. by destruct xdom'.
    + assert (xdom' ≠ []) as Hxne by (by intros Heq; rewrite Heq in Hlen).
      inv_bind_as Hrun zs Hzs. apply IH in Hrun as [IHf IHt]. split.
      * intros Hb. destruct (IHf Hb) as (x0 & ws1 & Hx0 & Hne1 & Hx0').
        destruct (decide (x0 = x)) as [->|Hx0x].
        -- exists x, xdom. split; [done|]. split; [auto|done].
        -- exists x0, ws1. rewrite Hd1, lookup_insert_ne in Hx0 by done. done.
      * intros Hb v ws Hv Hne. destruct (decide (v = x)) as [->|Hvx].
        -- by apply (IHt Hb x xdom').
        -- apply (IHt Hb v ws); [|done].
           by rewrite Hd1, lookup_insert_ne.
  - assert (d1 = d) as ->.
    { rewrite Hd1, Hf by done. by apply insert_id. }
    by apply IH in Hrun.
Qed.

(** X7.  What the result of [ac3] means.  It returns false only when a
    revision has just emptied a domain that held words on entry, and
    that domain is empty in the store it leaves.  When it returns true,
    every domain that held a word on entry still holds one; a domain
    that was empty on entry stays empty without making it return
    false. *)
Theorem ac3_result_meaning cw arcs (d : Domains) b d' :
  ac3 cw arcs d = Ok (b, d') →
  (b = false → ∃ x ws, d !! x = Some ws ∧ ws ≠ [] ∧ d' !! x = Some [])
  ∧ (b = true → ∀ v ws, d !! v = Some ws → ws ≠ [] →
                 ∃ ws', d' !! v = Some ws' ∧ ws' ≠ [])
  ∧ (∀ v, d !! v = Some [] → d' !! v = Some []).
Proof.
  intros Hrun. pose proof (ac3_pruned _ _ _ _ _ Hrun) as Hp.
  unfold ac3 in Hrun. apply ac3_loop_result in Hrun as [Hf Ht].
  split; [done|]. split; [done|].
  intros v Hv. by eapply pruned_empty.
Qed.

Lemma ac3_result_meaning_witness :
  ac3 short_puzzle None
    (enforce_node_consistency (init_domains short_puzzle))
  = Ok (false, <[slot_u := []]>
                 (enforce_node_consistency (init_domains short_puzzle)))
  ∧ ∃ x ws,
      enforce_node_consistency (init_domains short_puzzle) !! x = Some ws
      ∧ ws ≠ []
      ∧ <[slot_u := []]>
          (enforce_node_consistency (init_domains short_puzzle)) !! x
        = Some [].
Proof.
  assert (ac3 short_puzzle None
            (enforce_node_consistency (init_domains short_puzzle))
          = Ok (false, <[slot_u := []]>
                  (enforce_node_consistency (init_domains short_puzzle))))
    as Hrun by (vm_compute; reflexivity).
  split; [exact Hrun|].
  exact (proj1 (ac3_result_meaning short_puzzle None _ false _ Hrun) eq_refl).
Defined.

(** X8.  On a well-formed puzzle, with a store that gives every
    variable a set of words of the length of its slot and with arcs that
    join a variable to one of its neighbors, [ac3] does not raise: it
    returns, and the store it leaves has the same shape. *)
Theorem ac3_does_not_raise cw arcs (d : Domains) :
  well_formed cw → store_ok cw d → valid_arcs cw arcs →
  ∃ b d', ac3 cw (Some arcs) d = Ok (b, d') ∧ store_ok cw d'.
Proof.
  intros Hwf Hok Hval.
  destruct (ac3_store_ok cw (Some arcs) d Hwf Hok Hval)
    as (b & d' & Hrun & Hok' & _).
  by exists b, d'.
Qed.

Lemma ac3_does_not_raise_witness :
  well_formed chain_puzzle_1
  ∧ store_ok chain_puzzle_1 chain_domains_z
  ∧ valid_arcs chain_puzzle_1 [(slot_u, slot_z); (slot_t, slot_z)]
  ∧ ∃ b d', ac3 chain_puzzle_1 (Some [(slot_u, slot_z); (slot_t, slot_z)])
              chain_domains_z = Ok (b, d')
            ∧ store_ok chain_puzzle_1 d'.
Proof.
  assert (well_formed chain_puzzle_1) as Hwf
    by (apply well_formedb_sound; vm_compute; reflexivity).
  assert (store_ok chain_puzzle_1 chain_domains_z) as Hok
    by (apply store_ok_initial, Hwf).
  assert (valid_arcs chain_puzzle_1 [(slot_u, slot_z); (slot_t, slot_z)])
    as Hval.
  { repeat constructor; simpl;
      apply (bool_decide_unpack _); vm_compute; exact I. }
  split; [exact Hwf|]. split; [exact Hok|]. split; [exact Hval|].
  exact (ac3_does_not_raise chain_puzzle_1 _ chain_domains_z Hwf Hok Hval).
Defined.

(** ** The order of the candidates *)

Lemma removal_counts_Ok cw (d : Domains) var ws items :
  removal_counts cw d var ws = Ok items →
  items.*1 = ws ∧ Forall (λ it, ruled_out cw d var it.1 = Ok it.2) items.
Proof.
  revert items. induction ws as [|w ws IH]; intros items Hrun; simpl in Hrun.
  { by injection Hrun as <-. }
  inv_bind_as Hrun n Hn. inv_bind_as Hrun rest Hrest.
  injection Hrun as <-. destruct (IH _ Hrest) as [Hfst Hall].
  split; [simpl; by f_equal|]. by constructor.
Qed.

Lemma insert_by_count_perm item l : insert_by_count item l ≡ₚ item :: l.
Proof.
  induction l as [|item' l IH]; simpl; [done|].
  case_decide; [done|]. rewrite IH. apply Permutation_swap.
Qed.

Lemma sorted_by_count_perm items : sorted_by_count items ≡ₚ items.
Proof.
  unfold sorted_by_count. induction items as [|item items IH]; simpl; [done|].
  by rewrite insert_by_count_perm, IH.
Qed.

Lemma insert_by_count_sorted item l :
  Sorted (λ i j : string * nat, i.2 ≤ j.2)%nat l →
  Sorted (λ i j : string * nat, i.2 ≤ j.2)%nat (insert_by_count item l).
Proof.
  induction 1 as [|item' l Hs IH Hhd]; simpl.
  { by repeat constructor. }
  case_decide as Hle.
  - constructor; [by constructor|]. by constructor.
  - constructor; [done|].
    destruct l as [|item'' l]; simpl in *.
    + constructor. lia.
    + case_decide; constructor; [lia|]. by inversion Hhd.
Qed.

Lemma sorted_by_count_sorted items :
  Sorted (λ i j : string * nat, i.2 ≤ j.2)%nat (sorted_by_count items).
Proof.
  unfold sorted_by_count. induction items as [|item items IH]; simpl.
  - constructor.
  - by apply insert_by_count_sorted.
Qed.

(** The sort is stable: the items with a given count keep their order. *)
Lemma insert_by_count_stable n item l :
  filter (λ it : string * nat, it.2 = n) (insert_by_count item l)
  = filter (λ it : string * nat, it.2 = n) (item :: l).
Proof.
  induction l as [|item' l IH]; simpl; [done|].
  case_decide as Hle; [done|].
  rewrite (filter_cons _ item'), IH, !filter_cons.
  destruct (decide (item'.2 = n)), (decide (item.2 = n)); try done. lia.
Qed.

Lemma sorted_by_count_stable n items :
  filter (λ it : string * nat, it.2 = n) (sorted_by_count items)
  = filter (λ it : string * nat, it.2 = n) items.
Proof.
  unfold sorted_by_count. induction items as [|item items IH]; simpl; [done|].
  by rewrite insert_by_count_stable, !filter_cons, IH.
Qed.

Lemma order_domain_values_ranked cw (d : Domains) var (a : Assignment) values :
  order_domain_values cw d var a = Ok values →
  ∃ ws items,
    d !! var = Some ws ∧ items.*1 = ws
    ∧ Forall (λ it, ruled_out cw d var it.1 = Ok it.2) items
    ∧ values = (sorted_by_count items).*1.
Proof.
  unfold order_domain_values. intros Hrun.
  inv_bind_as Hrun ws Hws. apply getitem_Ok in Hws.
  inv_bind_as Hrun items Hitems. injection Hrun as <-.
  apply removal_counts_Ok in Hitems as [Hfst Hall].
  by exists ws, items.
Qed.

Lemma order_domain_values_perm cw (d : Domains) var (a : Assignment) values :
  order_domain_values cw d var a = Ok values →
  ∃ ws, d !! var = Some ws ∧ values ≡ₚ ws.
Proof.
  intros (ws & items & Hd & <- & _ & ->)%order_domain_values_ranked.
  exists (items.*1). split; [done|].
  by rewrite sorted_by_count_perm.
Qed.

(** X9.  What [order_domain_values] returns is the domain of the
    variable rearranged: no word is lost or added.  The words come by
    ascending number of options they remove from the neighbors, and
    words that remove the same number keep the order they have in the
    domain. *)
Theorem order_domain_values_spec cw (d : Domains) var (a : Assignment) values :
  order_domain_values cw d var a = Ok values →
  ∃ ws ranked,
    d !! var = Some ws
    ∧ values = ranked.*1
    ∧ values ≡ₚ ws
    ∧ Forall (λ it, ruled_out cw d var it.1 = Ok it.2) ranked
    ∧ Sorted (λ i j : string * nat, i.2 ≤ j.2)%nat ranked
    ∧ ∀ n, (filter (λ it : string * nat, it.2 = n) ranked).*1
           = filter (λ w, ruled_out cw d var w = Ok n) ws.
Proof.
  intros Hrun.
  pose proof (order_domain_values_perm _ _ _ _ _ Hrun) as (ws0 & Hd0 & Hperm).
  apply order_domain_values_ranked in Hrun
    as (ws & items & Hd & Hfst & Hall & ->).
  assert (ws0 = ws) as -> by congruence.
  exists ws, (sorted_by_count items).
  split; [done|]. split; [done|]. split; [done|]. split; [|split].
  - rewrite Forall_forall in Hall. apply Forall_forall. intros it Hit.
    apply Hall. by rewrite <- sorted_by_count_perm.
  - apply sorted_by_count_sorted.
  - intros n. rewrite sorted_by_count_stable. subst ws.
    clear Hd Hd0 Hperm. induction Hall as [|it items Hit _ IH]; [done|].
    rewrite fmap_cons, !filter_cons, <- IH.
    destruct (decide (it.2 = n)) as [<-|Hne].
    + by rewrite decide_True.
    + rewrite decide_False; [done|]. rewrite Hit. congruence.
Qed.

Lemma order_domain_values_spec_witness :
  order_domain_values chain_puzzle_1 chain_domains_z slot_z chain_assignment_z
  = Ok ["BAQ"; "AAP"; "AOP"]
  ∧ ∃ ws ranked,
      chain_domains_z !! slot_z = Some ws
      ∧ ["BAQ"; "AAP"; "AOP"] = ranked.*1
      ∧ ["BAQ"; "AAP"; "AOP"] ≡ₚ ws
      ∧ Forall (λ it, ruled_out chain_puzzle_1 chain_domains_z slot_z it.1
                      = Ok it.2) ranked
      ∧ Sorted (λ i j : string * nat, i.2 ≤ j.2)%nat ranked
      ∧ ∀ n, (filter (λ it : string * nat, it.2 = n) ranked).*1
             = filter (λ w, ruled_out chain_puzzle_1 chain_domains_z slot_z w
                            = Ok n) ws.
Proof.
  assert (order_domain_values chain_puzzle_1 chain_domains_z slot_z
            chain_assignment_z = Ok ["BAQ"; "AAP"; "AOP"]) as Hrun
    by (vm_compute; reflexivity).
  split; [exact Hrun|].
  exact (order_domain_values_spec _ _ _ _ _ Hrun).
Defined.

Lemma count_removed_spec overlap word ndom n :
  Forall (λ w', ∃ b, compatible overlap word w' = Ok b) ndom →
  count_removed overlap word ndom n
  = Ok (n + List.length (filter (λ w', ¬ is_option overlap word w') ndom))%nat.
Proof.
  intros Hall. revert n.
  induction Hall as [|w' ndom [b Hb] _ IH]; intros n; simpl.
  { f_equal. lia. }
  rewrite Hb. simpl. rewrite IH. destruct b.
  - rewrite filter_cons_False; [done|].
    intros Hn. apply Hn. exact Hb.
  - rewrite filter_cons_True.
    + simpl. f_equal. lia.
    + unfold is_option. rewrite Hb. discriminate.
Qed.

Lemma options_removed_by_spec cw (d : Domains) var word ns n :
  (∀ nb, nb ∈ ns →
     ∃ ov ndom, overlaps cw !! (var, nb) = Some ov ∧ d !! nb = Some ndom
                ∧ Forall (λ w', ∃ b, compatible ov word w' = Ok b) ndom) →
  options_removed_by cw d var word ns n
  = Ok (n + sum_list ((λ nb,
          List.length (filter (λ w', ¬ is_option
                                       (mjoin (overlaps cw !! (var, nb)))
                                       word w')
                         (default [] (d !! nb)))) <$> ns))%nat.
Proof.
  revert n. induction ns as [|nb ns IH]; intros n Hall.
  { simpl. f_equal. lia. }
  destruct (Hall nb) as (ov & ndom & Hov & Hd & Hc); [left|].
  rewrite fmap_cons. cbn [options_removed_by sum_list].
  unfold overlaps_getitem, getitem. rewrite Hov, Hd. cbn [mbind result_bind].
  rewrite (count_removed_spec _ _ _ _ Hc). cbn [mbind result_bind].
  rewrite IH by (intros nb' Hnb'; apply Hall; by right).
  cbn [mjoin option_join default]. unfold id. f_equal. lia.
Qed.

Lemma ruled_out_total cw (d : Domains) var word :
  well_formed cw → store_ok cw d →
  String.length word = var_length var →
  ruled_out cw d var word = Ok (ruled_out_count cw d var word).
Proof.
  intros (_ & Hsym & Hb) [Hkeys Hwords] Hlen.
  unfold ruled_out, ruled_out_count.
  rewrite options_removed_by_spec; [done|].
  intros nb (Hnb & Hne & [j i] & Hov)%elem_of_neighbors.
  pose proof (Hsym _ _ _ _ Hov) as Hov'.
  destruct (Hb _ _ _ _ Hov') as [Hi Hj].
  destruct (Hkeys nb Hnb) as [ndom Hd].
  exists (Some (i, j)), ndom. split; [done|]. split; [done|].
  destruct (Hwords nb ndom Hd) as [_ Hl].
  eapply Forall_impl; [exact Hl|]. intros w' Hw'. simpl in Hw'.
  rewrite compatible_in_bounds by lia. eauto.
Qed.

(** X10.  On a well-formed puzzle and a store of words of the right
    lengths, [order_domain_values] does not raise, and the number it
    ranks a word by is the number of words in the domains of the
    neighbors of the variable that are no option for it: words that
    carry another letter at the overlap, or the word itself.  Neighbors
    that are already assigned are counted like the others; the
    assignment is not looked at. *)
Theorem order_domain_values_counts cw (d : Domains) var (a : Assignment) :
  well_formed cw → store_ok cw d → var ∈ variables cw →
  (∀ word, String.length word = var_length var →
     ruled_out cw d var word = Ok (ruled_out_count cw d var word))
  ∧ ∃ values,
      order_domain_values cw d var a = Ok values
      ∧ ∀ a' : Assignment, order_domain_values cw d var a' = Ok values.
Proof.
  intros Hwf Hok Hvar. split.
  { intros word Hlen. by apply ruled_out_total. }
  destruct Hok as [Hkeys Hwords].
  destruct (Hkeys var Hvar) as [ws Hd].
  destruct (Hwords var ws Hd) as [_ Hl].
  assert (∃ items, removal_counts cw d var ws = Ok items) as [items Hitems].
  { clear Hd. induction Hl as [|w ws Hw _ [items IH]]; simpl; [eauto|].
    pose proof (ruled_out_total cw d var w Hwf (conj Hkeys Hwords) Hw) as Hr.
    unfold ruled_out in Hr. rewrite Hr. simpl. rewrite IH. simpl. eauto. }
  exists ((sorted_by_count items).*1).
  unfold order_domain_values, getitem. rewrite Hd. simpl.
  rewrite Hitems. done.
Qed.

Lemma order_domain_values_counts_witness :
  well_formed chain_puzzle_1
  ∧ store_ok chain_puzzle_1 chain_domains_z
  ∧ slot_z ∈ variables chain_puzzle_1
  ∧ String.length "AAP" = var_length slot_z
  ∧ ruled_out chain_puzzle_1 chain_domains_z slot_z "AAP"
    = Ok (ruled_out_count chain_puzzle_1 chain_domains_z slot_z "AAP")
  ∧ ruled_out_count chain_puzzle_1 chain_domains_z slot_z "AAP" = 4%nat.
Proof.
  assert (well_formed chain_puzzle_1) as Hwf
    by (apply well_formedb_sound; vm_compute; reflexivity).
  assert (store_ok chain_puzzle_1 chain_domains_z) as Hok
    by (apply store_ok_initial, Hwf).
  assert (slot_z ∈ variables chain_puzzle_1) as Hz
    by (apply (bool_decide_unpack _); vm_compute; exact I).
  split; [exact Hwf|]. split; [exact Hok|]. split; [exact Hz|].
  split; [reflexivity|]. split; [|vm_compute; reflexivity].
  exact (proj1 (order_domain_values_counts chain_puzzle_1 chain_domains_z
                  slot_z ∅ Hwf Hok Hz) "AAP" eq_refl).
Defined.

(** ** The states of the search *)

Lemma search_step_refl st : search_step st st.
Proof.
  split; [done|]. split; [done|]. split; [by left | apply pruned_refl].
Qed.

Lemma search_step_trans st1 st2 st3 :
  search_step st1 st2 → search_step st2 st3 → search_step st1 st3.
Proof.
  intros (K12 & A12 & N12 & P12) (K23 & A23 & N23 & P23).
  split; [|split; [|split]].
  - intros v. by rewrite K23, K12.
  - intros v w Hv. by apply A23, A12.
  - intros v w Hv. destruct (N23 v w Hv) as [Hv2|(Hv2 & ws2 & Hd2 & Hw)].
    + by apply N12.
    + right.
      destruct (pruned_lookup _ _ _ _ P12 Hd2) as (ws1 & Hd1 & Hsub).
      assert (st1.1 !! v = Some None) as Hv1.
      { destruct (st1.1 !! v) as [[w1|]|] eqn:Hv1; [|done|].
        - apply A12 in Hv1. congruence.
        - apply K12 in Hv1. congruence. }
      split; [done|]. exists ws1. split; [done|].
      by eapply sublist_subseteq.
  - by eapply pruned_trans.
Qed.

Lemma search_step_pruned (a : Assignment) (d d' : Domains) :
  pruned d d' → search_step (a, d) (a, d').
Proof. intros Hp. split; [done|]. split; [done|]. split; [by left | done]. Qed.

Lemma dead_end_step cw st st' :
  dead_end cw st → search_step st st' → dead_end cw st'.
Proof.
  intros (v & Hv & Ha & Hd) (K & A & N & P). exists v. split; [done|]. split.
  - destruct (st'.1 !! v) as [[w|]|] eqn:Hv'; [|done|].
    + destruct (N v w Hv') as [?|(_ & ws & Hws & Hw)]; [congruence|].
      rewrite Hd in Hws. injection Hws as <-. by apply elem_of_nil in Hw.
    + apply K in Hv'. congruence.
  - by eapply pruned_empty.
Qed.

Lemma domain_remove_inv var value (d d' : Domains) :
  domain_remove var value d = Ok d' →
  ∃ ws, d !! var = Some ws ∧ value ∈ ws
        ∧ d' = <[var := filter (λ w, w ≠ value) ws]> d.
Proof.
  unfold domain_remove. intros Hrun.
  inv_bind_as Hrun ws Hws. apply getitem_Ok in Hws.
  inv_bind_as Hrun ws' Hrm. apply set_remove_Ok in Hrm as [Hin ->].
  injection Hrun as <-. by exists ws.
Qed.

Lemma domain_remove_pruned var value (d d' : Domains) :
  domain_remove var value d = Ok d' → pruned d d'.
Proof.
  intros (ws & Hd & _ & ->)%domain_remove_inv.
  apply (pruned_insert _ _ ws); [done | apply sublist_filter].
Qed.

Lemma apply_inferences_step vars (a : Assignment) (d : Domains) a' d' :
  apply_inferences vars (a, d) = Ok (a', d') → search_step (a, d) (a', d').
Proof.
  intros Hrun. pose proof (apply_inferences_spec _ _ _ _ _ Hrun) as Hspec.
  split; [|split; [|split]]; simpl.
  - intros v. destruct (Hspec v) as [[-> _]|(w & Hu & _ & -> & _)]; [done|].
    unfold unassigned in Hu. rewrite Hu. done.
  - intros v w Hv. destruct (Hspec v) as [[-> _]|(w' & Hu & _)]; [done|].
    unfold unassigned in Hu. congruence.
  - intros v w Hv. destruct (Hspec v) as [[Ha _]|(w' & Hu & Hd & Ha & _)].
    + left. congruence.
    + right. split; [done|]. exists [w']. split; [done|].
      assert (w = w') as -> by congruence. left.
  - intros v. destruct (Hspec v) as [[_ ->]|(w' & _ & -> & _ & ->)].
    + by destruct (d !! v).
    + apply sublist_nil_l.
Qed.

Lemma assign_singletons_in vars (a : Assignment) (d : Domains) a' d' :
  assign_singletons vars (a, d) = Ok (a', d') →
  ∀ var,
    (a' !! var = a !! var ∧ d' !! var = d !! var)
    ∨ (var ∈ vars ∧ ∃ w, d !! var = Some [w] ∧ a' !! var = Some (Some w)
                         ∧ d' !! var = Some []).
Proof.
  revert a d. induction vars as [|h vars IH]; intros a d Hrun var;
    simpl in Hrun.
  { injection Hrun as <- <-. by left. }
  inv_bind_as Hrun ws Hws. apply getitem_Ok in Hws.
  case_decide as Hlen.
  2:{ destruct (IH _ _ Hrun var) as [?|(Hin & ?)]; [by left|].
      right. split; [by right | done]. }
  destruct ws as [|w [|? ?]]; try done. simpl in Hrun.
  destruct (IH _ _ Hrun var) as [[Ha Hd]|(Hin & w' & Hd & Ha & Hd')].
  - destruct (decide (var = h)) as [->|Hne].
    + right. split; [left|]. exists w.
      rewrite lookup_insert_eq in Ha. rewrite lookup_insert_eq in Hd. done.
    + left. rewrite lookup_insert_ne in Ha by done.
      by rewrite lookup_insert_ne in Hd.
  - destruct (decide (var = h)) as [->|Hne].
    + by rewrite lookup_insert_eq in Hd.
    + right. split; [by right|]. exists w'.
      by rewrite lookup_insert_ne in Hd.
Qed.

Lemma lookup_empty_assignment_None cw v :
  v ∉ variables cw → empty_assignment cw !! v = None.
Proof.
  intros Hv. unfold empty_assignment. apply not_elem_of_list_to_map_1.
  rewrite <- list_fmap_compose. intros Hin.
  apply list_elem_of_fmap in Hin as (v' & -> & Hin). done.
Qed.

Lemma assign_singletons_step cw (d : Domains) a' d' :
  assign_singletons (variables cw) (empty_assignment cw, d) = Ok (a', d') →
  search_step (empty_assignment cw, d) (a', d').
Proof.
  intros Hspec. pose proof (assign_singletons_in _ _ _ _ _ Hspec) as Hin.
  split; [|split; [|split]]; simpl.
  - intros v. destruct (Hin v) as [[-> _]|(Hv & w & _ & -> & _)]; [done|].
    by rewrite lookup_empty_assignment.
  - intros v w Hv. destruct (Hin v) as [[-> _]|(Hv' & _)]; [done|].
    rewrite lookup_empty_assignment in Hv by done. done.
  - intros v w Hv. destruct (Hin v) as [[Ha _]|(Hv' & w' & Hd & Ha & _)].
    + left. congruence.
    + right. split; [by apply lookup_empty_assignment|].
      exists [w']. split; [done|].
      assert (w = w') as -> by congruence. left.
  - intros v. destruct (Hin v) as [[_ ->]|(_ & w' & -> & _ & ->)].
    + by destruct (d !! v).
    + apply sublist_nil_l.
Qed.

(** A call of [backtrack] on a dictionary that is not empty: where it
    leaves the state, and what its result says about it. *)
Lemma backtrack_steps cw fuel (a : Assignment) (d : Domains) r a' d' :
  a ≠ ∅ →
  backtrack cw fuel (a, d) = Ok (r, (a', d')) →
  search_step (a, d) (a', d')
  ∧ (r = None → dead_end cw (a', d'))
  ∧ (∀ res, r = Some res → res = a').
Proof.
  revert a d r a' d'.
  induction fuel as [|fuel IH]; intros a d r a' d' Hne Hrun; [done|].
  rewrite backtrack_unfold_nonempty in Hrun by done.
  unfold backtrack_search in Hrun.
  destruct (assignment_complete cw a).
  { injection Hrun as <- <- <-. split; [apply search_step_refl|].
    split; [done|]. by intros res [= <-]. }
  inv_bind_as Hrun var Hsel.
  apply select_unassigned_variable_Ok in Hsel as [Hvar Hu].
  unfold unassigned in Hu.
  inv_bind_as Hrun values Hord.
  apply order_domain_values_perm in Hord as (ws0 & Hd0 & Hperm).
  assert (∀ value, value ∈ values → value ∈ ws0) as Hvals
    by (intros value Hv; by rewrite <- Hperm).
  assert (dead_end cw (a, d)
          ∨ (a !! var = Some None
             ∧ ∃ ws, d !! var = Some ws ∧ ∀ w, w ∈ ws → w ∈ values)) as Hpre.
  { right. split; [done|]. exists ws0. split; [done|].
    intros w Hw. by rewrite Hperm. }
  clear Hperm.
  assert (∀ values a1 d1,
            backtrack_loop cw (backtrack cw fuel) var values (a1, d1)
            = Ok (r, (a', d')) →
            search_step (a, d) (a1, d1) →
            dead_end cw (a1, d1)
            ∨ (a1 !! var = Some None
               ∧ ∃ ws, d1 !! var = Some ws ∧ ∀ w, w ∈ ws → w ∈ values) →
            (∀ value, value ∈ values → value ∈ ws0) →
            search_step (a, d) (a', d')
            ∧ (r = None → dead_end cw (a', d'))
            ∧ (∀ res, r = Some res → res = a')) as Hloop.
  2:{ apply (Hloop values a d Hrun); [apply search_step_refl|done..]. }
  clear values Hrun Hvals Hpre.
  induction values as [|value values IHv];
    intros a1 d1 Hrun Hstep Hpre Hvals; simpl in Hrun.
  { injection Hrun as <- <- <-. split; [done|]. split; [|done].
    intros _. destruct Hpre as [Hdead|(Ha1 & ws & Hd1 & Hws)]; [done|].
    exists var. split; [done|]. split; [done|]. simpl. rewrite Hd1.
    destruct ws as [|w ws]; [done|].
    exfalso. eapply not_elem_of_nil, Hws. left. }
  assert (∀ value', value' ∈ values → value' ∈ ws0) as Hvals'
    by (intros value' Hv; apply Hvals; by right).
  inv_bind_as Hrun ok Hok. destruct ok.
  - inv_bind_as Hrun p Hac3. destruct p as [inferences d2].
    apply ac3_pruned in Hac3.
    inv_bind_as Hrun st3 Hinf. destruct st3 as [a3 d3].
    inv_bind_as Hrun p Hrec. destruct p as [r' [a4 d4]].
    set (a2 := <[var := Some value]> a1) in *.
    assert (search_step (a, d) (a2, d2)) as Hstep2.
    { destruct Hstep as (K & A & N & P). simpl in K, A, N, P.
      split; [|split; [|split]]; simpl.
      - intros v. unfold a2. destruct (decide (v = var)) as [->|Hv].
        + rewrite lookup_insert_eq, Hu. done.
        + rewrite lookup_insert_ne by done. apply K.
      - intros v w Hv. unfold a2.
        destruct (decide (v = var)) as [->|Hvv]; [congruence|].
        rewrite lookup_insert_ne by done. by apply A.
      - intros v w. unfold a2. destruct (decide (v = var)) as [->|Hvv].
        + rewrite lookup_insert_eq. intros [= <-]. right.
          split; [done|]. exists ws0. split; [done|]. apply Hvals. left.
        + rewrite lookup_insert_ne by done. apply N.
      - by eapply pruned_trans. }
    assert (search_step (a2, d2) (a3, d3)) as Hstep3.
    { destruct inferences.
      - by apply apply_inferences_step in Hinf.
      - injection Hinf as <- <-. apply search_step_refl. }
    assert (a3 ≠ ∅) as Hne3.
    { intros ->. destruct Hstep3 as (K & _). simpl in K.
      specialize (K var). rewrite lookup_empty in K.
      unfold a2 in K. rewrite lookup_insert_eq in K.
      by destruct K as [K _]; specialize (K eq_refl). }
    destruct (IH _ _ _ _ _ Hne3 Hrec) as (Hstep4 & Hdead4 & Hres4).
    assert (search_step (a, d) (a4, d4)) as Hstep04.
    { eapply search_step_trans; [exact Hstep2|].
      by eapply search_step_trans. }
    destruct r' as [res|].
    + injection Hrun as <- <- <-. split; [done|]. split; [done|].
      intros res' [= <-]. by apply Hres4.
    + inv_bind_as Hrun d5 Hrm. apply domain_remove_pruned in Hrm.
      apply (IHv _ _ Hrun); [|left|done].
      * eapply search_step_trans; [exact Hstep04|].
        by apply search_step_pruned.
      * eapply dead_end_step; [by apply Hdead4|].
        by apply search_step_pruned.
  - inv_bind_as Hrun d5 Hrm.
    pose proof (domain_remove_pruned _ _ _ _ Hrm) as Hp.
    apply domain_remove_inv in Hrm as (ws & Hd1 & Hin & Hd5).
    apply (IHv _ _ Hrun); [| |done].
    + eapply search_step_trans; [exact Hstep|]. by apply search_step_pruned.
    + destruct Hpre as [Hdead|(Ha1 & ws' & Hd1' & Hws)].
      * left. eapply dead_end_step; [exact Hdead|].
        by apply search_step_pruned.
      * right. split; [done|].
        exists (filter (λ w, w ≠ value) ws).
        split; [rewrite Hd5; apply lookup_insert_eq|].
        intros w [Hne' Hw]%list_elem_of_filter.
        assert (ws' = ws) as -> by congruence.
        apply Hws in Hw. by apply elem_of_cons in Hw as [?|?].
Qed.

Lemma select_loop_keys cw (d : Domains) (a : Assignment) vars m s s' :
  select_loop cw d a vars m s = Ok s' →
  ∀ v, v ∈ vars → unassigned a v → is_Some (d !! v).
Proof.
  revert m s. induction vars as [|h vars IH]; intros m s Hrun v Hv Hu.
  { by apply elem_of_nil in Hv. }
  simpl in Hrun. unfold unassigned in Hu.
  destruct (a !! h) as [[w|]|] eqn:Hh.
  - apply elem_of_cons in Hv as [->|Hv]; [congruence | by eapply IH].
  - inv_bind_as Hrun ws Hws. apply getitem_Ok in Hws.
    apply elem_of_cons in Hv as [->|Hv]; [by rewrite Hws; eauto|].
    destruct (below _ m); [by eapply IH|].
    case_bool_decide; [|by eapply IH].
    destruct s as [sel|]; [|done].
    case_bool_decide; by eapply IH.
  - apply elem_of_cons in Hv as [->|Hv]; [congruence | by eapply IH].
Qed.

(** In a dead end [backtrack] returns [None] at once and leaves the
    state as it is. *)
Lemma dead_end_no_solution cw fuel (a : Assignment) (d : Domains) r st' :
  dead_end cw (a, d) →
  backtrack cw fuel (a, d) = Ok (r, st') →
  r = None ∧ st' = (a, d).
Proof.
  intros (v0 & Hv0 & Ha0 & Hd0) Hrun. simpl in Ha0, Hd0.
  assert (a ≠ ∅) as Hne by (intros ->; by rewrite lookup_empty in Ha0).
  destruct fuel as [|fuel]; [done|].
  rewrite backtrack_unfold_nonempty in Hrun by done.
  unfold backtrack_search in Hrun.
  rewrite (assignment_incomplete cw a v0 Hv0 Ha0) in Hrun.
  inv_bind_as Hrun var Hsel.
  assert (∀ v, v ∈ variables cw → unassigned a v → is_Some (d !! v)) as Hkeys.
  { unfold select_unassigned_variable in Hsel.
    inv_bind_as Hsel sel Hloop. by eapply select_loop_keys. }
  destruct (select_unassigned_variable_best cw d a)
    as (var' & Hsel' & Hvar & Hu & Hmin); [by exists v0 | done |].
  assert (var' = var) as -> by congruence.
  assert (d !! var = Some []) as Hdvar.
  { destruct (Hmin v0 Hv0 Ha0) as [Hle _].
    unfold domain_size in Hle. rewrite Hd0 in Hle.
    destruct (Hkeys var Hvar Hu) as [ws Hws]. rewrite Hws in *.
    destruct ws; [done | simpl in Hle; lia]. }
  inv_bind_as Hrun values Hord.
  apply order_domain_values_perm in Hord as (ws & Hws & Hperm).
  assert (ws = []) as -> by congruence.
  apply Permutation_nil_r in Hperm as ->.
  simpl in Hrun. by injection Hrun as <- <-.
Qed.

(** ** What the search never does *)

(** X11.  A call of [backtrack] never takes back what it did: in the
    state it leaves, whatever it returns, every variable that was
    assigned on entry holds the same word, the assignment has the same
    keys, a variable assigned during the call holds a word that was in
    its domain on entry, and every domain is what is left of the domain
    on entry. *)
Theorem backtrack_never_undoes cw fuel (a : Assignment) (d : Domains) r a' d' :
  a ≠ ∅ →
  backtrack cw fuel (a, d) = Ok (r, (a', d')) →
  (∀ v w, a !! v = Some (Some w) → a' !! v = Some (Some w))
  ∧ (∀ v, a' !! v = None ↔ a !! v = None)
  ∧ (∀ v w, a' !! v = Some (Some w) →
       a !! v = Some (Some w)
       ∨ (a !! v = Some None ∧ ∃ ws, d !! v = Some ws ∧ w ∈ ws))
  ∧ (∀ v ws', d' !! v = Some ws' →
       ∃ ws, d !! v = Some ws ∧ ws' `sublist_of` ws).
Proof.
  intros Hne Hrun.
  destruct (backtrack_steps _ _ _ _ _ _ _ Hne Hrun) as ((K & A & N & P) & _).
  simpl in K, A, N, P.
  split; [done|]. split; [done|]. split; [done|].
  intros v ws' Hv. by eapply pruned_lookup.
Qed.

Lemma backtrack_never_undoes_witness :
  chain_assignment_z ≠ ∅
  ∧ ∃ r a' d',
      backtrack chain_puzzle_1 3 (chain_assignment_z, chain_domains_z)
      = Ok (r, (a', d'))
      ∧ (∀ v w, chain_assignment_z !! v = Some (Some w) →
                a' !! v = Some (Some w))
      ∧ (∀ v ws', d' !! v = Some ws' →
           ∃ ws, chain_domains_z !! v = Some ws ∧ ws' `sublist_of` ws).
Proof.
  assert (chain_assignment_z ≠ ∅) as Hne by apply insert_non_empty.
  split; [exact Hne|].
  destruct (backtrack chain_puzzle_1 3 (chain_assignment_z, chain_domains_z))
    as [[r [a' d']]| |] eqn:Hrun; [|vm_compute in Hrun; discriminate..].
  exists r, a', d'. split; [done|].
  destruct (backtrack_never_undoes chain_puzzle_1 3 chain_assignment_z
              chain_domains_z r a' d' Hne Hrun) as (H1 & _ & _ & H4).
  by split.
Defined.

(** X12.  A failure is final.  When a call of [backtrack] returns
    [None], it leaves some variable unassigned with an empty domain; and
    from a state with such a variable every call of [backtrack] returns
    [None] at once, without changing the state.  So the loop that
    receives [None] from its recursive call goes on to its other
    candidates, but none of them can lead to an assignment any more. *)
Theorem backtrack_failure_is_final cw fuel (a : Assignment) (d : Domains) a' d' :
  a ≠ ∅ →
  backtrack cw fuel (a, d) = Ok (None, (a', d')) →
  dead_end cw (a', d')
  ∧ ∀ fuel' r st'',
      backtrack cw fuel' (a', d') = Ok (r, st'') →
      r = None ∧ st'' = (a', d').
Proof.
  intros Hne Hrun.
  destruct (backtrack_steps _ _ _ _ _ _ _ Hne Hrun) as (_ & Hdead & _).
  specialize (Hdead eq_refl). split; [done|].
  intros fuel' r st'' Hrun'. by eapply dead_end_no_solution.
Qed.

Lemma backtrack_failure_is_final_witness :
  let a := <[slot_u := Some "TA"]> (<[slot_y := Some "EAAAA"]>
             (empty_assignment chain_puzzle_2)) in
  let d := enforce_node_consistency (init_domains chain_puzzle_2) in
  let a' := <[slot_z := Some "AOP"]> a in
  let d' := <[slot_u := ["TA"]]> (<[slot_z := []]> (<[slot_t := []]>
              (<[slot_y := ["FAAAA"]]> d))) in
  a ≠ ∅
  ∧ backtrack chain_puzzle_2 3 (a, d) = Ok (None, (a', d'))
  ∧ dead_end chain_puzzle_2 (a', d')
  ∧ ∀ fuel' r st'',
      backtrack chain_puzzle_2 fuel' (a', d') = Ok (r, st'') →
      r = None ∧ st'' = (a', d').
Proof.
  intros a d a' d'.
  assert (a ≠ ∅) as Hne by apply insert_non_empty.
  assert (backtrack chain_puzzle_2 3 (a, d) = Ok (None, (a', d'))) as Hrun
    by (vm_compute; reflexivity).
  split; [exact Hne|]. split; [exact Hrun|].
  exact (backtrack_failure_is_final chain_puzzle_2 3 a d a' d' Hne Hrun).
Defined.

(** ** What [solve] returns *)

Lemma solve_state_steps cw r a' d' :
  solve_state cw = Ok (r, (a', d')) →
  ∃ b d1,
    ac3 cw None (enforce_node_consistency (init_domains cw)) = Ok (b, d1)
    ∧ search_step (empty_assignment cw, d1) (a', d')
    ∧ ∀ res, r = Some res → res = a' ∧ assignment_complete cw a' = true.
Proof.
  unfold solve_state. intros Hrun.
  inv_bind_as Hrun p Hac3. destruct p as [b d1]. exists b, d1.
  split; [done|].
  assert (∀ res, r = Some res → assignment_complete cw res = true)
    as Hcomplete by (intros res ->; by eapply backtrack_complete).
  unfold backtrack_fuel in Hrun. simpl in Hrun.
  rewrite decide_True in Hrun by done.
  inv_bind_as Hrun st1 Hroot. destruct st1 as [a1 d2].
  apply assign_singletons_step in Hroot.
  destruct (decide (a1 = ∅)) as [->|Hne].
  - unfold backtrack_search in Hrun.
    assert (assignment_complete cw ∅ = true) as Hc.
    { unfold assignment_complete. apply forallb_forall. intros v _.
      by rewrite lookup_empty. }
    rewrite Hc in Hrun. injection Hrun as <- <- <-.
    split; [done|]. by intros res [= <-].
  - rewrite <- backtrack_unfold_nonempty in Hrun by done.
    destruct (backtrack_steps _ _ _ _ _ _ _ Hne Hrun) as (Hstep & _ & Hres).
    split; [by eapply search_step_trans|].
    intros res ->. pose proof (Hres res eq_refl) as ->.
    split; [done|]. by apply (Hcomplete a').
Qed.

(** X13.  An assignment that [solve] returns has exactly the variables
    of the puzzle as keys, and gives each of them a word of the
    vocabulary that has the length of its slot. *)
Theorem solve_returns_vocabulary_words cw (a : Assignment) :
  solve cw = Ok (Some a) →
  (∀ v, is_Some (a !! v) ↔ v ∈ variables cw)
  ∧ ∀ v, v ∈ variables cw →
      ∃ w, a !! v = Some (Some w) ∧ w ∈ words cw
           ∧ String.length w = var_length v.
Proof.
  unfold solve. intros Hrun. inv_bind_as Hrun p Hstate.
  destruct p as [r [a' d']]. injection Hrun as ->.
  apply solve_state_steps in Hstate
    as (b & d1 & Hac3 & (K & _ & N & _) & Hres).
  destruct (Hres a eq_refl) as [<- Hcomplete]. simpl in K, N.
  apply ac3_pruned in Hac3.
  split.
  - intros v. destruct (decide (v ∈ variables cw)) as [Hv|Hv].
    + split; [done|]. intros _.
      destruct (a !! v) eqn:Hav; [eauto|].
      apply K in Hav. by rewrite lookup_empty_assignment in Hav.
    + split; [|done]. intros [x Hx].
      pose proof (lookup_empty_assignment_None cw v Hv) as Hn.
      apply K in Hn. congruence.
  - intros v Hv.
    destruct (a !! v) as [[w|]|] eqn:Hav.
    + exists w. split; [done|].
      destruct (N v w Hav) as [He|(_ & ws & Hws & Hw)].
      { by rewrite lookup_empty_assignment in He. }
      destruct (pruned_lookup _ _ _ _ Hac3 Hws) as (ws0 & Hws0 & Hsub).
      rewrite lookup_enforce_node_consistency, lookup_init_domains in Hws0.
      rewrite decide_True in Hws0 by done. injection Hws0 as <-.
      apply (sublist_subseteq _ _ Hsub), list_elem_of_filter in Hw.
      by destruct Hw.
    + unfold assignment_complete in Hcomplete.
      rewrite forallb_forall in Hcomplete.
      apply list_elem_of_In, Hcomplete in Hv. by rewrite Hav in Hv.
    + apply K in Hav. by rewrite lookup_empty_assignment in Hav.
Qed.

Lemma solve_returns_vocabulary_words_witness :
  solve chain_puzzle_1 = Ok (Some chain_answer_1)
  ∧ ∀ v, v ∈ variables chain_puzzle_1 →
      ∃ w, chain_answer_1 !! v = Some (Some w) ∧ w ∈ words chain_puzzle_1
           ∧ String.length w = var_length v.
Proof.
  assert (solve chain_puzzle_1 = Ok (Some chain_answer_1)) as Hrun
    by (vm_compute; reflexivity).
  split; [exact Hrun|].
  exact (proj2 (solve_returns_vocabulary_words chain_puzzle_1 chain_answer_1
                  Hrun)).
Defined.

(** X14.  [solve] terminates on every puzzle: the loop of [ac3] ends
    because a turn that adds arcs removes a word, and every recursive
    call of [backtrack] has one more variable assigned.  It ends by
    returning or by raising. *)
Theorem solve_terminates cw :
  (∃ r, solve cw = Ok r) ∨ (∃ e, solve cw = Raise e).
Proof.
  pose proof (solve_fueled cw) as Hf.
  destruct (solve cw) as [r|e|]; [left; eauto | right; eauto | done].
Qed.

(** X15.  On a puzzle without variables [solve] returns the empty
    assignment: the dictionary built at the root is empty and
    [assignment_complete] accepts it. *)
Theorem solve_without_variables cw :
  variables cw = [] → solve cw = Ok (Some ∅).
Proof.
  intros Hv.
  assert (∀ d : Domains, ac3 cw None d = Ok (true, d)) as Hac3.
  { intros d. unfold ac3.
    assert (all_arcs cw = []) as -> by (unfold all_arcs; by rewrite Hv).
    rewrite reverse_nil. by destruct (ac3_fuel cw [] d). }
  assert (∀ d : Domains,
            backtrack cw (backtrack_fuel cw) (∅, d) = Ok (Some ∅, (∅, d)))
    as Hback.
  { intros d. unfold backtrack_fuel. rewrite Hv.
    cbn [backtrack List.length fst snd]. rewrite decide_True by done.
    unfold empty_assignment, backtrack_search, assignment_complete.
    by rewrite Hv. }
  unfold solve, solve_state. rewrite Hac3. cbn [mbind result_bind].
  by rewrite Hback.
Qed.

Lemma solve_without_variables_witness :
  variables empty_puzzle = [] ∧ solve empty_puzzle = Ok (Some ∅).
Proof.
  split; [reflexivity|].
  exact (solve_without_variables empty_puzzle eq_refl).
Defined.

(** ** The consistency check, in full *)

Lemma consistent_neighbors_false cw (a : Assignment) x x_word ys :
  consistent_neighbors cw a x x_word ys = Ok false →
  ∃ y y_word overlap,
    y ∈ ys ∧ a !! y = Some (Some y_word)
    ∧ overlaps cw !! (x, y) = Some overlap
    ∧ compatible overlap x_word y_word = Ok false.
Proof.
  induction ys as [|y0 ys IH]; intros Hrun; simpl in Hrun; [done|].
  inv_bind_as Hrun ay Hget. apply getitem_Ok in Hget.
  destruct ay as [w0|].
  - inv_bind_as Hrun ov Hov. unfold overlaps_getitem in Hov.
    destruct (overlaps cw !! (x, y0)) as [ov'|] eqn:Hov'; [|done].
    injection Hov as <-. inv_bind_as Hrun c Hc. destruct c.
    + destruct (IH Hrun) as (y & yw & ov & Hy & ?).
      exists y, yw, ov. split; [by right | done].
    + exists y0, w0, ov'. split; [left | done].
  - destruct (IH Hrun) as (y & yw & ov & Hy & ?).
    exists y, yw, ov. split; [by right | done].
Qed.

Lemma consistent_loop_false cw (a : Assignment) xs :
  consistent_loop cw a xs = Ok false →
  ∃ x x_word y y_word overlap,
    x ∈ xs ∧ a !! x = Some (Some x_word)
    ∧ y ∈ neighbors cw x ∧ a !! y = Some (Some y_word)
    ∧ overlaps cw !! (x, y) = Some overlap
    ∧ compatible overlap x_word y_word = Ok false.
Proof.
  induction xs as [|x0 xs IH]; intros Hrun; simpl in Hrun; [done|].
  assert (consistent_loop cw a xs = Ok false →
          ∃ x x_word y y_word overlap,
            x ∈ x0 :: xs ∧ a !! x = Some (Some x_word)
            ∧ y ∈ neighbors cw x ∧ a !! y = Some (Some y_word)
            ∧ overlaps cw !! (x, y) = Some overlap
            ∧ compatible overlap x_word y_word = Ok false) as Hrest.
  { intros (x & xw & y & yw & ov & Hx & ?)%IH.
    exists x, xw, y, yw, ov. split; [by right | done]. }
  destruct (a !! x0) as [[w0|]|] eqn:Hx0; try by apply Hrest.
  inv_bind_as Hrun ok Hok. destruct ok; [by apply Hrest|].
  apply consistent_neighbors_false in Hok as (y & yw & ov & Hy & ?).
  exists x0, w0, y, yw, ov. split; [left | done].
Qed.

Lemma consistent_neighbors_total cw (a : Assignment) x x_word ys :
  (∀ y, y ∈ ys → is_Some (a !! y)) →
  (∀ y y_word, y ∈ ys → a !! y = Some (Some y_word) →
     ∃ overlap b, overlaps cw !! (x, y) = Some overlap
                  ∧ compatible overlap x_word y_word = Ok b) →
  ∃ b, consistent_neighbors cw a x x_word ys = Ok b.
Proof.
  induction ys as [|y0 ys IH]; intros Hkeys Hc; simpl; [eauto|].
  destruct (IH) as [b' Hb'].
  { intros y Hy. apply Hkeys. by right. }
  { intros y yw Hy. apply Hc. by right. }
  destruct (Hkeys y0) as [ay Hay]; [left|].
  unfold getitem. rewrite Hay. simpl. destruct ay as [w0|]; [|eauto].
  destruct (Hc y0 w0) as (ov & b & Hov & Hb); [left|done|].
  unfold overlaps_getitem. rewrite Hov. simpl. rewrite Hb. simpl.
  destruct b; eauto.
Qed.

Lemma consistent_loop_total cw (a : Assignment) xs :
  (∀ x x_word, x ∈ xs → a !! x = Some (Some x_word) →
     ∃ b, consistent_neighbors cw a x x_word (neighbors cw x) = Ok b) →
  ∃ b, consistent_loop cw a xs = Ok b.
Proof.
  induction xs as [|x0 xs IH]; intros Hc; simpl; [eauto|].
  destruct IH as [b' Hb']. { intros x xw Hx. apply Hc. by right. }
  destruct (a !! x0) as [[w0|]|] eqn:Hx0; [|eauto..].
  destruct (Hc x0 w0) as [b Hb]; [left|done|].
  rewrite Hb. simpl. destruct b; eauto.
Qed.

(** [consistent] on a well-formed puzzle, for an assignment that has
    every variable as a key and holds words of the lengths of the
    slots. *)
Lemma consistent_total_spec cw (a : Assignment) :
  well_formed cw →
  (∀ v, v ∈ variables cw → is_Some (a !! v)) →
  (∀ v w, v ∈ variables cw → a !! v = Some (Some w) →
          String.length w = var_length v) →
  ∃ b, consistent cw a = Ok b
       ∧ (b = true ↔
          ∀ x y x_word y_word,
            x ∈ variables cw → y ∈ neighbors cw x →
            a !! x = Some (Some x_word) → a !! y = Some (Some y_word) →
            ∃ ix iy, overlaps cw !! (x, y) = Some (Some (ix, iy))
                     ∧ String.get ix x_word = String.get iy y_word
                     ∧ x_word ≠ y_word).
Proof.
  intros (_ & Hsym & Hb) Hkeys Hlen.
  assert (∀ x y xw yw, x ∈ variables cw → y ∈ neighbors cw x →
            a !! x = Some (Some xw) → a !! y = Some (Some yw) →
            ∃ i j, overlaps cw !! (x, y) = Some (Some (i, j))
                   ∧ (i < String.length xw)%nat ∧ (j < String.length yw)%nat)
    as Hov.
  { intros x y xw yw Hx (Hy & _ & [j i] & Hyx)%elem_of_neighbors Hax Hay.
    pose proof (Hsym _ _ _ _ Hyx) as Hxy.
    destruct (Hb _ _ _ _ Hxy) as [Hi Hj].
    exists i, j. rewrite (Hlen x xw), (Hlen y yw) by done. done. }
  destruct (consistent_loop_total cw a (variables cw)) as [b Hrun].
  { intros x xw Hx Hax. apply consistent_neighbors_total.
    - intros y (Hy & _)%elem_of_neighbors. by apply Hkeys.
    - intros y yw Hy Hay.
      destruct (Hov x y xw yw) as (i & j & Hxy & Hi & Hj); [done..|].
      exists (Some (i, j)). eexists. split; [done|].
      by apply compatible_in_bounds. }
  exists b. split; [done|]. split.
  - intros ->. intros x y xw yw Hx Hy Hax Hay.
    destruct (consistent_loop_true cw a (variables cw) Hrun x xw y yw)
      as (ov & Hxy & Ho); [done..|].
    apply is_option_inv in Ho as (ix & iy & c & -> & Hgx & Hgy & Hne).
    exists ix, iy. split; [done|]. split; [congruence | done].
  - intros Hall. destruct b; [done|]. exfalso.
    apply consistent_loop_false in Hrun
      as (x & xw & y & yw & ov & Hx & Hax & Hy & Hay & Hxy & Hc).
    destruct (Hall x y xw yw) as (ix & iy & Hxy' & Hget & Hne); [done..|].
    destruct (Hov x y xw yw) as (i & j & Hxy'' & Hi & Hj); [done..|].
    assert (ov = Some (i, j)) as -> by congruence.
    assert (ix = i ∧ iy = j) as [-> ->] by (split; congruence).
    rewrite compatible_in_bounds in Hc by done.
    injection Hc as Hc. apply bool_decide_eq_false in Hc. by apply Hc.
Qed.

(** X16.  On a well-formed puzzle, for an assignment that has every
    variable as a key and holds words of the lengths of the slots,
    [consistent] does not raise, and it answers true exactly when every
    pair of assigned neighbors carries the same letter at its overlap
    and holds two different words; unassigned variables are skipped. *)
Theorem consistent_spec cw (a : Assignment) :
  well_formed cw →
  (∀ v, v ∈ variables cw → is_Some (a !! v)) →
  (∀ v w, v ∈ variables cw → a !! v = Some (Some w) →
          String.length w = var_length v) →
  ∃ b, consistent cw a = Ok b
       ∧ (b = true ↔
          ∀ x y x_word y_word,
            x ∈ variables cw → y ∈ neighbors cw x →
            a !! x = Some (Some x_word) → a !! y = Some (Some y_word) →
            ∃ ix iy, overlaps cw !! (x, y) = Some (Some (ix, iy))
                     ∧ String.get ix x_word = String.get iy y_word
                     ∧ x_word ≠ y_word).
Proof. apply consistent_total_spec. Qed.

Lemma consistent_spec_witness :
  well_formed chain_puzzle_1
  ∧ (∀ v, v ∈ variables chain_puzzle_1 → is_Some (chain_answer_1 !! v))
  ∧ (∀ v w, v ∈ variables chain_puzzle_1 →
            chain_answer_1 !! v = Some (Some w) →
            String.length w = var_length v)
  ∧ ∃ b, consistent chain_puzzle_1 chain_answer_1 = Ok b
         ∧ (b = true ↔
            ∀ x y x_word y_word,
              x ∈ variables chain_puzzle_1 → y ∈ neighbors chain_puzzle_1 x →
              chain_answer_1 !! x = Some (Some x_word) →
              chain_answer_1 !! y = Some (Some y_word) →
              ∃ ix iy, overlaps chain_puzzle_1 !! (x, y) = Some (Some (ix, iy))
                       ∧ String.get ix x_word = String.get iy y_word
                       ∧ x_word ≠ y_word).
Proof.
  assert (well_formed chain_puzzle_1) as Hwf
    by (apply well_formedb_sound; vm_compute; reflexivity).
  assert (∀ v, v ∈ variables chain_puzzle_1 → is_Some (chain_answer_1 !! v))
    as Hkeys.
  { intros v Hv. simpl in Hv.
    repeat (apply elem_of_cons in Hv as [->|Hv]; [vm_compute; eauto|]).
    by apply elem_of_nil in Hv. }
  assert (∀ v w, v ∈ variables chain_puzzle_1 →
                 chain_answer_1 !! v = Some (Some w) →
                 String.length w = var_length v) as Hlen.
  { intros v w Hv. simpl in Hv.
    repeat (apply elem_of_cons in Hv as [->|Hv];
            [vm_compute; by intros [= <-]|]).
    by apply elem_of_nil in Hv. }
  split; [exact Hwf|]. split; [exact Hkeys|]. split; [exact Hlen|].
  exact (consistent_spec chain_puzzle_1 chain_answer_1 Hwf Hkeys Hlen).
Defined.

(** ** The assignments made at the root *)

(** X17.  On a well-formed puzzle, when the first [ac3] of [solve],
    on the queue of all arcs, has returned true, the assignments that
    [backtrack] makes at the root (every variable whose domain holds one
    word takes it) form an assignment that [consistent] accepts: here the
    forced inference needs no check. *)
Theorem root_assignment_consistent cw (d d1 d2 : Domains) (a : Assignment) :
  well_formed cw → store_ok cw d →
  ac3 cw None d = Ok (true, d1) →
  assign_singletons (variables cw) (empty_assignment cw, d1) = Ok (a, d2) →
  consistent cw a = Ok true.
Proof.
  intros Hwf Hok Hac3 Hroot.
  destruct (ac3_store_ok cw None d Hwf Hok (valid_all_arcs cw))
    as (b' & d1' & Hac3' & [Hkeys1 Hwords1] & _).
  assert (d1' = d1) as -> by congruence. clear Hac3'.
  pose proof (assign_singletons_in _ _ _ _ _ Hroot) as Hin.
  assert (∀ v w, v ∈ variables cw → a !! v = Some (Some w) →
                 d1 !! v = Some [w]) as Hsingle.
  { intros v w Hv Hav.
    destruct (Hin v) as [[Ha _]|(_ & w' & Hd & Ha & _)]; [|congruence].
    rewrite lookup_empty_assignment in Ha by done. congruence. }
  destruct (consistent_total_spec cw a Hwf) as (b & Hrun & Hiff).
  { intros v Hv. destruct (Hin v) as [[Ha _]|(_ & w' & _ & Ha & _)].
    - rewrite Ha, lookup_empty_assignment by done. eauto.
    - rewrite Ha. eauto. }
  { intros v w Hv Hav. apply Hsingle in Hav; [|done].
    destruct (Hwords1 v [w] Hav) as [_ Hl]. by inversion Hl. }
  rewrite Hrun. f_equal. apply Hiff.
  intros x y xw yw Hx Hy Hax Hay.
  apply Hsingle in Hax; [|done].
  assert (y ∈ variables cw) as Hyv
    by (by apply elem_of_neighbors in Hy as (? & _)).
  apply Hsingle in Hay; [|done].
  destruct Hwf as (_ & Hsym & _).
  assert (arc_consistent cw d1 x y) as Hc.
  { eapply (ac3_loop_sound cw _ _ d d1 Hsym Hac3).
    - intros a0 b0 Hab. left. by apply elem_of_reverse.
    - by apply elem_of_all_arcs. }
  specialize (Hc xw). rewrite Hax, Hay in Hc. simpl in Hc.
  specialize (Hc ltac:(left)).
  apply Exists_cons in Hc as [Ho|Ho]; [|by apply Exists_nil in Ho].
  apply is_option_inv in Ho as (ix & iy & c & Hov & Hgx & Hgy & Hne).
  exists ix, iy. split; [|split; [congruence | done]].
  destruct (overlaps cw !! (x, y)) as [[p|]|]; simpl in Hov; congruence.
Qed.

Lemma root_assignment_consistent_witness :
  let d := enforce_node_consistency (init_domains cross_puzzle) in
  let a := <[slot_u := Some "TA"]> (empty_assignment cross_puzzle) in
  let d2 := <[slot_u := []]> d in
  well_formed cross_puzzle ∧ store_ok cross_puzzle d
  ∧ ac3 cross_puzzle None d = Ok (true, d)
  ∧ assign_singletons (variables cross_puzzle)
      (empty_assignment cross_puzzle, d) = Ok (a, d2)
  ∧ consistent cross_puzzle a = Ok true.
Proof.
  intros d a d2.
  assert (well_formed cross_puzzle) as Hwf
    by (apply well_formedb_sound; vm_compute; reflexivity).
  assert (store_ok cross_puzzle d) as Hok by (apply store_ok_initial, Hwf).
  assert (ac3 cross_puzzle None d = Ok (true, d)) as Hac3
    by (vm_compute; reflexivity).
  assert (assign_singletons (variables cross_puzzle)
            (empty_assignment cross_puzzle, d) = Ok (a, d2)) as Hroot
    by (vm_compute; reflexivity).
  split; [exact Hwf|]. split; [exact Hok|]. split; [exact Hac3|].
  split; [exact Hroot|].
  exact (root_assignment_consistent cross_puzzle d d d2 a Hwf Hok Hac3 Hroot).
Defined.


(** ** Rendering *)

Lemma cell_of_inj (v : Var) (k1 k2 : nat) :
  cell_of v k1 = cell_of v k2 → k1 = k2.
Proof.
  unfold cell_of. destruct (direction v); intros H; inversion H; lia.
Qed.

Lemma string_get_lt (k : nat) (w : string) (c : ascii) :
  String.get k w = Some c → (k < String.length w)%nat.
Proof.
  revert k. induction w as [|c' w IH]; intros k H; [by destruct k|].
  destruct k as [|k]; cbn in *; [lia|].
  apply IH in H. lia.
Qed.

Lemma string_get_Some (k : nat) (w : string) :
  (k < String.length w)%nat → ∃ c, String.get k w = Some c.
Proof.
  revert k. induction w as [|c' w IH]; intros k H; cbn in H; [lia|].
  destruct k as [|k]; cbn; [by eexists|].
  apply IH. lia.
Qed.

Lemma grid_set_Ok (i j : nat) (c : ascii) (g g' : Grid) :
  grid_set i j c g = Ok g' →
  ∃ row, g !! i = Some row ∧ (j < List.length row)%nat
         ∧ g' = <[i := <[j := Some c]> row]> g.
Proof.
  unfold grid_set. destruct (g !! i) as [row|] eqn:Hrow; [|done].
  destruct (decide _); [|done].
  intros [= <-]. by exists row.
Qed.

Lemma grid_set_get (i j : nat) (c : ascii) (g g' : Grid) (i' j' : nat) :
  grid_set i j c g = Ok g' →
  grid_get g' i' j'
  = if decide ((i, j) = (i', j')) then Some (Some c) else grid_get g i' j'.
Proof.
  intros (row & Hrow & Hj & ->)%grid_set_Ok.
  pose proof (lookup_lt_Some _ _ _ Hrow) as Hi.
  unfold grid_get.
  destruct (decide (i = i')) as [<-|Hne].
  - rewrite list_lookup_insert_eq by done. rewrite Hrow. cbn.
    destruct (decide (j = j')) as [<-|Hnej].
    + rewrite list_lookup_insert_eq by done.
      by rewrite decide_True.
    + rewrite list_lookup_insert_ne by done.
      rewrite decide_False; [done|congruence].
  - rewrite list_lookup_insert_ne by done.
    rewrite decide_False; [done|congruence].
Qed.

Lemma grid_set_shape (h w i j : nat) (c : ascii) (g g' : Grid) :
  grid_set i j c g = Ok g' → grid_shape h w g → grid_shape h w g'.
Proof.
  intros (row & Hrow & Hj & ->)%grid_set_Ok [Hlen Hall].
  split; [by rewrite length_insert|].
  apply Forall_insert; [done|].
  rewrite length_insert.
  rewrite Forall_lookup in Hall. by apply (Hall i).
Qed.

Lemma write_letters_shape (h w : nat) (v : Var) (word : string) :
  ∀ k g g', write_letters v k word g = Ok g' →
            grid_shape h w g → grid_shape h w g'.
Proof.
  induction word as [|c word IH]; intros k g g' Hrun Hs; cbn in Hrun.
  - inversion Hrun; by subst.
  - inv_bind_as Hrun g1 Hset.
    eapply IH; [exact Hrun|]. by eapply grid_set_shape.
Qed.

(** What [write_letters] leaves in a cell: the letter of the word that
    belongs there, or what the cell held when no letter belongs there. *)
Lemma write_letters_get (v : Var) (word : string) :
  ∀ k0 g g', write_letters v k0 word g = Ok g' →
    ∀ i j,
      (∃ k c, String.get k word = Some c ∧ cell_of v (k0 + k) = (i, j)
              ∧ grid_get g' i j = Some (Some c))
      ∨ ((∀ k, (k < String.length word)%nat → cell_of v (k0 + k) ≠ (i, j))
         ∧ grid_get g' i j = grid_get g i j).
Proof.
  induction word as [|c word IH]; intros k0 g g' Hrun i j; cbn in Hrun.
  - inversion Hrun; subst. right. split; [cbn; lia|done].
  - inv_bind_as Hrun g1 Hset.
    destruct (IH _ _ _ Hrun i j) as [(k & c' & Hget & Hcell & Hg)|[Hno Hg]].
    + left. exists (S k), c'. cbn. split; [done|].
      split; [|done]. by rewrite Nat.add_succ_r.
    + pose proof (grid_set_get _ _ _ _ _ i j Hset) as Hg1.
      destruct (decide _) as [Heq|Hne] in Hg1.
      * left. exists 0%nat, c. cbn. split; [done|].
        rewrite Nat.add_0_r. split; [|congruence].
        rewrite <- Heq. by destruct (cell_of v k0).
      * right. split; [|congruence].
        intros [|k] Hk.
        -- rewrite Nat.add_0_r. intros Heq. apply Hne.
           rewrite <- Heq. by destruct (cell_of v k0).
        -- rewrite Nat.add_succ_r. apply Hno. cbn in Hk. lia.
Qed.

Lemma write_letters_raises (v : Var) (word : string) :
  ∀ k g, (∃ g', write_letters v k word g = Ok g')
         ∨ write_letters v k word g = Raise IndexError.
Proof.
  induction word as [|c word IH]; intros k g; cbn; [left; by eexists|].
  unfold grid_set.
  destruct (g !! _) as [row|]; [|by right].
  destruct (decide _); [|by right].
  cbn. apply IH.
Qed.

Lemma letter_grid_loop_shape (h w : nat) (a : Assignment) (vars : list Var) :
  ∀ g g', letter_grid_loop a vars g = Ok g' →
          grid_shape h w g → grid_shape h w g'.
Proof.
  induction vars as [|v vars IH]; intros g g' Hrun Hs; cbn in Hrun.
  - inversion Hrun; by subst.
  - destruct (a !! v) as [[word|]|]; [|done|by eapply IH].
    inv_bind_as Hrun g1 Hw.
    eapply IH; [exact Hrun|]. by eapply write_letters_shape.
Qed.

(** What the loop over the assignment leaves in a cell: the letter of
    some word that covers the cell, or what the cell held when no word
    covers it. *)
Lemma letter_grid_loop_get (a : Assignment) (vars : list Var) :
  ∀ g g', letter_grid_loop a vars g = Ok g' →
    ∀ i j,
      (∃ v word k c, v ∈ vars ∧ a !! v = Some (Some word)
                     ∧ String.get k word = Some c ∧ cell_of v k = (i, j)
                     ∧ grid_get g' i j = Some (Some c))
      ∨ ((∀ v word k, v ∈ vars → a !! v = Some (Some word) →
                      (k < String.length word)%nat → cell_of v k ≠ (i, j))
         ∧ grid_get g' i j = grid_get g i j).
Proof.
  induction vars as [|v vars IH]; intros g g' Hrun i j; cbn in Hrun.
  - inversion Hrun; subst. right. split; [|done].
    intros v word k Hv. by apply elem_of_nil in Hv.
  - destruct (a !! v) as [[word|]|] eqn:Hav; [|done|].
    + inv_bind_as Hrun g1 Hw.
      destruct (IH _ _ Hrun i j)
        as [(v' & w' & k & c & Hv' & Ha' & Hget & Hcell & Hg)|[Hno Hg]].
      * left. exists v', w', k, c. split; [by right|done].
      * destruct (write_letters_get _ _ _ _ _ Hw i j)
          as [(k & c & Hget & Hcell & Hg1)|[Hno1 Hg1]].
        -- left. exists v, word, k, c. split; [by left|].
           repeat split; [done..|congruence].
        -- right. split; [|congruence].
           intros v' w' k [->|Hv']%elem_of_cons Ha' Hk.
           ++ assert (w' = word) as -> by congruence. by apply (Hno1 k).
           ++ by eapply Hno.
    + destruct (IH _ _ Hrun i j)
        as [(v' & w' & k & c & Hv' & Ha' & Hget & Hcell & Hg)|[Hno Hg]].
      * left. exists v', w', k, c. split; [by right|done].
      * right. split; [|done].
        intros v' w' k [->|Hv']%elem_of_cons Ha' Hk; [congruence|].
        by eapply Hno.
Qed.

Lemma letter_grid_loop_raises (a : Assignment) (vars : list Var) (v : Var) :
  v ∈ vars → a !! v = Some None →
  ∀ g, letter_grid_loop a vars g = Raise TypeError
       ∨ letter_grid_loop a vars g = Raise IndexError.
Proof.
  intros Hv Hav.
  induction vars as [|x vars IH]; intros g; [by apply elem_of_nil in Hv|].
  cbn. apply elem_of_cons in Hv as [<-|Hv].
  - rewrite Hav. by left.
  - destruct (a !! x) as [[word|]|]; [|by left|by apply IH].
    destruct (write_letters_raises x word 0 g) as [[g1 ->]| ->]; cbn.
    + by apply IH.
    + by right.
Qed.

Lemma blank_grid_shape (h w : nat) : grid_shape h w (blank_grid h w).
Proof.
  split; [apply length_replicate|].
  apply Forall_replicate, length_replicate.
Qed.

Lemma blank_grid_get (h w i j : nat) :
  (i < h)%nat → (j < w)%nat → grid_get (blank_grid h w) i j = Some None.
Proof.
  intros Hi Hj. unfold grid_get, blank_grid.
  rewrite lookup_replicate_2 by done. cbn.
  by rewrite lookup_replicate_2.
Qed.

Lemma letters_agreeb_sound (cw : Crossword) (a : Assignment) :
  letters_agreeb cw a = true → letters_agree cw a.
Proof.
  unfold letters_agreeb.
  intros H v1 v2 w1 w2 k1 k2 c1 c2 Hv1 Hv2 Ha1 Ha2 Hg1 Hg2 Hcell.
  rewrite forallb_forall in H.
  specialize (H v1 ltac:(by apply list_elem_of_In)).
  rewrite forallb_forall in H.
  specialize (H v2 ltac:(by apply list_elem_of_In)).
  rewrite Ha1, Ha2 in H.
  rewrite forallb_forall in H.
  specialize (H k1 ltac:(apply in_seq; apply string_get_lt in Hg1; lia)).
  rewrite forallb_forall in H.
  specialize (H k2 ltac:(apply in_seq; apply string_get_lt in Hg2; lia)).
  cbn beta in H. rewrite decide_True in H by done.
  apply bool_decide_eq_true in H. congruence.
Qed.

(** X18.  [letter_grid] on an assignment that agrees on shared cells:
    when it returns, the array has [height] rows of [width] cells, every
    cell of an assigned slot holds the letter of the slot's word at that
    position, and every cell inside the grid that no assigned word
    covers holds [None]. *)
Theorem letter_grid_spec (height width : nat) (cw : Crossword)
    (a : Assignment) (letters : Grid) :
  letters_agree cw a →
  letter_grid height width cw a = Ok letters →
  grid_shape height width letters
  ∧ (∀ v word k c,
       v ∈ variables cw → a !! v = Some (Some word) →
       String.get k word = Some c →
       grid_get letters (cell_of v k).1 (cell_of v k).2 = Some (Some c))
  ∧ (∀ i j,
       (i < height)%nat → (j < width)%nat →
       (∀ v word k, v ∈ variables cw → a !! v = Some (Some word) →
                    (k < String.length word)%nat → cell_of v k ≠ (i, j)) →
       grid_get letters i j = Some None).
Proof.
  intros Hagree Hrun. unfold letter_grid in Hrun.
  split; [|split].
  - eapply letter_grid_loop_shape; [exact Hrun|apply blank_grid_shape].
  - intros v word k c Hv Ha Hget.
    destruct (letter_grid_loop_get _ _ _ _ Hrun (cell_of v k).1 (cell_of v k).2)
      as [(v' & w' & k' & c' & Hv' & Ha' & Hget' & Hcell & Hg)|[Hno _]].
    + rewrite Hg. do 2 f_equal.
      eapply (Hagree v' v w' word k' k); try done.
      rewrite Hcell. by destruct (cell_of v k).
    + exfalso. eapply (Hno v word k); try done.
      * by eapply string_get_lt.
      * by destruct (cell_of v k).
  - intros i j Hi Hj Hfree.
    destruct (letter_grid_loop_get _ _ _ _ Hrun i j)
      as [(v' & w' & k' & c' & Hv' & Ha' & Hget' & Hcell & Hg)|[_ Hg]].
    + exfalso. eapply (Hfree v' w' k'); try done.
      by eapply string_get_lt.
    + rewrite Hg. by apply blank_grid_get.
Qed.

Lemma letter_grid_spec_witness :
  letters_agree cross_puzzle cross_answer
  ∧ grid_get [[Some "T"%char; Some "A"%char]; [None; Some "A"%char];
              [None; Some "P"%char]] 2 1 = Some (Some "P"%char).
Proof.
  assert (letters_agree cross_puzzle cross_answer) as Hagree
    by (apply letters_agreeb_sound; vm_compute; reflexivity).
  split; [exact Hagree|].
  assert (letter_grid 3 2 cross_puzzle cross_answer
          = Ok [[Some "T"%char; Some "A"%char]; [None; Some "A"%char];
                [None; Some "P"%char]]) as Hrun
    by (vm_compute; reflexivity).
  destruct (letter_grid_spec 3 2 cross_puzzle cross_answer _ Hagree Hrun)
    as (_ & Hread & _).
  apply (Hread slot_z "AAP" 2%nat "P"%char).
  - apply (bool_decide_unpack _). vm_compute. exact I.
  - vm_compute. reflexivity.
  - reflexivity.
Defined.

(** X19.  [letter_grid] does not return on a partial assignment: when
    some key of the assignment holds [None], the call raises, with
    [TypeError] from [len(word)] unless a word written before ran out
    of the grid ([IndexError]). *)
Theorem letter_grid_partial_raises (height width : nat) (cw : Crossword)
    (a : Assignment) (v : Var) :
  v ∈ variables cw → a !! v = Some None →
  letter_grid height width cw a = Raise TypeError
  ∨ letter_grid height width cw a = Raise IndexError.
Proof.
  intros Hv Hav. unfold letter_grid.
  by eapply letter_grid_loop_raises.
Qed.

Lemma letter_grid_partial_raises_witness :
  letter_grid 3 2 cross_puzzle (<[slot_z := None]> cross_answer)
  = Raise TypeError
  ∨ letter_grid 3 2 cross_puzzle (<[slot_z := None]> cross_answer)
    = Raise IndexError.
Proof.
  apply (letter_grid_partial_raises 3 2 cross_puzzle _ slot_z).
  - apply (bool_decide_unpack _). vm_compute. exact I.
  - vm_compute. reflexivity.
Defined.
